(** * demobid: a bid endpoint and an auction fan-out, verified over a shallow embedding

    The Go program of [main.go] serves two handlers.  [HandlerBid] answers a
    price for a floor and a bidder identity; [HandlerAuction] draws a floor,
    asks [MaxDSP] bidders concurrently through [askDSP], collects the answers
    through a channel and picks the highest bid with [sort.Sort].

    Layout of this file:
    - [F64]      float64 as IEEE-754 binary64 ([spec_float], 53 bits, emax 1024);
    - [Strconv]  the pieces of Go's [strconv] the handlers call;
    - [Url]      [url.Values], [url.QueryEscape] and [url.URL];
    - [Bid]      [HandlerBid] and [makeBidURL];
    - [Query]    [url.QueryUnescape], [url.ParseQuery] and the query of a URL;
    - [Select]   [DspResults], its [sort.Interface] methods, the winner pick;
    - [Round]    one auction round as an interleaving of goroutines;
    - [Loopback] the bidders of a round as the program's own bid endpoint;
    - [Examples] sample requests and rounds;
    then the facts about each of them, the claims C1 to C10 and, last, further
    properties of the two handlers ([BidProps], [SelectProps], [RoundProps]). *)

From Stdlib Require Import ZArith QArith Qabs Qpower Lia Lqa List Permutation Sorted Ascii String.
From Stdlib Require Import Floats.SpecFloat.
From stdpp Require Import base option list sorting strings gmap.

Open Scope Z_scope.

(** ** float64 *)

Module F64.

Definition prec : Z := 53.
Definition emax : Z := 1024.

(** A Go [float64] value. *)
Definition float64 : Type := spec_float.

Definition add : float64 -> float64 -> float64 := SFadd prec emax.
Definition mul : float64 -> float64 -> float64 := SFmul prec emax.
Definition div : float64 -> float64 -> float64 := SFdiv prec emax.

(** Go's [<], [<=] and [==] on float64: false as soon as one side is NaN. *)
Definition ltb : float64 -> float64 -> bool := SFltb.
Definition leb : float64 -> float64 -> bool := SFleb.
Definition eqb : float64 -> float64 -> bool := SFeqb.

(** The conversion of an integer constant, [float64(z)]. *)
Definition of_Z (z : Z) : float64 := binary_normalize prec emax z 0 false.

Definition is_nan (x : float64) : bool :=
  match x with S754_nan => true | _ => false end.

(** Neither NaN nor an infinity, and a well-formed binary64 pattern. *)
Definition finite (x : float64) : bool :=
  match x with
  | S754_zero _ => true
  | S754_finite _ m e => bounded prec emax m e
  | _ => false
  end.

(** Neither NaN nor an infinity. *)
Definition is_number (x : float64) : bool :=
  match x with
  | S754_zero _ | S754_finite _ _ _ => true
  | _ => false
  end.

(** The exact value of a float, as a rational ([0] for NaN and infinities). *)
Definition to_Q (x : float64) : Q :=
  match x with
  | S754_finite s m e =>
      let v := match e with
               | Z0 => inject_Z (Zpos m)
               | Zpos p => inject_Z (Zpos m * 2 ^ Zpos p)
               | Zneg p => Qmake (Zpos m) (2 ^ p)
               end in
      if s then Qopp v else v
  | _ => 0%Q
  end.

(** [math.Round]: the nearest integer, halves away from zero; zeros keep
    their sign, NaN and infinities are returned as they are. *)
Definition Round (x : float64) : float64 :=
  match x with
  | S754_finite s m (Zneg p) =>
      let d := 2 ^ Zpos p in
      let q := Zpos m / d in
      let r := Zpos m mod d in
      let k := if d <=? 2 * r then q + 1 else q in
      match k with
      | Z0 => S754_zero s
      | _ => binary_normalize prec emax (if s then - k else k) 0 false
      end
  | _ => x
  end.

(** The sign bit. *)
Definition sign_of (x : float64) : bool :=
  match x with
  | S754_zero s | S754_infinity s | S754_finite s _ _ => s
  | S754_nan => false
  end.


(** The rational [m * 2^e]. *)
Definition dyadic (m e : Z) : Q := (inject_Z m * 2 ^ e)%Q.

(** Not below zero as far as the sign goes: a zero of either sign, or a
    clear sign bit. *)
Definition nonneg (x : float64) : Prop :=
  match x with
  | S754_zero _ => True
  | _ => sign_of x = false
  end.

(** A well-formed float64 of magnitude below [2^T]: a zero, or a mantissa
    and an exponent with [digits m + e <= T]. *)
Definition below (T : Z) (x : float64) : Prop :=
  match x with
  | S754_zero _ => True
  | S754_finite _ m e => bounded prec emax m e = true /\ Zdigits2 (Zpos m) + e <= T
  | _ => False
  end.

End F64.

Import F64.

(** ** strconv: the conversions the two handlers call *)

Module Strconv.

Inductive NumError := ErrSyntax | ErrRange.

Definition digit_val (c : ascii) : option N :=
  let n := N_of_ascii c in
  if (48 <=? n)%N && (n <=? 57)%N then Some (n - 48)%N else None.

Definition digit_char (d : N) : ascii := ascii_of_N (48 + d).

(** [strconv.ParseUint(s, 10, 32)]: the loop over the bytes of [s] with
    [base = 10], [cutoff = maxUint64/10 + 1] and [maxVal = 1<<32 - 1].  With
    base 10 fixed, a letter is a digit [>= base] and an underscore is not
    accepted, so every byte that is not a decimal digit is a syntax error. *)
Definition cutoff : N := (2 ^ 64 - 1) / 10 + 1.
Definition maxVal : N := 2 ^ 32 - 1.

Fixpoint ParseUint_loop (s : string) (n : N) : NumError + N :=
  match s with
  | EmptyString => inr n
  | String c s' =>
      match digit_val c with
      | None => inl ErrSyntax
      | Some d =>
          if (cutoff <=? n)%N then inl ErrRange
          else
            let n10 := (n * 10)%N in
            let n1 := ((n10 + d) mod 2 ^ 64)%N in
            if (n1 <? n10)%N || (maxVal <? n1)%N then inl ErrRange
            else ParseUint_loop s' n1
      end
  end.

Definition ParseUint (s : string) : NumError + N :=
  match s with
  | EmptyString => inl ErrSyntax
  | _ => ParseUint_loop s 0%N
  end.

Fixpoint all_digits (s : string) : bool :=
  match s with
  | EmptyString => true
  | String c s' => (match digit_val c with Some _ => true | None => false end) && all_digits s'
  end.

(** [strconv.Itoa] on a non-negative int: the digits, least significant
    first, pushed in front of the text built so far. *)
Fixpoint FormatUint_loop (fuel : nat) (n : N) (acc : string) : string :=
  let acc' := String (digit_char (n mod 10)) acc in
  match fuel with
  | O => acc'
  | S fuel' => if (n <? 10)%N then acc' else FormatUint_loop fuel' (n / 10) acc'
  end.

(** [k] zeros in front of [s]. *)
Fixpoint zeros (k : nat) (s : string) : string :=
  match k with
  | O => s
  | S k' => String "0" (zeros k' s)
  end.

Definition FormatUint (n : N) : string :=
  FormatUint_loop (N.size_nat n) n EmptyString.

Definition Itoa (i : nat) : string := FormatUint (N.of_nat i).

(** The last [k] decimal digits of [n], zero-padded. *)
Fixpoint FormatFrac (k : nat) (n : N) (acc : string) : string :=
  match k with
  | O => acc
  | S k' => FormatFrac k' (n / 10) (String (digit_char (n mod 10)) acc)
  end.

(** The decimal conversion of [FormatFloat(x, 'f', digs, 64)] rounds the exact
    value of [x] to [digs] digits after the point, a tie going to the even
    digit.  [scaled_round m e digs] is [m * 2^e * 10^digs] so rounded. *)
Definition scaled_round (m : positive) (e : Z) (digs : nat) : N :=
  let num := (Npos m * 10 ^ N.of_nat digs)%N in
  match e with
  | Zneg p =>
      let d := (2 ^ Npos p)%N in
      let q := (num / d)%N in
      let r := (num mod d)%N in
      match (2 * r ?= d)%N with
      | Lt => q
      | Gt => (q + 1)%N
      | Eq => if N.even q then q else (q + 1)%N
      end
  | _ => (num * 2 ^ Z.to_N e)%N
  end.

(** The text of a non-negative fixed-point number [n / 10^digs]. *)
Definition fixed (digs : nat) (n : N) : string :=
  FormatUint (n / 10 ^ N.of_nat digs) +:+
  match digs with
  | O => EmptyString
  | _ => String "." (FormatFrac digs n EmptyString)
  end.

(** [strconv.FormatFloat(x, 'f', digs, 64)]. *)
Definition FormatFloat_f (x : float64) (digs : nat) : string :=
  match x with
  | S754_nan => "NaN"
  | S754_infinity false => "+Inf"
  | S754_infinity true => "-Inf"
  | S754_zero s => (if s then "-" else "") +:+ fixed digs 0
  | S754_finite s m e => (if s then "-" else "") +:+ fixed digs (scaled_round m e digs)
  end.

(** The value that the text [FormatFloat(x, 'f', 3, 64)] denotes, in thousandths. *)
Definition thousandths (x : float64) : N :=
  match x with
  | S754_finite _ m e => scaled_round m e 3
  | _ => 0%N
  end.

(** The plain decimal literals of [strconv.ParseFloat(s, 64)]: an optional
    sign, digits with at most one point, at least one digit.  The value is
    the literal rounded to the nearest float64, ties to even; a literal too
    large for a float64 is a range error.  The other forms Go reads (an
    exponent part, hexadecimal, underscores, the words Inf and NaN) are not
    covered here and come out as errors: this reader is used where the text
    is known to be a plain literal, and the handler takes its reader as a
    parameter. *)
Fixpoint read_decimal (s : string) (mant : N) (nfrac : nat) (sawdot sawdigits : bool)
  : option (N * nat) :=
  match s with
  | EmptyString => if sawdigits then Some (mant, nfrac) else None
  | String c s' =>
      if Ascii.eqb c "." then
        if sawdot then None else read_decimal s' mant nfrac true sawdigits
      else
        match digit_val c with
        | Some d =>
            read_decimal s' (10 * mant + d)%N (if sawdot then S nfrac else nfrac) sawdot true
        | None => None
        end
  end.

Definition pow10 (k : nat) : positive := Nat.iter k (Pos.mul 10) 1%positive.

Definition read_sign (s : string) : bool * string :=
  match s with
  | String c s' =>
      if Ascii.eqb c "+" then (false, s')
      else if Ascii.eqb c "-" then (true, s')
      else (false, s)
  | EmptyString => (false, s)
  end.

Definition ParseFloat_plain (s : string) : option float64 :=
  let '(neg, body) := read_sign s in
  match read_decimal body 0 0 false false with
  | Some (N0, _) => Some (S754_zero neg)
  | Some (Npos m, nfrac) =>
      match F64.div (S754_finite neg m 0) (S754_finite false (pow10 nfrac) 0) with
      | S754_infinity _ | S754_nan => None
      | x => Some x
      end
  | None => None
  end.

End Strconv.

(** ** net/url *)

Module Url.

(** [url.Values], a [map[string][]string]. *)
Abbreviation Values := (gmap string (list string)).

(** [Values.Get]: the first value of the key, the empty string without one. *)
Definition Get (v : Values) (key : string) : string :=
  match v !! key with
  | Some (x :: _) => x
  | _ => EmptyString
  end.

(** [Values.Add]: append to the values of the key. *)
Definition Add (v : Values) (key value : string) : Values :=
  <[key := default [] (v !! key) ++ [value]]> v.

Definition hex_char (d : N) : ascii :=
  if (d <? 10)%N then ascii_of_N (48 + d) else ascii_of_N (55 + d).

(** [url.QueryEscape]: letters, digits and [-_.~] stay, a space becomes [+],
    every other byte is written [%XX]. *)
Definition unreserved (c : ascii) : bool :=
  let n := N_of_ascii c in
  ((48 <=? n) && (n <=? 57) || (65 <=? n) && (n <=? 90) || (97 <=? n) && (n <=? 122)
   || (n =? 45) || (n =? 95) || (n =? 46) || (n =? 126))%N.

Fixpoint QueryEscape (s : string) : string :=
  match s with
  | EmptyString => EmptyString
  | String c s' =>
      if unreserved c then String c (QueryEscape s')
      else if Ascii.eqb c " " then String "+" (QueryEscape s')
      else
        let n := N_of_ascii c in
        String "%" (String (hex_char (n / 16)) (String (hex_char (n mod 16)) (QueryEscape s')))
  end.


Definition join_amp (parts : list string) : string :=
  match parts with
  | [] => EmptyString
  | p :: ps => fold_left (fun acc q => acc +:+ "&" +:+ q) ps p
  end.

(** [Values.Encode]: [key=value] pairs joined by [&], keys in sorted order. *)
Definition Encode (v : Values) : string :=
  let keys := merge_sort (fun a b => Is_true (String.leb a b)) (map fst (map_to_list v)) in
  join_amp
    (flat_map (fun k => map (fun x => QueryEscape k +:+ "=" +:+ QueryEscape x)
                            (default [] (v !! k))) keys).

(** The fields of [url.URL] that [makeBidURL] sets. *)
Record URL := { Scheme : string; Host : string; Path : string; RawQuery : string }.

(** [URL.String] for a URL with a scheme, a host, an absolute path of plain
    letters and a query. *)
Definition URL_String (u : URL) : string :=
  Scheme u +:+ "://" +:+ Host u +:+ Path u +:+
  (if String.eqb (RawQuery u) EmptyString then EmptyString else "?" +:+ RawQuery u).

End Url.

(** ** The bid endpoint *)

Module Bid.
Import Strconv Url.

Definition serverAddr : string := "0:8080".

(** The untyped constant [MaxDSP]; the handlers use it at [uint64] and [int]. *)
Definition MaxDSP : nat := 3.

Record Resp := { Price : float64 }.

(** What the handler leaves in the [http.ResponseWriter]. *)
Inductive Response :=
| Error (msg : string) (code : Z)
| JSON (delay_ms : Z) (body : Resp).

Definition StatusBadRequest : Z := 400.
Definition StatusInternalServerError : Z := 500.

(** [json.Marshal] of a [Resp]: NaN and the infinities are unsupported
    values.  The bytes written for a finite price are not modelled; the body
    is kept as the value they encode. *)
Definition Marshal (r : Resp) : string + Resp :=
  match Price r with
  | S754_nan => inl "json: unsupported value: NaN"
  | S754_infinity false => inl "json: unsupported value: +Inf"
  | S754_infinity true => inl "json: unsupported value: -Inf"
  | _ => inr r
  end.

(** Rounding to two decimals, as the handler writes it:
    [math.Round(x*100) / 100]. *)
Definition round2 (x : float64) : float64 :=
  F64.div (F64.Round (F64.mul x (F64.of_Z 100))) (F64.of_Z 100).

(** The [dsp] of the query is accepted: [ParseUint] reads it and the value
    is one of [1..MaxDSP]. *)
Definition dsp_accepted (vars : Values) : Prop :=
  exists dsp, ParseUint (Get vars "dsp") = inr dsp /\ (1 <= dsp <= N.of_nat MaxDSP)%N.

Section Handler.

(** [strconv.ParseFloat(s, 64)], [None] for an error. *)
Variable ParseFloat : string -> option float64.

(** [HandlerBid] on the query [vars] of the request.  [rnd] is the value of
    [rand.Float64()] and [rndn] the value of [rand.Intn(9)]. *)
Definition HandlerBid (vars : Values) (rnd : float64) (rndn : Z) : Response :=
  match ParseUint (Get vars "dsp") with
  | inl _ => Error "bad dsp parameter" StatusBadRequest
  | inr dsp =>
      if (N.of_nat MaxDSP <? dsp)%N || (dsp <? 1)%N then Error "bad dsp parameter" StatusBadRequest
      else
        match ParseFloat (Get vars "p") with
        | Some floor =>
            let price := F64.add floor (F64.mul rnd (F64.of_Z 100)) in
            let price := F64.div (F64.Round (F64.mul price (F64.of_Z 100))) (F64.of_Z 100) in
            let delayTimeMs := 10 * (rndn + 1) in
            match Marshal {| Price := price |} with
            | inl err => Error err StatusInternalServerError
            | inr body => JSON delayTimeMs body
            end
        | None => Error "bad p parameter" StatusBadRequest
        end
  end.

End Handler.

(** The two timeouts of the program, in milliseconds: [ReadTimeout] and
    [WriteTimeout] of the server in [main], [Timeout] of the client in
    [HandlerAuction]. *)
Definition serverTimeoutMs : Z := 100.
Definition clientTimeoutMs : Z := 100.

(** [makeBidURL]. *)
Definition makeBidURL (floor : float64) (dspId : nat) : string :=
  let params : Values := ∅ in
  let params := Add params "p" (FormatFloat_f floor 3) in
  let params := Add params "dsp" (Itoa dspId) in
  let addr := {| Scheme := "http"; Host := serverAddr; Path := "/bid";
                 RawQuery := Encode params |} in
  URL_String addr.

(** What [ParseFloat] makes of the [p] of a bid URL: the float64 nearest to
    the thousandths written. *)
Definition received (x : float64) : option float64 :=
  match thousandths x with
  | N0 => Some (S754_zero (sign_of x))
  | Npos k =>
      match F64.div (S754_finite (sign_of x) k 0) (S754_finite false 1000 0) with
      | S754_infinity _ | S754_nan => None
      | y => Some y
      end
  end.

End Bid.

(** ** Reading a query back *)

Module Query.
Import Strconv Url Bid.

(** [ishex] and [unhex] of package [net/url]. *)
Definition hex_val (c : ascii) : option N :=
  let n := N_of_ascii c in
  if (48 <=? n)%N && (n <=? 57)%N then Some (n - 48)%N
  else if (97 <=? n)%N && (n <=? 102)%N then Some (n - 87)%N
  else if (65 <=? n)%N && (n <=? 70)%N then Some (n - 55)%N
  else None.

(** [url.QueryUnescape]: [%XX] is the byte [XX], [+] is a space; a [%] that
    is not followed by two hexadecimal digits is an error. *)
Fixpoint QueryUnescape (s : string) : option string :=
  match s with
  | EmptyString => Some EmptyString
  | String c s' =>
      if Ascii.eqb c "%" then
        match s' with
        | String h (String l s'') =>
            match hex_val h, hex_val l with
            | Some a, Some b =>
                t ← QueryUnescape s''; Some (String (ascii_of_N (16 * a + b)) t)
            | _, _ => None
            end
        | _ => None
        end
      else if Ascii.eqb c "+" then t ← QueryUnescape s'; Some (String " " t)
      else t ← QueryUnescape s'; Some (String c t)
  end.

(** The pieces of [s] between the bytes [sep]. *)
Fixpoint split_on (sep : ascii) (s : string) : list string :=
  match s with
  | EmptyString => [EmptyString]
  | String c s' =>
      if Ascii.eqb c sep then EmptyString :: split_on sep s'
      else match split_on sep s' with
           | p :: ps => String c p :: ps
           | [] => [String c EmptyString]
           end
  end.

(** [strings.Cut(s, sep)] for a separator of one byte: the text before the
    first [sep] and the text after it; without a [sep], all of [s] and the
    empty string. *)
Fixpoint Cut (sep : ascii) (s : string) : string * string :=
  match s with
  | EmptyString => (EmptyString, EmptyString)
  | String c s' =>
      if Ascii.eqb c sep then (EmptyString, s')
      else let '(before, after) := Cut sep s' in (String c before, after)
  end.

Fixpoint Contains (c : ascii) (s : string) : bool :=
  match s with
  | EmptyString => false
  | String c' s' => Ascii.eqb c' c || Contains c s'
  end.

(** The body of the loop of [url.ParseQuery] for one piece [key]: a piece
    with a semicolon, an empty piece and a piece that does not unescape are
    skipped (they only set the error, which [URL.Query] drops). *)
Definition parse_pair (m : Values) (key : string) : Values :=
  if Contains ";" key then m
  else if String.eqb key EmptyString then m
  else
    let '(key, value) := Cut "=" key in
    match QueryUnescape key with
    | None => m
    | Some key =>
        match QueryUnescape value with
        | None => m
        | Some value => Add m key value
        end
    end.

(** [url.ParseQuery], the error dropped: the loop cuts the query at each [&]
    and handles the pieces from left to right. *)
Definition ParseQuery (query : string) : Values :=
  fold_left parse_pair (split_on "&" query) ∅.

(** [URL.Query]. *)
Definition URL_Query (u : URL) : Values := ParseQuery (RawQuery u).

(** The [addr] of [makeBidURL], before [addr.String()]. *)
Definition bid_addr (floor : float64) (dspId : nat) : URL :=
  {| Scheme := "http"; Host := serverAddr; Path := "/bid";
     RawQuery := Encode (Add (Add ∅ "p" (FormatFloat_f floor 3)) "dsp" (Itoa dspId)) |}.

(** The bytes at which a URL and its query are cut. *)
Definition separator (c : ascii) : bool :=
  Ascii.eqb c "&" || Ascii.eqb c "=" || Ascii.eqb c ";" || Ascii.eqb c "#" || Ascii.eqb c "?".

(** The query that [url.Parse] finds in a URL: the fragment is cut off at the
    first [#], the query starts after the first [?]. *)
Definition query_of (rawURL : string) : string :=
  snd (Cut "?" (fst (Cut "#" rawURL))).

End Query.

(** ** Winner selection *)

Module Select.

Record DspResult := { DSPId : nat; BidPrice : float64 }.

Abbreviation DspResults := (list DspResult).

(** The three methods of [sort.Interface].  An index outside the slice makes
    Go panic; here the method has no result. *)
Definition Len (b : DspResults) : nat := length b.

Definition Swap (b : DspResults) (i j : nat) : option DspResults :=
  x ← b !! i; y ← b !! j; Some (<[j := x]> (<[i := y]> b)).

Definition Less (b : DspResults) (i j : nat) : option bool :=
  x ← b !! i; y ← b !! j; Some (F64.ltb (BidPrice x) (BidPrice y)).

(** [insertionSort(data, a, b)] of package [sort]:
    [for i := a + 1; i < b; i++ { for j := i; j > a && data.Less(j, j-1); j-- { data.Swap(j, j-1) } }]. *)
Fixpoint insertion_inner (data : DspResults) (a j : nat) : option DspResults :=
  match j with
  | O => Some data
  | S j' =>
      if decide (a < j)%nat then
        lt ← Less data j j';
        if (lt : bool) then data' ← Swap data j j'; insertion_inner data' a j'
        else Some data
      else Some data
  end.

Fixpoint insertion_outer (data : DspResults) (a i : nat) (iters : nat) : option DspResults :=
  match iters with
  | O => Some data
  | S iters' => data' ← insertion_inner data a i; insertion_outer data' a (S i) iters'
  end.

Definition insertionSort (data : DspResults) (a b : nat) : option DspResults :=
  insertion_outer data a (S a) (b - S a).

(** [sort.Sort] on a slice of at most 12 entries (6 before Go 1.19, where a
    gap-6 pass comes first): one call of [insertionSort] over the whole slice.
    An auction collects at most [MaxDSP = 3] entries. *)
Definition sort_Sort (data : DspResults) : option DspResults :=
  let n := Len data in
  if decide (n <= 1)%nat then Some data else insertionSort data 0 n.

(** Before Go 1.19, [sort.Sort] on a slice of at most 12 entries is
    [quickSort] without its loop: for two entries or more, a pass with gap 6,
    [for i := a + 6; i < b; i++ { if data.Less(i, i-6) { data.Swap(i, i-6) } }],
    and then [insertionSort]. *)
Fixpoint gap6_pass (data : DspResults) (i iters : nat) : option DspResults :=
  match iters with
  | O => Some data
  | S iters' =>
      lt ← Less data i (i - 6);
      data' ← (if (lt : bool) then Swap data i (i - 6) else Some data);
      gap6_pass data' (S i) iters'
  end.

Definition sort_Sort_go118 (data : DspResults) : option DspResults :=
  let n := Len data in
  if decide (n <= 1)%nat then Some data
  else data' ← gap6_pass data 6 (n - 6); insertionSort data' 0 n.

(** How [HandlerAuction] ends: a winner is logged, or the handler panics on
    the index it reads. *)
Inductive Outcome :=
| Winner (w : DspResult)
| PanicIndex (i : Z) (len : nat)
| PanicInSort.

(** [sort.Sort(dspResults); winner := dspResults[len(dspResults)-1]]. *)
Definition pick_winner (dspResults : DspResults) : Outcome :=
  match sort_Sort dspResults with
  | Some sorted =>
      let i := Z.of_nat (length sorted) - 1 in
      if i <? 0 then PanicIndex i (length sorted)
      else match sorted !! Z.to_nat i with
           | Some w => Winner w
           | None => PanicIndex i (length sorted)
           end
  | None => PanicInSort
  end.

(** *** What the sort computes

    The slice is sorted from the left; the sorted prefix is written here in
    reverse, its last entry first.  [insr x r] is one pass of the inner loop:
    [x] moves left past every entry it is strictly below. *)
Fixpoint insr (x : DspResult) (r : list DspResult) : list DspResult :=
  match r with
  | [] => [x]
  | y :: r' => if F64.ltb (BidPrice x) (BidPrice y) then y :: insr x r' else x :: r
  end.

Definition isort (data : DspResults) : list DspResult :=
  fold_left (fun r x => insr x r) data [].

(** The last entry of the sorted slice as one pass over the arrivals: a later
    entry replaces the one kept unless it is strictly below it. *)
Definition later_max (w x : DspResult) : DspResult :=
  if F64.ltb (BidPrice x) (BidPrice w) then w else x.

Definition winner_of (data : DspResults) : option DspResult :=
  match data with
  | [] => None
  | x :: rest => Some (fold_left later_max rest x)
  end.

(** Read from its last entry, the sorted slice never goes up. *)
Definition not_above (a b : DspResult) : Prop := F64.leb (BidPrice b) (BidPrice a) = true.


(** A price decoded by [json.Unmarshal] is a finite float64: JSON has no
    text for NaN or an infinity, and a number out of range is an error. *)
Definition price_ok (r : DspResult) : Prop := F64.finite (BidPrice r) = true.

End Select.

(** ** One auction round *)

Module Round.
Import Bid Select.

(** What one bidder's exchange comes to inside [askDSP]: [client.Get] fails
    (no connection, or the 100 ms timeout), the body is not the JSON of a
    [Resp], or it decodes to [resp]. *)
Inductive Reply :=
| GetFailed
| BadBody
| Body (resp : Resp).

(** The goroutines of [HandlerAuction] and where each of them stands. *)
Inductive MainPC :=
| MSpawn (dspId : nat)   (* at the loop test, with the loop variable *)
| MWait                  (* wgDSP.Wait() *)
| MClose                 (* close(queue) *)
| MAllDone               (* <-allDone *)
| MSelect                (* the logging, sort.Sort and the winner *)
| MDone (o : Outcome).

Inductive CollectorPC :=
| CRange                 (* for dspRes := range queue *)
| CSignal                (* allDone <- struct{}{} *)
| CExit.

Inductive WorkerPC :=
| WAsk                   (* askDSP up to the decoded reply *)
| WSend (r : DspResult)  (* qDSPResults <- DspResult{...} *)
| WDefer                 (* return, running the deferred wg.Done() *)
| WExit
| WPanic.                (* a send on the closed queue, a negative counter *)

Record Worker := { innerDSPId : nat; wpc : WorkerPC }.

Record State := {
  floor : float64;
  main : MainPC;
  collector : CollectorPC;
  workers : list Worker;
  queue : list DspResult;        (* the buffer of [queue], capacity 1 *)
  queue_closed : bool;
  allDone : nat;                 (* the tokens buffered in [allDone], capacity 1 *)
  dspResults : DspResults;
  wgDSP : Z;
  calls : list string            (* the URLs given to [client.Get], in time order *)
}.

Definition queue_cap : nat := 1.
Definition allDone_cap : nat := 1.

Inductive Goroutine := GMain | GCollector | GWorker (k : nat).

Definition set_main (s : State) (pc : MainPC) : State :=
  {| floor := floor s; main := pc; collector := collector s; workers := workers s;
     queue := queue s; queue_closed := queue_closed s; allDone := allDone s;
     dspResults := dspResults s; wgDSP := wgDSP s; calls := calls s |}.

Definition set_worker (s : State) (k : nat) (w : Worker) : State :=
  {| floor := floor s; main := main s; collector := collector s;
     workers := <[k := w]> (workers s);
     queue := queue s; queue_closed := queue_closed s; allDone := allDone s;
     dspResults := dspResults s; wgDSP := wgDSP s; calls := calls s |}.

Section Steps.

(** The reply each bidder gives in this round. *)
Variable reply : nat -> Reply.

(** [HandlerAuction] itself. *)
Definition step_main (s : State) : option State :=
  match main s with
  | MSpawn dspId =>
      if decide (dspId < MaxDSP + 1)%nat then
        (* wgDSP.Add(1); go func(innerDSPId int) {...}(dspId); dspId++ *)
        Some {| floor := floor s; main := MSpawn (S dspId); collector := collector s;
                workers := workers s ++ [{| innerDSPId := dspId; wpc := WAsk |}];
                queue := queue s; queue_closed := queue_closed s; allDone := allDone s;
                dspResults := dspResults s; wgDSP := wgDSP s + 1; calls := calls s |}
      else Some (set_main s MWait)
  | MWait => if wgDSP s =? 0 then Some (set_main s MClose) else None
  | MClose =>
      Some {| floor := floor s; main := MAllDone; collector := collector s;
              workers := workers s; queue := queue s; queue_closed := true;
              allDone := allDone s; dspResults := dspResults s; wgDSP := wgDSP s;
              calls := calls s |}
  | MAllDone =>
      match allDone s with
      | O => None
      | S n =>
          Some {| floor := floor s; main := MSelect; collector := collector s;
                  workers := workers s; queue := queue s; queue_closed := queue_closed s;
                  allDone := n; dspResults := dspResults s; wgDSP := wgDSP s;
                  calls := calls s |}
      end
  | MSelect =>
      Some {| floor := floor s; main := MDone (pick_winner (dspResults s));
              collector := collector s; workers := workers s; queue := queue s;
              queue_closed := queue_closed s; allDone := allDone s;
              dspResults := default (dspResults s) (sort_Sort (dspResults s));
              wgDSP := wgDSP s; calls := calls s |}
  | MDone _ => None
  end.

(** The collecting goroutine started first in [HandlerAuction]. *)
Definition step_collector (s : State) : option State :=
  match collector s with
  | CRange =>
      match queue s with
      | dspRes :: rest =>
          Some {| floor := floor s; main := main s; collector := CRange;
                  workers := workers s; queue := rest; queue_closed := queue_closed s;
                  allDone := allDone s; dspResults := dspResults s ++ [dspRes];
                  wgDSP := wgDSP s; calls := calls s |}
      | [] =>
          if queue_closed s then
            Some {| floor := floor s; main := main s; collector := CSignal;
                    workers := workers s; queue := queue s; queue_closed := queue_closed s;
                    allDone := allDone s; dspResults := dspResults s;
                    wgDSP := wgDSP s; calls := calls s |}
          else None
      end
  | CSignal =>
      if decide (allDone s < allDone_cap)%nat then
        Some {| floor := floor s; main := main s; collector := CExit;
                workers := workers s; queue := queue s; queue_closed := queue_closed s;
                allDone := S (allDone s); dspResults := dspResults s;
                wgDSP := wgDSP s; calls := calls s |}
      else None
  | CExit => None
  end.

(** The goroutine of one bidder: the closure around [askDSP]. *)
Definition step_worker (k : nat) (s : State) : option State :=
  w ← workers s !! k;
  let dspId := innerDSPId w in
  match wpc w with
  | WAsk =>
      let bidURL := makeBidURL (floor s) dspId in
      let pc := match reply dspId with
                | GetFailed | BadBody => WDefer
                | Body resp => WSend {| DSPId := dspId; BidPrice := Price resp |}
                end in
      Some {| floor := floor s; main := main s; collector := collector s;
              workers := <[k := {| innerDSPId := dspId; wpc := pc |}]> (workers s);
              queue := queue s; queue_closed := queue_closed s; allDone := allDone s;
              dspResults := dspResults s; wgDSP := wgDSP s;
              calls := calls s ++ [bidURL] |}
  | WSend r =>
      if queue_closed s then Some (set_worker s k {| innerDSPId := dspId; wpc := WPanic |})
      else if decide (length (queue s) < queue_cap)%nat then
        Some {| floor := floor s; main := main s; collector := collector s;
                workers := <[k := {| innerDSPId := dspId; wpc := WDefer |}]> (workers s);
                queue := queue s ++ [r]; queue_closed := queue_closed s;
                allDone := allDone s; dspResults := dspResults s; wgDSP := wgDSP s;
                calls := calls s |}
      else None
  | WDefer =>
      if wgDSP s <=? 0 then Some (set_worker s k {| innerDSPId := dspId; wpc := WPanic |})
      else
        Some {| floor := floor s; main := main s; collector := collector s;
                workers := <[k := {| innerDSPId := dspId; wpc := WExit |}]> (workers s);
                queue := queue s; queue_closed := queue_closed s; allDone := allDone s;
                dspResults := dspResults s; wgDSP := wgDSP s - 1; calls := calls s |}
  | WExit | WPanic => None
  end.

(** One step of the goroutine [g]; [None] when it is blocked or has ended. *)
Definition step (g : Goroutine) (s : State) : option State :=
  match g with
  | GMain => step_main s
  | GCollector => step_collector s
  | GWorker k => step_worker k s
  end.

(** The state when the loop of [HandlerAuction] is reached: [rnd] is the
    value of [rand.Float64()], the collector has been started. *)
Definition init (rnd : float64) : State :=
  {| floor := F64.mul rnd (F64.of_Z 10); main := MSpawn 1; collector := CRange;
     workers := []; queue := []; queue_closed := false; allDone := 0;
     dspResults := []; wgDSP := 0; calls := [] |}.

(** Running a schedule: a goroutine that cannot move is skipped. *)
Fixpoint run (sched : list Goroutine) (s : State) : State :=
  match sched with
  | [] => s
  | g :: sched' => run sched' (default s (step g s))
  end.

(** The states an execution can pass through. *)
Inductive reachable (rnd : float64) : State -> Prop :=
| reach_init : reachable rnd (init rnd)
| reach_step s g s' : reachable rnd s -> step g s = Some s' -> reachable rnd s'.

(** Executions of a given length. *)
Inductive steps : nat -> State -> State -> Prop :=
| steps_O s : steps 0 s s
| steps_S n s g s' s'' : step g s = Some s' -> steps n s' s'' -> steps (S n) s s''.

Definition finished (s : State) : Prop :=
  match main s with MDone _ => True | _ => False end.

(** [wgDSP.Wait()] has returned. *)
Definition waited (s : State) : Prop :=
  match main s with MSpawn _ | MWait => False | _ => True end.

(** The results the bidders contribute in this round, by identity. *)
Definition result_of (dspId : nat) : list DspResult :=
  match reply dspId with
  | Body resp => [{| DSPId := dspId; BidPrice := Price resp |}]
  | _ => []
  end.

Definition respondents : list DspResult := flat_map result_of (seq 1 MaxDSP).

(** *** What each goroutine has done so far *)

(** The request a worker has issued. *)
Definition asked (fl : float64) (w : Worker) : list string :=
  match wpc w with
  | WAsk => []
  | _ => [makeBidURL fl (innerDSPId w)]
  end.

(** The result a worker has put on the queue. *)
Definition sent (w : Worker) : list DspResult :=
  match wpc w with
  | WDefer | WExit => result_of (innerDSPId w)
  | _ => []
  end.

(** Its share of the WaitGroup counter. *)
Definition live (w : Worker) : nat :=
  match wpc w with
  | WExit => 0
  | _ => 1
  end.

Definition worker_ok (w : Worker) : Prop :=
  match wpc w with
  | WPanic => False
  | WSend r => result_of (innerDSPId w) = [r]
  | _ => True
  end.

(** How the main goroutine, the collector and the two channels stand to
    each other. *)
Definition sync_ok (s : State) : Prop :=
  match main s with
  | MSpawn dspId =>
      dspId = S (length (workers s)) /\ (dspId <= S MaxDSP)%nat /\
      queue_closed s = false /\ collector s = CRange /\ allDone s = 0%nat
  | MWait =>
      length (workers s) = MaxDSP /\
      queue_closed s = false /\ collector s = CRange /\ allDone s = 0%nat
  | MClose =>
      length (workers s) = MaxDSP /\ wgDSP s = 0 /\
      queue_closed s = false /\ collector s = CRange /\ allDone s = 0%nat
  | MAllDone =>
      length (workers s) = MaxDSP /\ wgDSP s = 0 /\ queue_closed s = true /\
      match collector s with
      | CRange => allDone s = 0%nat
      | CSignal => queue s = [] /\ allDone s = 0%nat
      | CExit => queue s = [] /\ allDone s = 1%nat
      end
  | MSelect =>
      length (workers s) = MaxDSP /\ wgDSP s = 0 /\ queue_closed s = true /\
      collector s = CExit /\ queue s = [] /\ allDone s = 0%nat
  | MDone o =>
      length (workers s) = MaxDSP /\ wgDSP s = 0 /\ queue_closed s = true /\
      collector s = CExit /\ queue s = [] /\ allDone s = 0%nat /\
      exists arrived, arrived ≡ₚ dspResults s /\ o = pick_winner arrived
  end.

(** The invariant of a round drawn with [rnd]. *)
Record Inv (rnd : float64) (s : State) : Prop := {
  inv_floor : floor s = F64.mul rnd (F64.of_Z 10);
  inv_ids : map innerDSPId (workers s) = seq 1 (length (workers s));
  inv_workers : Forall worker_ok (workers s);
  inv_wg : wgDSP s = Z.of_nat (sum_list_with live (workers s));
  inv_calls : calls s ≡ₚ flat_map (asked (floor s)) (workers s);
  inv_results : dspResults s ++ queue s ≡ₚ flat_map sent (workers s);
  inv_queue : (length (queue s) <= queue_cap)%nat;
  inv_sync : sync_ok s
}.

(** *** A bound on what is left to do *)

Definition main_rank (pc : MainPC) : nat :=
  match pc with
  | MSpawn dspId => 5 + 5 * (S MaxDSP - dspId)
  | MWait => 4
  | MClose => 3
  | MAllDone => 2
  | MSelect => 1
  | MDone _ => 0
  end.

Definition collector_rank (pc : CollectorPC) : nat :=
  match pc with
  | CRange => 2
  | CSignal => 1
  | CExit => 0
  end.

Definition worker_rank (w : Worker) : nat :=
  match wpc w with
  | WAsk => 4
  | WSend _ => 3
  | WDefer => 1
  | WExit | WPanic => 0
  end.

Definition measure (s : State) : nat :=
  main_rank (main s) + collector_rank (collector s)
  + sum_list_with worker_rank (workers s) + length (queue s).

End Steps.

End Round.

(** ** A round served by the program itself *)

Module Loopback.
Import Strconv Url Bid Query Select Round.

(** [serverAddr] is the address the program itself listens on: the bidders
    of [HandlerAuction] are its own [HandlerBid].  [bid_reply] is what
    [askDSP] makes of one such exchange.  [in_time dspId] says whether the
    answer arrives within the timeout of the client; [rnd dspId] and
    [rndn dspId] are the values of [rand.Float64()] and [rand.Intn(9)] in the
    bid handler.  A body that is not the JSON of a [Resp] (the plain text of
    an error answer) fails in [json.Unmarshal]. *)
Definition bid_reply (floor : float64) (in_time : nat -> bool)
    (rnd : nat -> float64) (rndn : nat -> Z) (dspId : nat) : Reply :=
  if in_time dspId then
    match HandlerBid ParseFloat_plain (ParseQuery (query_of (makeBidURL floor dspId)))
            (rnd dspId) (rndn dspId) with
    | JSON _ body => Body body
    | Error _ _ => BadBody
    end
  else GetFailed.

End Loopback.

(** ** Sample rounds and requests *)

Module Examples.
Import Strconv Url Bid Select Round.

(** The float64 of a literal with two decimals, [cents / 100]. *)
Definition cents (c : Z) : float64 := F64.div (F64.of_Z c) (F64.of_Z 100).

Definition bid1_20 : DspResult := {| DSPId := 1; BidPrice := cents 2000 |}.
Definition bid2_20 : DspResult := {| DSPId := 2; BidPrice := cents 2000 |}.
Definition bid3_15 : DspResult := {| DSPId := 3; BidPrice := cents 1500 |}.

(** Seven entries: two at 20.00 first, four at 30.00, one at 15.00 last. *)
Definition bid_30 (dspId : nat) : DspResult := {| DSPId := dspId; BidPrice := cents 3000 |}.

Definition seven_entries : DspResults :=
  [bid1_20; bid2_20; bid_30 4; bid_30 5; bid_30 6; bid_30 7; bid3_15].

(** The query [dsp=...&p=...] of a bid request. *)
Definition req (dsp p : string) : Values := Add (Add ∅ "dsp" dsp) "p" p.

(** Two values of [rand.Float64()]: [2^-20] and the largest one,
    [1 - 2^-53]. *)
Definition rnd_small : float64 := S754_finite false 4503599627370496 (-72).
Definition rnd_top : float64 := S754_finite false 9007199254740991 (-53).


(** The literal of [10^307]. *)
Definition ten_pow_307 : string := String "1" (String.concat "" (replicate 307 "0")).

(** [rand.Float64()] returning 0.5: the floor of the round is 5. *)
Definition rnd_half : float64 := S754_finite false 4503599627370496 (-53).

(** 1/16 = 0.0625, halfway between 0.062 and 0.063. *)
Definition sixteenth : float64 := S754_finite false 4503599627370496 (-56).

(** Bidders 1, 2 and 3 answer 10.20, 15.70 and 12.10. *)
Definition reply_all (dspId : nat) : Reply :=
  match dspId with
  | 1%nat => Body {| Price := cents 1020 |}
  | 2%nat => Body {| Price := cents 1570 |}
  | 3%nat => Body {| Price := cents 1210 |}
  | _ => GetFailed
  end.

(** Bidder 2 times out, bidder 3 answers with a body that is not JSON. *)
Definition reply_one (dspId : nat) : Reply :=
  match dspId with
  | 1%nat => Body {| Price := cents 1020 |}
  | 2%nat => GetFailed
  | _ => BadBody
  end.

(** Bidders 1 and 2 both answer 20.00, bidder 3 answers 15.00. *)
Definition reply_tie (dspId : nat) : Reply :=
  match dspId with
  | 1%nat => Body {| Price := cents 2000 |}
  | 2%nat => Body {| Price := cents 2000 |}
  | 3%nat => Body {| Price := cents 1500 |}
  | _ => GetFailed
  end.

(** No bidder answers. *)
Definition reply_none (dspId : nat) : Reply := GetFailed.

(** 22 turns of every goroutine in a fixed order. *)
Definition round_robin : list Goroutine :=
  concat (replicate 22 [GMain; GCollector; GWorker 0; GWorker 1; GWorker 2]).

(** The same with the workers served last to first. *)
Definition round_robin_rev : list Goroutine :=
  concat (replicate 22 [GMain; GWorker 2; GWorker 1; GWorker 0; GCollector]).

(** All workers started, then the answer of bidder 2 is collected before
    any other worker moves. *)
Definition second_bidder_first : list Goroutine :=
  [GMain; GMain; GMain; GMain; GWorker 1; GWorker 1; GCollector] ++ round_robin.

(** The schedule in which the bidders of [order] are served one after the
    other, each answer collected before the next bidder is asked. *)
Definition one_by_one (order : list nat) : list Goroutine :=
  [GMain; GMain; GMain; GMain]
  ++ flat_map (fun dspId => [GWorker (dspId - 1); GWorker (dspId - 1); GCollector;
                             GWorker (dspId - 1)]) order
  ++ [GMain; GMain; GCollector; GCollector; GMain].

End Examples.

(** * Properties *)

(** ** The order of float64 values *)

Module F64Facts.

Ltac cmp_cases :=
  repeat match goal with
  | |- context [(?a ?= ?b)%Z] => destruct (Z.compare_spec a b)
  | H : context [(?a ?= ?b)%Z] |- _ => destruct (Z.compare_spec a b)
  | |- context [Pos.compare_cont Eq ?a ?b] =>
      change (Pos.compare_cont Eq a b) with (Pos.compare a b);
      destruct (Pos.compare_spec a b)
  | H : context [Pos.compare_cont Eq ?a ?b] |- _ =>
      change (Pos.compare_cont Eq a b) with (Pos.compare a b) in H;
      destruct (Pos.compare_spec a b)
  end.

Ltac by_cases x y :=
  unfold F64.ltb, F64.leb, F64.eqb, SFltb, SFleb, SFeqb;
  destruct x as [[]|[]| |[] ? ?], y as [[]|[]| |[] ? ?]; simpl;
  try (intros; congruence); cmp_cases; simpl; intros; try congruence; try lia.

Lemma finite_not_nan x : F64.finite x = true -> F64.is_nan x = false.
Proof. by destruct x. Qed.

Lemma leb_refl x : F64.is_nan x = false -> F64.leb x x = true.
Proof.
  unfold F64.leb, SFleb.
  destruct x as [[]|[]| |[] m e]; simpl; try congruence;
    rewrite Z.compare_refl; change (Pos.compare_cont Eq m m) with (Pos.compare m m);
    by rewrite Pos.compare_refl.
Qed.

Lemma leb_trans x y z :
  F64.leb x y = true -> F64.leb y z = true -> F64.leb x z = true.
Proof.
  unfold F64.leb, SFleb.
  destruct x as [[]|[]| |[] ? ?], y as [[]|[]| |[] ? ?], z as [[]|[]| |[] ? ?];
    simpl; try (intros; congruence); cmp_cases; simpl; congruence || lia.
Qed.

Lemma not_ltb_leb x y :
  F64.is_nan x = false -> F64.is_nan y = false ->
  F64.ltb x y = false -> F64.leb y x = true.
Proof. by_cases x y. Qed.

Lemma ltb_not_leb x y : F64.ltb x y = true -> F64.leb y x = false.
Proof. by_cases x y. Qed.

Lemma ltb_leb x y : F64.ltb x y = true -> F64.leb x y = true.
Proof. by_cases x y. Qed.

Lemma leb_antisym x y :
  F64.leb x y = true -> F64.leb y x = true -> F64.eqb x y = true.
Proof. by_cases x y. Qed.

Lemma leb_not_ltb x y : F64.leb x y = true -> F64.ltb y x = false.
Proof. by_cases x y. Qed.

Lemma not_leb_ltb x y :
  F64.is_nan x = false -> F64.is_nan y = false ->
  F64.leb x y = false -> F64.ltb y x = true.
Proof. by_cases x y. Qed.

Lemma digits2_size p : digits2_pos p = Pos.size p.
Proof. induction p; simpl; congruence. Qed.

Lemma iter_xO_mul k sh : Pos.iter xO k sh = (k * 2 ^ sh)%positive.
Proof.
  induction sh as [|sh IH] using Pos.peano_ind.
  - simpl. lia.
  - rewrite Pos.iter_succ, IH, Pos.pow_succ_r. lia.
Qed.

Lemma digits2_iter_xO k sh : digits2_pos (Pos.iter xO k sh) = (digits2_pos k + sh)%positive.
Proof.
  induction sh as [|sh IH] using Pos.peano_ind.
  - simpl. lia.
  - rewrite Pos.iter_succ. simpl. rewrite IH. lia.
Qed.


Lemma digits2_gt m : Zpos m < 2 ^ Zpos (digits2_pos m).
Proof. rewrite digits2_size, <- Pos2Z.inj_pow. pose proof (Pos.size_gt m). lia. Qed.



Lemma bounded_mantissa m e : bounded prec emax m e = true -> Zpos m < 2 ^ 53.
Proof.
  unfold bounded, canonical_mantissa. intros [Hc _]%andb_prop. apply Z.eqb_eq in Hc.
  pose proof (digits2_gt m) as Hm. unfold fexp, emin, prec, emax in Hc.
  eapply Z.lt_le_trans; [exact Hm|]. apply Z.pow_le_mono_r; lia.
Qed.


(** The number of binary digits, against the magnitude. *)
Lemma Zdigits2_upper z k : 0 <= z < 2 ^ k -> 0 <= k -> Zdigits2 z <= k.
Proof.
  intros [Hz Hlt] Hk. destruct z as [|p|p]; [done| |lia]. cbn [Zdigits2].
  rewrite digits2_size. pose proof (Pos.size_le p) as Hs.
  assert (2 ^ Zpos (Pos.size p) < 2 ^ (k + 1)) as Hp.
  { rewrite <- Pos2Z.inj_pow, Z.pow_add_r by lia. change (2 ^ 1) with 2. lia. }
  apply Z.pow_lt_mono_r_iff in Hp; lia.
Qed.

Lemma Zdigits2_lt z : 0 <= z -> z < 2 ^ Zdigits2 z.
Proof.
  intros Hz. destruct z as [|p|p]; [done| |lia]. cbn [Zdigits2]. apply digits2_gt.
Qed.

Lemma Zdigits2_nonneg z : 0 <= Zdigits2 z.
Proof. by destruct z. Qed.

Lemma iter_pos_shr_1 p mrs :
  0 <= shr_m mrs -> shr_m (SpecFloat.iter_pos shr_1 p mrs) = shr_m mrs / 2 ^ Zpos p.
Proof.
  assert (forall mrs, 0 <= shr_m mrs -> shr_m (shr_1 mrs) = shr_m mrs / 2) as H1.
  { intros [m r s] Hm. cbn in *. destruct m as [|[q|q|]|q]; cbn; try done; try lia.
    - apply Z.div_unique with 1; lia.
    - apply Z.div_unique with 0; lia. }
  revert mrs. induction p as [p IH|p IH|]; intros mrs Hm; cbn [SpecFloat.iter_pos].
  - assert (0 <= shr_m (shr_1 mrs)) as H0.
    { rewrite H1 by done. apply Z.div_pos; lia. }
    assert (0 <= shr_m (SpecFloat.iter_pos shr_1 p (shr_1 mrs))) as H2.
    { rewrite IH by done. apply Z.div_pos; lia. }
    rewrite IH, IH, H1 by done. rewrite !Z.div_div by lia.
    f_equal. replace (Zpos p~1) with (Zpos p + Zpos p + 1) by lia.
    rewrite !Z.pow_add_r by lia. ring.
  - assert (0 <= shr_m (SpecFloat.iter_pos shr_1 p mrs)) as H2.
    { rewrite IH by done. apply Z.div_pos; lia. }
    rewrite IH, IH by done. rewrite !Z.div_div by lia.
    f_equal. replace (Zpos p~0) with (Zpos p + Zpos p) by lia.
    rewrite !Z.pow_add_r by lia. ring.
  - rewrite H1 by done. done.
Qed.

Lemma Zdigits2_div z n :
  0 <= z -> 0 <= n -> Zdigits2 (z / 2 ^ n) <= Z.max 0 (Zdigits2 z - n).
Proof.
  intros Hz Hn. pose proof (Zdigits2_lt z Hz) as Hlt. pose proof (Zdigits2_nonneg z) as Hd.
  assert (0 < 2 ^ n) as Hp by (apply Z.pow_pos_nonneg; lia).
  destruct (Z.le_gt_cases (Zdigits2 z) n) as [Hsmall|Hbig].
  - rewrite Z.div_small; [cbn; lia|]. split; [done|].
    eapply Z.lt_le_trans; [exact Hlt|]. apply Z.pow_le_mono_r; lia.
  - etrans; [|apply Z.le_max_r]. apply Zdigits2_upper; [|lia]. split.
    + apply Z.div_pos; lia.
    + apply Z.div_lt_upper_bound; [done|]. rewrite <- Z.pow_add_r by lia.
      by replace (n + (Zdigits2 z - n)) with (Zdigits2 z) by lia.
Qed.

Lemma Zdigits2_succ z : 0 <= z -> Zdigits2 (z + 1) <= Zdigits2 z + 1.
Proof.
  intros Hz. pose proof (Zdigits2_lt z Hz) as Hlt. pose proof (Zdigits2_nonneg z) as Hd.
  apply Zdigits2_upper; [|lia]. rewrite Z.pow_add_r by lia. change (2 ^ 1) with 2. lia.
Qed.

Lemma Zdigits2_mul a b :
  0 <= a -> 0 <= b -> Zdigits2 (a * b) <= Zdigits2 a + Zdigits2 b.
Proof.
  intros Ha Hb. pose proof (Zdigits2_lt a Ha). pose proof (Zdigits2_lt b Hb).
  pose proof (Zdigits2_nonneg a). pose proof (Zdigits2_nonneg b).
  apply Zdigits2_upper; [|lia]. rewrite Z.pow_add_r by lia. nia.
Qed.

Lemma round_nearest_even_bounds m l :
  0 <= m -> m <= round_nearest_even m l <= m + 1.
Proof. intros Hm. destruct l as [|[]]; cbn; try lia. destruct (Z.even m); lia. Qed.




End F64Facts.

(** ** Writing and reading numbers *)

Module StrconvFacts.
Import Strconv Url Bid.

Lemma Encode_p_dsp a b :
  Encode (Add (Add ∅ "p" a) "dsp" b) = "dsp=" +:+ QueryEscape b +:+ "&p=" +:+ QueryEscape a.
Proof. vm_compute. reflexivity. Qed.

Lemma digit_cases (d : N) : (d < 10)%N ->
  d = 0%N \/ d = 1%N \/ d = 2%N \/ d = 3%N \/ d = 4%N \/ d = 5%N \/ d = 6%N \/ d = 7%N
  \/ d = 8%N \/ d = 9%N.
Proof. lia. Qed.

Lemma digit_val_char d : (d < 10)%N -> digit_val (digit_char d) = Some d.
Proof. intros H. destruct (digit_cases d H) as [->|[->|[->|[->|[->|[->|[->|[->|[->| ->]]]]]]]]]; reflexivity. Qed.

Lemma digit_char_not_dot d : (d < 10)%N -> Ascii.eqb (digit_char d) "."%char = false.
Proof. intros H. destruct (digit_cases d H) as [->|[->|[->|[->|[->|[->|[->|[->|[->| ->]]]]]]]]]; reflexivity. Qed.





Lemma mod10_lt n : (n mod 10 < 10)%N.
Proof. apply N.mod_lt. lia. Qed.






(** Reading back what was written. *)
Lemma read_FormatUint_loop fuel n acc :
  (n < 10 ^ N.of_nat (S fuel))%N ->
  exists k, forall mant nfrac sawdigits,
    read_decimal (FormatUint_loop fuel n acc) mant nfrac false sawdigits
    = read_decimal acc (mant * 10 ^ k + n)%N nfrac false true.
Proof.
  revert n acc. induction fuel as [|fuel IH]; intros n acc Hn.
  - exists 1%N. intros. cbn [FormatUint_loop read_decimal].
    change (10 ^ N.of_nat 1)%N with 10%N in Hn.
    rewrite N.mod_small by done.
    rewrite digit_char_not_dot, digit_val_char by done. f_equal. lia.
  - cbn [FormatUint_loop]. destruct (N.ltb_spec n 10) as [Hlt|Hge].
    + exists 1%N. intros. cbn [read_decimal]. rewrite N.mod_small by done.
      rewrite digit_char_not_dot, digit_val_char by done. f_equal. lia.
    + destruct (IH (n / 10)%N (String (digit_char (n mod 10)) acc)) as [k Hk].
      { apply N.Div0.div_lt_upper_bound. rewrite <- N.pow_succ_r'.
        by rewrite <- Nat2N.inj_succ. }
      exists (k + 1)%N. intros. rewrite Hk. cbn [read_decimal].
      rewrite digit_char_not_dot, digit_val_char by apply mod10_lt. f_equal.
      rewrite N.pow_add_r. pose proof (N.div_mod n 10). lia.
Qed.

Lemma read_FormatFrac k n acc mant nfrac :
  read_decimal (FormatFrac k n acc) mant nfrac true true
  = read_decimal acc (mant * 10 ^ N.of_nat k + n mod 10 ^ N.of_nat k)%N (nfrac + k)%nat true true.
Proof.
  revert n acc. induction k as [|k IH]; intros n acc.
  - cbn [FormatFrac]. change (10 ^ N.of_nat 0)%N with 1%N. rewrite N.mod_1_r.
    f_equal; lia.
  - cbn [FormatFrac]. rewrite IH. cbn [read_decimal].
    rewrite digit_char_not_dot, digit_val_char by apply mod10_lt.
    rewrite Nat2N.inj_succ, N.pow_succ_r'. f_equal; [|lia].
    rewrite (N.Div0.mod_mul_r n 10 (10 ^ N.of_nat k)). lia.
Qed.

Lemma pos_size_nat_bound p : (Npos p < 2 ^ N.of_nat (Pos.size_nat p))%N.
Proof.
  induction p as [p IH|p IH|]; cbn [Pos.size_nat]; [| |done];
    rewrite Nat2N.inj_succ, N.pow_succ_r'; lia.
Qed.

Lemma size_nat_bound n : (n < 10 ^ N.of_nat (S (N.size_nat n)))%N.
Proof.
  destruct n as [|p]; [done|]. cbn [N.size_nat].
  eapply N.lt_le_trans; [apply pos_size_nat_bound|].
  etrans; [apply (N.pow_le_mono_l 2 10); lia|].
  apply N.pow_le_mono_r; lia.
Qed.

Lemma read_FormatUint n acc :
  exists k, forall mant nfrac sawdigits,
    read_decimal (FormatUint_loop (N.size_nat n) n acc) mant nfrac false sawdigits
    = read_decimal acc (mant * 10 ^ k + n)%N nfrac false true.
Proof. apply read_FormatUint_loop, size_nat_bound. Qed.

Lemma app_FormatUint_loop fuel n acc t :
  FormatUint_loop fuel n acc +:+ t = FormatUint_loop fuel n (acc +:+ t).
Proof.
  revert n acc. induction fuel as [|fuel IH]; intros n acc; cbn [FormatUint_loop]; [done|].
  destruct (n <? 10)%N; [done|]. by rewrite IH.
Qed.

(** The text [fixed digs n] reads back as the digits of [n] with [digs] of
    them after the point. *)
Lemma read_fixed digs n :
  read_decimal (fixed (S digs) n) 0 0 false false = Some (n, S digs).
Proof.
  unfold fixed, FormatUint. rewrite app_FormatUint_loop. cbn [String.append].
  destruct (read_FormatUint (n / 10 ^ N.of_nat (S digs))
              (String "." (FormatFrac (S digs) n EmptyString))) as [k ->].
  cbn [read_decimal]. change (Ascii.eqb "." ".") with true. cbn match.
  rewrite read_FormatFrac. cbn [read_decimal]. f_equal. f_equal.
  pose proof (N.div_mod n (10 ^ N.of_nat (S digs))) as H.
  assert (10 ^ N.of_nat (S digs) <> 0)%N by (apply N.pow_nonzero; lia). lia.
Qed.





Lemma FormatFloat_f3_text x :
  F64.is_number x = true ->
  FormatFloat_f x 3 = (if F64.sign_of x then "-" else "") +:+ fixed 3 (thousandths x).
Proof. by destruct x. Qed.


Lemma FormatUint_loop_head fuel n acc :
  exists d rest, (d < 10)%N /\ FormatUint_loop fuel n acc = String (digit_char d) rest.
Proof.
  revert n acc. induction fuel as [|fuel IH]; intros n acc; cbn [FormatUint_loop].
  - exists (n mod 10)%N, acc. split; [apply mod10_lt|done].
  - destruct (n <? 10)%N; [|apply IH].
    exists (n mod 10)%N, acc. split; [apply mod10_lt|done].
Qed.

Lemma read_sign_digit d rest :
  (d < 10)%N -> read_sign (String (digit_char d) rest) = (false, String (digit_char d) rest).
Proof.
  intros H.
  destruct (digit_cases d H) as [->|[->|[->|[->|[->|[->|[->|[->|[->| ->]]]]]]]]]; reflexivity.
Qed.

Lemma read_sign_fixed (s : bool) digs n :
  read_sign ((if s then "-" else "") +:+ fixed digs n) = (s, fixed digs n).
Proof.
  destruct s; [done|]. cbn [String.append]. unfold fixed, FormatUint.
  rewrite app_FormatUint_loop.
  match goal with
  | |- context [FormatUint_loop ?f ?k ?a] =>
      destruct (FormatUint_loop_head f k a) as (d & rest & Hd & ->)
  end.
  by apply read_sign_digit.
Qed.


Lemma ParseFloat_plain_FormatFloat x :
  F64.is_number x = true -> ParseFloat_plain (FormatFloat_f x 3) = received x.
Proof.
  intros Hx. rewrite FormatFloat_f3_text by done. unfold ParseFloat_plain, received.
  rewrite read_sign_fixed, read_fixed. done.
Qed.


End StrconvFacts.

(** ** The bid handler *)

Module BidFacts.
Import Strconv Url Bid F64Facts StrconvFacts Examples.

Lemma ParseUint_loop_digits s n d : ParseUint_loop s n = inr d -> all_digits s = true.
Proof.
  revert n. induction s as [|c s IH]; intros n; cbn [ParseUint_loop all_digits]; [done|].
  destruct (digit_val c); [|done]. destruct (cutoff <=? n)%N; [done|].
  destruct (_ || _); [done|]. cbn. apply IH.
Qed.

(** What [ParseUint] accepts is a non-empty string of decimal digits. *)
Lemma ParseUint_digits s d : ParseUint s = inr d -> s <> EmptyString /\ all_digits s = true.
Proof.
  destruct s as [|c s]; [done|]. unfold ParseUint. intros H%ParseUint_loop_digits. done.
Qed.

Lemma Get_missing (vars : Values) key : vars !! key = None -> Get vars key = EmptyString.
Proof. unfold Get. by intros ->. Qed.

Lemma dsp_accepted_digits vars :
  dsp_accepted vars ->
  vars !! "dsp" <> None /\ Get vars "dsp" <> EmptyString /\ all_digits (Get vars "dsp") = true.
Proof.
  intros (d & Hd & _). apply ParseUint_digits in Hd as [Hne Hdig]. split_and!; [|done..].
  intros Hm. by apply Get_missing in Hm.
Qed.

(** A [dsp] that is missing, holds a byte that is not a digit, or denotes a
    value outside [1..MaxDSP] is not accepted. *)
Lemma dsp_rejected vars :
  vars !! "dsp" = None
  \/ all_digits (Get vars "dsp") = false
  \/ (exists dsp, ParseUint (Get vars "dsp") = inr dsp
                  /\ ((dsp < 1)%N \/ (N.of_nat MaxDSP < dsp)%N)) ->
  ~ dsp_accepted vars.
Proof.
  intros H Hacc. destruct (dsp_accepted_digits _ Hacc) as (Hm & _ & Hd).
  destruct H as [H|[H|(dsp & Hp & Hr)]]; [done|congruence|].
  destruct Hacc as (dsp' & Hp' & Hr'). rewrite Hp in Hp'. injection Hp' as <-. lia.
Qed.

Section AnyParseFloat.
Variable ParseFloat : string -> option float64.

Lemma HandlerBid_bad_dsp vars rnd rndn :
  ~ dsp_accepted vars ->
  HandlerBid ParseFloat vars rnd rndn = Error "bad dsp parameter" StatusBadRequest.
Proof.
  intros Hno. unfold HandlerBid. destruct (ParseUint (Get vars "dsp")) as [|dsp] eqn:E; [done|].
  destruct (N.ltb_spec (N.of_nat MaxDSP) dsp), (N.ltb_spec dsp 1); try done.
  exfalso. apply Hno. exists dsp. split; [done|lia].
Qed.

Lemma HandlerBid_accepted vars rnd rndn :
  dsp_accepted vars ->
  HandlerBid ParseFloat vars rnd rndn
  = match ParseFloat (Get vars "p") with
    | Some floor =>
        match Marshal {| Price := round2 (F64.add floor (F64.mul rnd (F64.of_Z 100))) |} with
        | inl err => Error err StatusInternalServerError
        | inr body => JSON (10 * (rndn + 1)) body
        end
    | None => Error "bad p parameter" StatusBadRequest
    end.
Proof.
  intros (dsp & Hd & Hr). unfold HandlerBid. rewrite Hd.
  destruct (N.ltb_spec (N.of_nat MaxDSP) dsp), (N.ltb_spec dsp 1); try lia. done.
Qed.

End AnyParseFloat.


(** The bound is reached: 0.0625 is sent as 0.062. *)
Lemma sixteenth_is_sent_as_62_thousandths :
  makeBidURL sixteenth 2 = "http://0:8080/bid?dsp=2&p=0.062"
  /\ (F64.to_Q sixteenth - (62 # 1000) == 1 # 2000)%Q.
Proof. split; [by vm_compute|]. by vm_compute. Qed.

End BidFacts.

(** ** The sort and the winner *)

Module SelectFacts.
Import Select F64Facts.

Lemma lookup_rev_app_mid (r rest : list DspResult) x :
  (rev r ++ x :: rest) !! length r = Some x.
Proof.
  rewrite lookup_app_r; rewrite length_rev; [|lia]. by rewrite Nat.sub_diag.
Qed.

Lemma lookup_rev_cons_last (r rest : list DspResult) y :
  (rev (y :: r) ++ rest) !! length r = Some y.
Proof.
  simpl. rewrite <- app_assoc. simpl. apply lookup_rev_app_mid.
Qed.

Lemma Swap_adjacent (r rest : list DspResult) x y :
  Swap (rev (y :: r) ++ x :: rest) (S (length r)) (length r)
  = Some (rev r ++ x :: y :: rest).
Proof.
  unfold Swap.
  replace (S (length r)) with (length (y :: r)) at 1 by done.
  rewrite lookup_rev_app_mid. simpl.
  pose proof (lookup_rev_cons_last r (x :: rest) y) as H. simpl in H. rewrite H. simpl.
  f_equal. rewrite <- !app_assoc. simpl.
  rewrite insert_app_r_alt; rewrite length_rev; [|lia].
  replace (S (length r) - length r)%nat with 1%nat by lia. simpl.
  rewrite insert_app_r_alt; rewrite length_rev; [|lia].
  by rewrite Nat.sub_diag.
Qed.

Lemma Less_adjacent (r rest : list DspResult) x y :
  Less (rev (y :: r) ++ x :: rest) (S (length r)) (length r)
  = Some (F64.ltb (BidPrice x) (BidPrice y)).
Proof.
  unfold Less.
  replace (S (length r)) with (length (y :: r)) at 1 by done.
  rewrite lookup_rev_app_mid. simpl.
  pose proof (lookup_rev_cons_last r (x :: rest) y) as H. simpl in H. by rewrite H.
Qed.

Lemma insertion_inner_spec r x rest :
  insertion_inner (rev r ++ x :: rest) 0 (length r) = Some (rev (insr x r) ++ rest).
Proof.
  revert rest. induction r as [|y r IH]; intros rest; [done|].
  cbn [length insertion_inner]. destruct (decide _) as [_|]; [|lia].
  rewrite Less_adjacent. cbn [mbind option_bind].
  destruct (F64.ltb (BidPrice x) (BidPrice y)) eqn:E.
  - rewrite Swap_adjacent. cbn [mbind option_bind]. rewrite IH.
    cbn [insr]. rewrite E. simpl. by rewrite <- app_assoc.
  - cbn [insr]. rewrite E. f_equal. change (x :: y :: r) with ([x] ++ y :: r).
    simpl. by rewrite <- !app_assoc.
Qed.

Lemma insertion_outer_spec rest r :
  insertion_outer (rev r ++ rest) 0 (length r) (length rest)
  = Some (rev (fold_left (fun r x => insr x r) rest r)).
Proof.
  revert r. induction rest as [|x rest IH]; intros r.
  - simpl. by rewrite app_nil_r.
  - cbn [length insertion_outer fold_left]. rewrite insertion_inner_spec.
    cbn [mbind option_bind].
    assert (length (insr x r) = S (length r)) as <-.
    { clear. induction r as [|y r IH]; simpl; [done|]. destruct (F64.ltb _ _); simpl; lia. }
    apply IH.
Qed.

Lemma sort_Sort_spec data : sort_Sort data = Some (rev (isort data)).
Proof.
  unfold sort_Sort, Len, isort. destruct (decide _) as [H|H].
  - destruct data as [|x [|y data]]; simpl in *; try done; lia.
  - destruct data as [|x data]; simpl in *; [lia|].
    unfold insertionSort. replace (S (length data) - 1)%nat with (length data) by lia.
    apply (insertion_outer_spec data [x]).
Qed.

Lemma insr_Permutation x r : insr x r ≡ₚ x :: r.
Proof.
  induction r as [|y r IH]; simpl; [done|].
  destruct (F64.ltb _ _); [|done]. rewrite IH. apply Permutation_swap.
Qed.

Lemma isort_Permutation data : isort data ≡ₚ data.
Proof.
  unfold isort. rewrite <- (app_nil_r data) at 2. generalize (@nil DspResult) as r.
  induction data as [|x data IH]; intros r; simpl; [done|].
  rewrite IH, insr_Permutation. by rewrite Permutation_middle.
Qed.

Lemma sort_Sort_Permutation data sorted : sort_Sort data = Some sorted -> sorted ≡ₚ data.
Proof.
  rewrite sort_Sort_spec. intros [= <-]. rewrite <- Permutation_rev. apply isort_Permutation.
Qed.

Lemma head_insr x r : head (insr x r) = Some (from_option (fun y => later_max y x) x (head r)).
Proof.
  destruct r as [|y r]; simpl; [done|]. unfold later_max. by destruct (F64.ltb _ _).
Qed.

Lemma head_isort data : head (isort data) = winner_of data.
Proof.
  destruct data as [|x data]; [done|]. unfold isort. cbn [fold_left winner_of insr].
  assert (head [x] = Some x) as H by done. revert H.
  generalize [x] as r. generalize x as w. clear x.
  induction data as [|y data IH]; intros w r H; simpl; [done|].
  apply IH. rewrite head_insr, H. done.
Qed.

Lemma pick_winner_spec data :
  pick_winner data = match winner_of data with
                     | Some w => Winner w
                     | None => PanicIndex (-1) 0
                     end.
Proof.
  unfold pick_winner. rewrite sort_Sort_spec, <- head_isort.
  destruct (isort data) as [|w l]; [done|].
  cbn [rev head]. rewrite length_app, length_rev. cbn [length].
  destruct (Z.ltb_spec (Z.of_nat (length l + 1) - 1) 0) as [|_]; [lia|].
  replace (Z.to_nat (Z.of_nat (length l + 1) - 1)) with (length (rev l)).
  2:{ rewrite length_rev. lia. }
  rewrite lookup_app_r by lia. by rewrite Nat.sub_diag.
Qed.

(** The entry the fold keeps is the last of the highest ones. *)
Lemma fold_later_max_split rest x :
  Forall price_ok (x :: rest) ->
  let w := fold_left later_max rest x in
  exists l1 l2, x :: rest = l1 ++ w :: l2
    /\ Forall (fun r => F64.leb (BidPrice r) (BidPrice w) = true) l1
    /\ Forall (fun r => F64.ltb (BidPrice r) (BidPrice w) = true) l2.
Proof.
  induction rest as [|y rest IH] using rev_ind; intros Hok w.
  - exists [], []. by repeat split.
  - subst w. rewrite fold_left_app. cbn [fold_left].
    rewrite app_comm_cons in Hok. apply Forall_app in Hok as [Hok Hy].
    destruct (IH Hok) as (l1 & l2 & Heq & H1 & H2).
    set (w := fold_left later_max rest x) in *.
    assert (price_ok w) as Hw.
    { rewrite Forall_forall in Hok. apply Hok. rewrite Heq. set_solver. }
    apply Forall_inv in Hy.
    unfold later_max. destruct (F64.ltb (BidPrice y) (BidPrice w)) eqn:E.
    + exists l1, (l2 ++ [y]). split_and!.
      * rewrite app_comm_cons, Heq. by rewrite <- app_assoc.
      * done.
      * apply Forall_app. split; [done|]. by constructor.
    + assert (F64.leb (BidPrice w) (BidPrice y) = true) as Hle.
      { apply not_ltb_leb; auto using finite_not_nan. }
      exists (l1 ++ w :: l2), []. split_and!.
      * rewrite app_comm_cons, Heq. by rewrite <- !app_assoc.
      * apply Forall_app. split; [|constructor].
        -- eapply Forall_impl; [exact H1|]. intros r Hr. simpl in Hr. eauto using leb_trans.
        -- exact Hle.
        -- eapply Forall_impl; [exact H2|]. intros r Hr. simpl in Hr.
           eauto using leb_trans, ltb_leb.
      * constructor.
Qed.

Lemma winner_of_Some data : data <> [] -> exists w, winner_of data = Some w.
Proof. destruct data; [done|]. simpl. eauto. Qed.

Lemma winner_of_split data w :
  Forall price_ok data -> winner_of data = Some w ->
  exists l1 l2, data = l1 ++ w :: l2
    /\ Forall (fun r => F64.leb (BidPrice r) (BidPrice w) = true) l1
    /\ Forall (fun r => F64.ltb (BidPrice r) (BidPrice w) = true) l2.
Proof.
  destruct data as [|x rest]; [done|]. intros Hok [= <-]. by apply fold_later_max_split.
Qed.

Lemma winner_of_max data w :
  Forall price_ok data -> winner_of data = Some w ->
  w ∈ data /\ forall r, r ∈ data -> F64.leb (BidPrice r) (BidPrice w) = true.
Proof.
  intros Hok Hw. destruct (winner_of_split _ _ Hok Hw) as (l1 & l2 & -> & H1 & H2).
  split; [set_solver|]. intros r Hr.
  rewrite Forall_forall in H1, H2, Hok.
  apply elem_of_app in Hr as [Hr|Hr]; [by apply H1|].
  apply elem_of_cons in Hr as [->|Hr]; [|by apply ltb_leb, H2].
  apply leb_refl, finite_not_nan, Hok. set_solver.
Qed.

Lemma insr_HdRel a x r :
  not_above a x -> HdRel not_above a r -> HdRel not_above a (insr x r).
Proof.
  intros Hx Hr. destruct r as [|y r]; cbn; [by constructor|].
  destruct (F64.ltb _ _); constructor; [|done]. by inversion Hr.
Qed.

Lemma insr_Sorted x r :
  price_ok x -> Forall price_ok r -> Sorted not_above r -> Sorted not_above (insr x r).
Proof.
  intros Hx Hok Hs. induction Hs as [|y r Hs IH Hhd]; cbn; [by repeat constructor|].
  apply Forall_cons in Hok as [Hy Hok].
  destruct (F64.ltb (BidPrice x) (BidPrice y)) eqn:E.
  - constructor; [by apply IH|]. apply insr_HdRel; [|done]. by apply ltb_leb.
  - constructor; [by constructor|]. constructor.
    apply not_ltb_leb; auto using finite_not_nan.
Qed.

Lemma isort_Sorted data : Forall price_ok data -> Sorted not_above (isort data).
Proof.
  unfold isort. intros Hok.
  assert (Forall price_ok [] /\ Sorted not_above []) as H by (split; constructor).
  revert H. generalize (@nil DspResult) as r.
  induction Hok as [|x data Hx Hok IH]; intros r [Hr Hs]; cbn; [done|].
  apply IH. split; [|by apply insr_Sorted].
  rewrite insr_Permutation. by constructor.
Qed.

(** The sort itself never indexes outside the slice. *)
Lemma pick_winner_no_sort_panic data : pick_winner data <> PanicInSort.
Proof. rewrite pick_winner_spec. by destruct (winner_of data). Qed.

End SelectFacts.

(** ** The interleavings of a round *)

Module RoundFacts.
Import Bid Select Round SelectFacts.

(** Closes a goal about [sync_ok] once the program counters are known. *)
Ltac sync_solve :=
  repeat match goal with
         | H : _ /\ _ |- _ => destruct H
         | H : exists _, _ |- _ => destruct H
         end;
  subst; cbn in *; try done; try congruence;
  repeat split; try done; try congruence; try lia; eauto.

Section Facts.
Variable reply : nat -> Reply.
Variable rnd : float64.

Lemma workers_split (ws : list Worker) k w :
  ws !! k = Some w ->
  exists l1 l2, ws = l1 ++ w :: l2 /\ forall w', <[k := w']> ws = l1 ++ w' :: l2.
Proof.
  intros H. exists (take k ws), (drop (S k) ws). split.
  - by rewrite take_drop_middle.
  - intros w'. apply insert_take_drop. by eapply lookup_lt_Some.
Qed.

Lemma measure_step g s s' : step reply g s = Some s' -> (measure s' < measure s)%nat.
Proof.
  destruct g as [| |k]; cbn [step].
  - unfold step_main, measure. destruct (main s) eqn:E; simplify_eq/=; try done.
    + destruct (decide _); intros [= <-]; cbn; rewrite ?E; cbn.
      * rewrite sum_list_with_app. cbn. unfold MaxDSP in *. lia.
      * unfold MaxDSP in *. lia.
    + destruct (wgDSP s =? 0); intros [= <-]; cbn. rewrite ?E; cbn. lia.
    + intros [= <-]; cbn. lia.
    + destruct (allDone s); intros [= <-]; cbn. lia.
    + intros [= <-]; cbn. lia.
  - unfold step_collector, measure. destruct (collector s) eqn:E; try done.
    + destruct (queue s) eqn:Q.
      * destruct (queue_closed s); intros [= <-]; cbn. rewrite ?Q. cbn. lia.
      * intros [= <-]; cbn. lia.
    + destruct (decide _); intros [= <-]; cbn. lia.
  - unfold step_worker, measure. destruct (workers s !! k) as [w|] eqn:Hk; [|done].
    cbn [mbind option_bind].
    destruct (workers_split _ _ _ Hk) as (l1 & l2 & Hws & Hins).
    destruct w as [i pc]. cbn [wpc innerDSPId].
    destruct pc; try done.
    + intros [= <-]; cbn. rewrite Hins, Hws, !sum_list_with_app. cbn.
      destruct (reply i); cbn; lia.
    + destruct (queue_closed s); [|destruct (decide _); [|done]]; intros [= <-]; cbn;
       rewrite Hins, Hws, !sum_list_with_app, ?length_app; cbn; lia.
    + destruct (wgDSP s <=? 0); intros [= <-]; cbn;
       rewrite Hins, Hws, !sum_list_with_app, ?length_app; cbn; lia.
Qed.

Lemma Inv_init : Inv reply rnd (init rnd).
Proof. split; cbn; try done. all: unfold queue_cap, sync_ok; cbn; repeat split; unfold MaxDSP; lia. Qed.

Lemma sum_live_split (l1 l2 : list Worker) w :
  sum_list_with live (l1 ++ w :: l2)
  = (sum_list_with live l1 + live w + sum_list_with live l2)%nat.
Proof. rewrite sum_list_with_app. cbn. lia. Qed.

Lemma Inv_step_worker k s s' :
  Inv reply rnd s -> step_worker reply k s = Some s' -> Inv reply rnd s'.
Proof.
  intros [Hfl Hids Hok Hwg Hcalls Hres Hq Hsync]. unfold step_worker.
  destruct (workers s !! k) as [w|] eqn:Hk; [|done]. cbn [mbind option_bind].
  destruct (workers_split _ _ _ Hk) as (l1 & l2 & Hws & Hins).
  destruct s as [fl mn co ws q cl ad dr wg cs]. cbn in *. subst ws.
  rewrite sum_live_split in Hwg.
  rewrite flat_map_app in Hcalls, Hres. cbn [flat_map] in Hcalls, Hres.
  apply Forall_app in Hok as [Hok1 Hok]. apply Forall_cons in Hok as [Hw Hok2].
  rewrite map_app, length_app in Hids. cbn [map length] in Hids.
  destruct w as [i pc]. unfold worker_ok in Hw. cbn in Hw, Hwg, Hcalls, Hres, Hids.
  assert (forall pc', pc <> WExit ->
            sync_ok {| floor := fl; main := mn; collector := co;
                       workers := l1 ++ {| innerDSPId := i; wpc := pc' |} :: l2;
                       queue := q; queue_closed := cl; allDone := ad;
                       dspResults := dr; wgDSP := wg; calls := cs |} ->
            cl = false /\ 0 < wg /\
            forall q' wg', sync_ok {| floor := fl; main := mn; collector := co;
                       workers := l1 ++ {| innerDSPId := i; wpc := pc' |} :: l2;
                       queue := q'; queue_closed := cl; allDone := ad;
                       dspResults := dr; wgDSP := wg'; calls := cs |}) as Hphase.
  { intros pc' Hpc Hs. assert (0 < wg) as Hpos.
    { unfold live in Hwg. cbn in Hwg. destruct pc; try done; lia. }
    unfold sync_ok in *. cbn in *. destruct mn; try (exfalso; lia); sync_solve. }
  assert (forall pc', sync_ok {| floor := fl; main := mn; collector := co;
                       workers := l1 ++ {| innerDSPId := i; wpc := pc' |} :: l2;
                       queue := q; queue_closed := cl; allDone := ad;
                       dspResults := dr; wgDSP := wg; calls := cs |}) as Hsync'.
  { intros pc'. unfold sync_ok in *. cbn in *. rewrite !length_app in *. cbn in *. done. }
  destruct pc; cbn; try done.
  - (* the request and its reply *)
    intros [= <-]. rewrite Hins.
    destruct (reply i) eqn:Hr;
      (split; cbn; rewrite ?map_app, ?length_app, ?flat_map_app, ?sum_live_split; cbn; try done).
    all: try (apply Forall_app; split; [done|]; apply Forall_cons; split; [|done];
         unfold worker_ok, result_of; cbn; by rewrite ?Hr).
    all: try (rewrite Hcalls; unfold asked at 3; cbn; solve_Permutation).
    all: try (rewrite Hres; unfold sent at 3, result_of; cbn; by rewrite ?Hr).
    all: exact (Hsync' _).
  - (* the send *)
    destruct (Hphase (WSend r) ltac:(done) (Hsync' _)) as (-> & Hpos & Hph).
    destruct (decide _) as [Hroom|]; [|done]. intros [= <-]. rewrite Hins.
    split; cbn; rewrite ?map_app, ?length_app, ?flat_map_app, ?sum_live_split; cbn; try done.
    + apply Forall_app. split; [done|]. by apply Forall_cons.
    + unfold sent at 2. cbn. rewrite Hw. rewrite app_assoc, Hres. solve_Permutation.
    + unfold queue_cap in *. lia.
    + destruct (Hphase WDefer ltac:(done) (Hsync' _)) as (_ & _ & Hph'). apply Hph'.
  - (* the deferred Done *)
    destruct (Hphase WDefer ltac:(done) (Hsync' _)) as (-> & Hpos & Hph).
    destruct (Z.leb_spec wg 0) as [|_]; [lia|]. intros [= <-]. rewrite Hins.
    split; cbn; rewrite ?map_app, ?length_app, ?flat_map_app, ?sum_live_split; cbn; try done.
    + apply Forall_app. split; [done|]. by apply Forall_cons.
    + rewrite Hwg. unfold live. cbn. lia.
    + destruct (Hphase WExit ltac:(done) (Hsync' _)) as (_ & _ & Hph'). apply Hph'.
Qed.

Lemma Inv_step_main s s' :
  Inv reply rnd s -> step_main s = Some s' -> Inv reply rnd s'.
Proof.
  intros [Hfl Hids Hok Hwg Hcalls Hres Hq Hsync]. unfold step_main.
  destruct s as [fl mn co ws q cl ad dr wg cs]. unfold sync_ok in Hsync. cbn in *.
  destruct mn as [d| | | | |o].
  - destruct Hsync as (-> & Hd & -> & -> & ->). destruct (decide _) as [Hlt|Hge]; intros [= <-].
    + split; cbn; rewrite ?map_app, ?length_app, ?flat_map_app, ?sum_list_with_app,
        ?app_nil_r; cbn; try done.
      * rewrite Hids. replace (length ws + 1)%nat with (S (length ws)) by lia.
        by rewrite seq_S.
      * apply Forall_app. split; [done|]. by apply Forall_cons.
      * lia.
      * unfold sync_ok. cbn. rewrite ?length_app. cbn. unfold MaxDSP in *. repeat split; lia.
    + split; cbn; try done. unfold sync_ok. cbn. unfold MaxDSP in *. repeat split; lia.
  - destruct (Z.eqb_spec wg 0) as [Hz|]; [|done]. intros [= <-].
    split; cbn; try done. unfold sync_ok. cbn. sync_solve.
  - intros [= <-]. split; cbn; try done. unfold sync_ok. cbn. sync_solve.
  - destruct ad as [|n]; [done|]. intros [= <-]. split; cbn; try done.
    unfold sync_ok. cbn. destruct co; sync_solve.
  - intros [= <-].
    assert (default dr (sort_Sort dr) ≡ₚ dr) as Hperm.
    { destruct (sort_Sort dr) eqn:E; [|done]. by apply sort_Sort_Permutation. }
    split; cbn; try done.
    + by rewrite Hperm.
    + unfold sync_ok. cbn. destruct Hsync as (? & ? & ? & ? & ? & ?).
      repeat split; try done. exists dr. by split.
  - done.
Qed.

Lemma Inv_step_collector s s' :
  Inv reply rnd s -> step_collector s = Some s' -> Inv reply rnd s'.
Proof.
  intros [Hfl Hids Hok Hwg Hcalls Hres Hq Hsync]. unfold step_collector.
  destruct s as [fl mn co ws q cl ad dr wg cs]. unfold sync_ok in Hsync. cbn in *.
  destruct co.
  - destruct q as [|r q].
    + destruct cl; [|done]. intros [= <-]. split; cbn; try done.
      unfold sync_ok. cbn. destruct mn; sync_solve.
    + intros [= <-]. split; cbn; try done.
      * rewrite <- Hres. solve_Permutation.
      * cbn in Hq. lia.
      * unfold sync_ok. cbn. destruct mn; sync_solve.
  - destruct (decide _) as [Hlt|]; [|done]. intros [= <-]. split; cbn; try done.
    unfold sync_ok. cbn. destruct mn; sync_solve.
  - done.
Qed.

Lemma Inv_step g s s' : Inv reply rnd s -> step reply g s = Some s' -> Inv reply rnd s'.
Proof.
  destruct g; cbn [step];
    eauto using Inv_step_main, Inv_step_collector, Inv_step_worker.
Qed.

Lemma reachable_Inv s : reachable reply rnd s -> Inv reply rnd s.
Proof. induction 1; eauto using Inv_init, Inv_step. Qed.

Lemma steps_measure n s s' : steps reply n s s' -> (n + measure s' <= measure s)%nat.
Proof.
  induction 1 as [|n s g s1 s2 Hstep _ IH]; [lia|].
  apply measure_step in Hstep. lia.
Qed.

Lemma steps_reachable n s s' :
  reachable reply rnd s -> steps reply n s s' -> reachable reply rnd s'.
Proof. intros Hs H. induction H; eauto using reachable. Qed.

Lemma reachable_steps s : reachable reply rnd s -> exists n, steps reply n (init rnd) s.
Proof.
  induction 1 as [|s g s' _ [n IH] Hstep]; [exists 0%nat; constructor|].
  exists (S n). clear -IH Hstep. induction IH; eauto using steps.
Qed.

Lemma exists_live (ws : list Worker) :
  sum_list_with live ws <> 0%nat -> exists k w, ws !! k = Some w /\ wpc w <> WExit.
Proof.
  induction ws as [|w ws IH]; cbn; [done|]. intros H.
  destruct (wpc w) eqn:Hw; try (exists 0%nat, w; split; [done|congruence]).
  unfold live in H. rewrite Hw in H. destruct (IH H) as (k & w' & ? & ?).
  by exists (S k), w'.
Qed.

Lemma Inv_progress s :
  Inv reply rnd s -> finished s \/ exists g s', step reply g s = Some s'.
Proof.
  intros [Hfl Hids Hok Hwg Hcalls Hres Hq Hsync].
  destruct s as [fl mn co ws q cl ad dr wg cs]. unfold sync_ok, finished in *. cbn in *.
  destruct mn as [d| | | | |o]; [| | | | |by left]; right.
  - exists GMain. cbn. unfold step_main. cbn. destruct (decide _); eauto.
  - destruct Hsync as (Hlen & -> & -> & ->).
    destruct (Z.eqb_spec wg 0) as [Hz|Hnz].
    { exists GMain. cbn. unfold step_main. cbn. rewrite Hz. eauto. }
    destruct (exists_live ws) as (k & [i pc] & Hk & Hpc); [lia|]. cbn in Hpc.
    rewrite Forall_forall in Hok. pose proof (Hok _ (list_elem_of_lookup_2 _ _ _ Hk)) as Hw.
    unfold worker_ok in Hw. cbn in Hw.
    destruct pc; try done.
    + exists (GWorker k). cbn. unfold step_worker. cbn. rewrite Hk. cbn. eauto.
    + destruct q as [|r' q].
      * exists (GWorker k). cbn. unfold step_worker. cbn. rewrite Hk. cbn.
        destruct (decide _) as [|Hn]; eauto. unfold queue_cap in Hn. lia.
      * exists GCollector. cbn. unfold step_collector. cbn. eauto.
    + exists (GWorker k). cbn. unfold step_worker. cbn. rewrite Hk. cbn.
      destruct (wg <=? 0); eauto.
  - exists GMain. cbn. unfold step_main. cbn. eauto.
  - destruct Hsync as (Hlen & -> & -> & Hco). destruct co.
    + exists GCollector. cbn. unfold step_collector. cbn. destruct q; eauto.
    + destruct Hco as [-> ->]. exists GCollector. cbn. unfold step_collector. cbn.
      destruct (decide _) as [|Hn]; eauto. unfold allDone_cap in Hn. lia.
    + destruct Hco as [-> ->]. exists GMain. cbn. unfold step_main. cbn. eauto.
  - exists GMain. cbn. unfold step_main. cbn. eauto.
Qed.

(** Every round can be run to its end. *)
Lemma Inv_terminates s :
  Inv reply rnd s -> exists n s', steps reply n s s' /\ finished s'.
Proof.
  remember (measure s) as m eqn:Hm. revert s Hm.
  induction m as [m IH] using lt_wf_ind. intros s -> HI.
  destruct (Inv_progress s HI) as [Hfin|(g & s1 & Hstep)].
  - exists 0%nat, s. split; [constructor|done].
  - destruct (IH (measure s1) (measure_step _ _ _ Hstep) s1 eq_refl) as (n & s' & Hn & Hfin).
    { by eapply Inv_step. }
    exists (S n), s'. split; [|done]. by econstructor.
Qed.

(** Once the counter is back at zero every worker has returned. *)
Lemma all_exited (ws : list Worker) :
  sum_list_with live ws = 0%nat -> Forall (fun w => wpc w = WExit) ws.
Proof.
  induction ws as [|w ws IH]; cbn; [constructor|]. intros H.
  constructor; [|apply IH; lia]. unfold live in H. destruct (wpc w); try done; lia.
Qed.

Lemma asked_exited fl (ws : list Worker) :
  Forall (fun w => wpc w = WExit) ws ->
  flat_map (asked fl) ws = map (makeBidURL fl) (map innerDSPId ws).
Proof.
  induction 1 as [|w ws Hw _ IH]; cbn; [done|]. unfold asked at 1. rewrite Hw. cbn.
  by rewrite IH.
Qed.

Lemma sent_exited (ws : list Worker) :
  Forall (fun w => wpc w = WExit) ws ->
  flat_map (sent reply) ws = flat_map (result_of reply) (map innerDSPId ws).
Proof.
  induction 1 as [|w ws Hw _ IH]; cbn; [done|]. unfold sent at 1. rewrite Hw.
  by rewrite IH.
Qed.

Lemma asked_submseteq fl (ws : list Worker) :
  flat_map (asked fl) ws ⊆+ map (makeBidURL fl) (map innerDSPId ws).
Proof.
  induction ws as [|w ws IH]; cbn; [done|]. unfold asked at 1.
  destruct (wpc w); cbn; by constructor.
Qed.

Lemma sent_submseteq (ws : list Worker) :
  flat_map (sent reply) ws ⊆+ flat_map (result_of reply) (map innerDSPId ws).
Proof.
  induction ws as [|w ws IH]; cbn; [done|]. unfold sent at 1.
  destruct (wpc w); cbn; try by apply submseteq_skips_l.
  all: by apply submseteq_inserts_l.
Qed.

Lemma seq_prefix_submseteq n m : (n <= m)%nat -> seq 1 n ⊆+ seq 1 m.
Proof.
  intros H. replace m with (n + (m - n))%nat by lia. rewrite seq_app.
  by apply submseteq_inserts_r.
Qed.

Lemma Inv_length_workers s : Inv reply rnd s -> (length (workers s) <= MaxDSP)%nat.
Proof.
  intros [_ _ _ _ _ _ _ Hsync]. unfold sync_ok in Hsync.
  destruct (main s); destruct_and?; lia.
Qed.

Lemma Inv_calls_submseteq s :
  Inv reply rnd s -> calls s ⊆+ map (makeBidURL (floor s)) (seq 1 MaxDSP).
Proof.
  intros HI. pose proof (Inv_length_workers s HI) as Hlen. destruct HI.
  rewrite inv_calls0. etrans; [apply asked_submseteq|].
  rewrite inv_ids0. apply (fmap_submseteq (makeBidURL (floor s))).
  by apply seq_prefix_submseteq.
Qed.

Lemma Inv_results_submseteq s :
  Inv reply rnd s -> dspResults s ++ queue s ⊆+ respondents reply.
Proof.
  intros HI. pose proof (Inv_length_workers s HI) as Hlen. destruct HI.
  rewrite inv_results0. etrans; [apply sent_submseteq|].
  rewrite inv_ids0. unfold respondents.
  apply (bind_submseteq (result_of reply)). by apply seq_prefix_submseteq.
Qed.

(** After [wgDSP.Wait()] has returned. *)
Lemma Inv_after_wait s :
  Inv reply rnd s -> wgDSP s = 0 -> length (workers s) = MaxDSP ->
  calls s ≡ₚ map (makeBidURL (floor s)) (seq 1 MaxDSP)
  /\ dspResults s ++ queue s ≡ₚ respondents reply.
Proof.
  intros [] Hwg Hlen. assert (Forall (fun w => wpc w = WExit) (workers s)) as Hex.
  { apply all_exited. lia. }
  rewrite inv_calls0, inv_results0, asked_exited, sent_exited by done.
  by rewrite inv_ids0, Hlen.
Qed.

Lemma Inv_finished s o :
  Inv reply rnd s -> main s = MDone o ->
  calls s ≡ₚ map (makeBidURL (floor s)) (seq 1 MaxDSP)
  /\ dspResults s ≡ₚ respondents reply
  /\ exists arrived, arrived ≡ₚ respondents reply /\ o = pick_winner arrived.
Proof.
  intros HI Hm. pose proof (inv_sync _ _ _ HI) as Hsync. unfold sync_ok in Hsync.
  rewrite Hm in Hsync. destruct Hsync as (Hlen & Hwg & _ & _ & Hq & _ & arrived & Harr & ->).
  destruct (Inv_after_wait s HI Hwg Hlen) as [Hc Hr]. rewrite Hq, app_nil_r in Hr.
  split_and!; [done..|]. exists arrived. split; [by etrans|done].
Qed.

Lemma run_reachable sched s :
  reachable reply rnd s -> reachable reply rnd (run reply sched s).
Proof.
  revert s. induction sched as [|g sched IH]; intros s Hs; cbn; [done|].
  apply IH. destruct (step reply g s) eqn:E; cbn; eauto using reachable.
Qed.

Lemma run_app sched1 sched2 s :
  run reply (sched1 ++ sched2) s = run reply sched2 (run reply sched1 s).
Proof. revert s. induction sched1 as [|g sched1 IH]; intros s; cbn; [done|]. apply IH. Qed.

(** The reachable states are the states the schedules lead to. *)
Lemma reachable_run s :
  reachable reply rnd s <-> exists sched, s = run reply sched (init rnd).
Proof.
  split.
  - induction 1 as [|s g s' _ [sched ->] Hstep]; [by exists []|].
    exists (sched ++ [g]). rewrite run_app. cbn. by rewrite Hstep.
  - intros [sched ->]. apply run_reachable, reach_init.
Qed.

Lemma respondents_ids l : map DSPId (flat_map (result_of reply) l) ⊆+ l.
Proof.
  induction l as [|i l IH]; cbn; [done|]. rewrite map_app. unfold result_of at 1.
  destruct (reply i); cbn; by constructor.
Qed.

Lemma elem_of_respondents r :
  r ∈ respondents reply ->
  (1 <= DSPId r <= MaxDSP)%nat /\ reply (DSPId r) = Body {| Price := BidPrice r |}.
Proof.
  unfold respondents. rewrite list_elem_of_In, in_flat_map.
  intros (i & Hi & Hr). apply in_seq in Hi. unfold result_of in Hr.
  destruct (reply i) as [| |[p]] eqn:E; try done. cbn in Hr. destruct Hr as [<-|[]].
  cbn. split; [lia|done].
Qed.

Lemma submseteq_NoDup {A} (l k : list A) : l ⊆+ k -> NoDup k -> NoDup l.
Proof.
  intros Hsub Hk. apply submseteq_Permutation in Hsub as [k' Hk'].
  rewrite Hk' in Hk. by apply NoDup_app in Hk as [? _].
Qed.

Lemma reachable_ids s :
  reachable reply rnd s -> map DSPId (dspResults s) ⊆+ seq 1 MaxDSP.
Proof.
  intros Hs%reachable_Inv%Inv_results_submseteq.
  etrans; [|apply respondents_ids].
  apply (fmap_submseteq DSPId). etrans; [|exact Hs]. by apply submseteq_inserts_r.
Qed.

Lemma reachable_no_panic s :
  reachable reply rnd s -> Forall (fun w => wpc w <> WPanic) (workers s).
Proof.
  intros [_ _ Hok _ _ _ _ _]%reachable_Inv. eapply Forall_impl; [exact Hok|].
  intros w Hw. unfold worker_ok in Hw. by destruct (wpc w).
Qed.

Lemma measure_init : measure (init rnd) = 22%nat.
Proof. reflexivity. Qed.

End Facts.

End RoundFacts.

(** ** Reading a query back *)

Module QueryFacts.
Import Strconv Url Bid Query F64Facts StrconvFacts BidFacts.

Ltac each_byte c :=
  destruct c as [[] [] [] [] [] [] [] []].

Lemma QueryUnescape_step c s :
  QueryUnescape (QueryEscape (String c s))
  = t ← QueryUnescape (QueryEscape s); Some (String c t).
Proof. each_byte c; reflexivity. Qed.

(** [url.QueryUnescape] undoes [url.QueryEscape]. *)
Lemma QueryUnescape_QueryEscape s : QueryUnescape (QueryEscape s) = Some s.
Proof.
  induction s as [|c s IH]; [done|]. rewrite QueryUnescape_step, IH. done.
Qed.

Lemma separator_cases sep :
  separator sep = true -> sep = "&"%char \/ sep = "="%char \/ sep = ";"%char
                          \/ sep = "#"%char \/ sep = "?"%char.
Proof.
  unfold separator. intros H. repeat (apply orb_prop in H as [H|H]);
    apply Ascii.eqb_eq in H; auto 6.
Qed.

Lemma Contains_escape_step sep c s :
  separator sep = true ->
  Contains sep (QueryEscape (String c s)) = Contains sep (QueryEscape s).
Proof.
  intros [->|[->|[->|[->| ->]]]]%separator_cases; each_byte c; reflexivity.
Qed.

(** [url.QueryEscape] writes no separator. *)
Lemma Contains_QueryEscape sep s : separator sep = true -> Contains sep (QueryEscape s) = false.
Proof.
  intros Hsep. induction s as [|c s IH]; [done|]. by rewrite Contains_escape_step.
Qed.

Lemma Contains_app c s t : Contains c (s +:+ t) = Contains c s || Contains c t.
Proof.
  induction s as [|c' s IH]; [done|].
  change (String c' s +:+ t) with (String c' (s +:+ t)). cbn [Contains].
  rewrite IH. by rewrite orb_assoc.
Qed.

Lemma Contains_cons sep c s :
  Contains sep (String c s) = false -> Ascii.eqb c sep = false /\ Contains sep s = false.
Proof. cbn [Contains]. by intros ?%orb_false_elim. Qed.

Lemma split_on_app sep s t :
  Contains sep s = false -> split_on sep (s +:+ String sep t) = s :: split_on sep t.
Proof.
  induction s as [|c s IH].
  - intros _. simpl. by rewrite Ascii.eqb_refl.
  - intros [Hc Hs]%Contains_cons. simpl. rewrite Hc, IH by done. done.
Qed.

Lemma split_on_last sep s : Contains sep s = false -> split_on sep s = [s].
Proof.
  induction s as [|c s IH]; [done|]. intros [Hc Hs]%Contains_cons.
  simpl. rewrite Hc, IH by done. done.
Qed.

Lemma Cut_app sep s t : Contains sep s = false -> Cut sep (s +:+ String sep t) = (s, t).
Proof.
  induction s as [|c s IH].
  - intros _. simpl. by rewrite Ascii.eqb_refl.
  - intros [Hc Hs]%Contains_cons. simpl. rewrite Hc, IH by done. done.
Qed.

Lemma Cut_none sep s : Contains sep s = false -> Cut sep s = (s, EmptyString).
Proof.
  induction s as [|c s IH]; [done|]. intros [Hc Hs]%Contains_cons.
  simpl. rewrite Hc, IH by done. done.
Qed.

(** One [key=value] piece, written by [Values.Encode], is read back as the
    pair it was written from. *)
Lemma parse_pair_escaped (m : Values) key value :
  parse_pair m (QueryEscape key +:+ String "=" (QueryEscape value)) = Add m key value.
Proof.
  unfold parse_pair.
  rewrite Contains_app, Contains_QueryEscape by done.
  cbn [Contains]. rewrite Contains_QueryEscape by done.
  cbn [orb Ascii.eqb Bool.eqb].
  destruct (String.eqb_spec (QueryEscape key +:+ String "=" (QueryEscape value)) "") as [E|_].
  { destruct (QueryEscape key); discriminate E. }
  rewrite Cut_app by by apply Contains_QueryEscape.
  by rewrite !QueryUnescape_QueryEscape.
Qed.

Lemma Contains_pair sep key value :
  separator sep = true -> sep <> "="%char ->
  Contains sep (QueryEscape key +:+ String "=" (QueryEscape value)) = false.
Proof.
  intros Hsep Hne. rewrite Contains_app, Contains_QueryEscape by done.
  cbn [Contains]. rewrite Contains_QueryEscape by done.
  destruct (Ascii.eqb_spec "=" sep); [congruence|done].
Qed.

(** The query of a bid URL reads back as the two parameters it was built
    from, whatever the two texts. *)
Lemma ParseQuery_p_dsp a b :
  ParseQuery (Encode (Add (Add ∅ "p" a) "dsp" b)) = Add (Add ∅ "p" a) "dsp" b.
Proof.
  rewrite Encode_p_dsp. unfold ParseQuery.
  change ("dsp=" +:+ QueryEscape b +:+ "&p=" +:+ QueryEscape a)
    with ((QueryEscape "dsp" +:+ String "=" (QueryEscape b))
            +:+ String "&" (QueryEscape "p" +:+ String "=" (QueryEscape a))).
  rewrite split_on_app, split_on_last by by apply Contains_pair.
  cbn [fold_left]. rewrite !parse_pair_escaped. by vm_compute.
Qed.

Lemma makeBidURL_String floor dspId : makeBidURL floor dspId = URL_String (bid_addr floor dspId).
Proof. reflexivity. Qed.

(** What [url.Parse] finds in the text of a bid URL is the query that
    [makeBidURL] encoded. *)
Lemma query_of_makeBidURL floor dspId :
  query_of (makeBidURL floor dspId) = RawQuery (bid_addr floor dspId).
Proof.
  unfold makeBidURL, bid_addr, URL_String, query_of. cbn [Scheme Host Path RawQuery].
  rewrite Encode_p_dsp.
  set (q := QueryEscape (Itoa dspId) +:+ "&p=" +:+ QueryEscape (FormatFloat_f floor 3)).
  assert (Contains "#" q = false /\ Contains "?" q = false) as [Hhash Hmark].
  { unfold q. by rewrite !Contains_app, !Contains_QueryEscape. }
  change ("dsp=" +:+ q) with (String "d" (String "s" (String "p" (String "=" q)))).
  cbn [String.eqb Ascii.eqb Bool.eqb andb].
  change ("http" +:+ "://" +:+ serverAddr +:+ "/bid" +:+ "?" +:+ ?t)
    with ("http://0:8080/bid" +:+ String "?" t).
  rewrite (Cut_none "#").
  - cbn [fst]. by rewrite Cut_app.
  - rewrite Contains_app. cbn. exact Hhash.
Qed.

(** The bid endpoint reads the two parameters that [makeBidURL] wrote. *)
Lemma Query_makeBidURL floor dspId :
  let vars := ParseQuery (query_of (makeBidURL floor dspId)) in
  vars = URL_Query (bid_addr floor dspId)
  /\ vars = Add (Add ∅ "p" (FormatFloat_f floor 3)) "dsp" (Itoa dspId)
  /\ Get vars "p" = FormatFloat_f floor 3
  /\ Get vars "dsp" = Itoa dspId.
Proof.
  cbv zeta. rewrite query_of_makeBidURL. unfold URL_Query, bid_addr. cbn [RawQuery].
  rewrite ParseQuery_p_dsp. split_and!; [done|done|by vm_compute|by vm_compute].
Qed.

End QueryFacts.

(** ** The parameters the bid handler reads *)

Module HandlerFacts.
Import Strconv Url Bid Query F64Facts StrconvFacts BidFacts QueryFacts.

(** A successful [ParseUint] never goes down, and grows tenfold with each byte. *)
Lemma ParseUint_loop_grows s n d :
  ParseUint_loop s n = inr d -> (n <= d)%N /\ (s <> EmptyString -> 10 * n <= d)%N.
Proof.
  revert n. induction s as [|c s IH]; intros n; cbn [ParseUint_loop].
  - intros [= ->]. split; [lia|done].
  - destruct (digit_val c) as [v|]; [|done]. destruct (N.leb_spec cutoff n) as [|Hcut]; [done|].
    destruct (N.ltb_spec ((n * 10 + v) mod 2 ^ 64) (n * 10)) as [|Hwrap]; [done|].
    destruct (N.ltb_spec maxVal ((n * 10 + v) mod 2 ^ 64)) as [|Hmax]; [done|].
    cbn [orb]. intros [H1 _]%IH. split; [lia|]. intros _. lia.
Qed.

Lemma digit_val_bound c v : digit_val c = Some v -> (v < 10)%N /\ c = digit_char v.
Proof.
  unfold digit_val, digit_char.
  destruct (N.leb_spec 48 (N_of_ascii c)), (N.leb_spec (N_of_ascii c) 57); cbn; try done.
  intros [= <-]. split; [lia|].
  replace (48 + (N_of_ascii c - 48))%N with (N_of_ascii c) by lia.
  by rewrite ascii_N_embedding.
Qed.

(** On success the value is the one the digits denote: no wrap-around has
    taken place. *)
Lemma ParseUint_loop_read s n d nfrac sawdigits :
  ParseUint_loop s n = inr d ->
  read_decimal s n nfrac false sawdigits
  = Some (d, nfrac) \/ (s = EmptyString /\ sawdigits = false).
Proof.
  revert n sawdigits. induction s as [|c s IH]; intros n sawdigits; cbn [ParseUint_loop read_decimal].
  - intros [= ->]. destruct sawdigits; auto.
  - destruct (digit_val c) as [v|] eqn:Hv; [|done].
    destruct (digit_val_bound _ _ Hv) as [Hlt ->].
    rewrite digit_char_not_dot by done.
    destruct (N.leb_spec cutoff n) as [|Hcut]; [done|].
    destruct (N.ltb_spec ((n * 10 + v) mod 2 ^ 64) (n * 10)) as [|Hwrap]; [done|].
    destruct (N.ltb_spec maxVal ((n * 10 + v) mod 2 ^ 64)) as [|Hmax]; [done|].
    cbn [orb]. intros Hd.
    assert ((n * 10 + v) mod 2 ^ 64 = 10 * n + v)%N as Heq.
    { unfold cutoff in Hcut.
      destruct (N.lt_ge_cases (n * 10 + v) (2 ^ 64)) as [Hsmall|Hbig].
      - rewrite N.mod_small by done. lia.
      - exfalso. assert (n * 10 + v < 2 * 2 ^ 64)%N as Hlt2.
        { change ((2 ^ 64 - 1) / 10 + 1)%N with 1844674407370955162%N in Hcut.
          change (2 ^ 64)%N with 18446744073709551616%N. lia. }
        assert ((n * 10 + v) mod 2 ^ 64 = n * 10 + v - 2 ^ 64)%N as Hm.
        { symmetry. change (2 ^ 64)%N with 18446744073709551616%N in *.
          apply (N.mod_unique _ _ 1); lia. }
        change (2 ^ 64)%N with 18446744073709551616%N in *. lia. }
    rewrite Heq in Hd. destruct (IH _ true Hd) as [->|[_ ?]]; [by left|done].
Qed.

Lemma ParseUint_read s d : ParseUint s = inr d -> read_decimal s 0 0 false false = Some (d, 0%nat).
Proof.
  destruct s as [|c s]; [done|]. unfold ParseUint.
  intros H. destruct (ParseUint_loop_read _ _ _ 0%nat false H) as [?|[? _]]; done.
Qed.

Lemma read_Itoa i : read_decimal (Itoa i) 0 0 false false = Some (N.of_nat i, 0%nat).
Proof.
  unfold Itoa, FormatUint. destruct (read_FormatUint (N.of_nat i) EmptyString) as [k Hk].
  rewrite Hk. cbn [read_decimal]. by rewrite N.mul_0_l, N.add_0_l.
Qed.

Lemma Itoa_inj i j : Itoa i = Itoa j -> i = j.
Proof.
  intros H. pose proof (read_Itoa i) as Hi. rewrite H, read_Itoa in Hi.
  injection Hi as Hi. lia.
Qed.

(** [ParseUint] reads what [Itoa] wrote, when it reads it at all. *)
Lemma ParseUint_Itoa i d : ParseUint (Itoa i) = inr d -> d = N.of_nat i.
Proof. intros H%ParseUint_read. rewrite read_Itoa in H. by injection H. Qed.

Lemma ParseUint_loop_zeros k s : ParseUint_loop (zeros k s) 0 = ParseUint_loop s 0.
Proof. induction k as [|k IH]; [done|]. cbn [zeros]. exact IH. Qed.

Lemma zeros_not_empty k c : zeros k (String c EmptyString) <> EmptyString.
Proof. by destruct k. Qed.

Lemma ParseUint_zeros k c :
  ParseUint (zeros k (String c EmptyString)) = ParseUint_loop (String c EmptyString) 0.
Proof.
  unfold ParseUint. pose proof (zeros_not_empty k c).
  destruct (zeros k (String c "")) eqn:E; [done|]. by rewrite <- E, ParseUint_loop_zeros.
Qed.

(** The texts with a value in [1..3]: one of the digits 1, 2, 3 after any
    number of zeros. *)
Lemma ParseUint_loop_small s d :
  ParseUint_loop s 0 = inr d -> (1 <= d <= 3)%N ->
  exists k, s = zeros k (String (digit_char d) EmptyString).
Proof.
  induction s as [|c s IH]; cbn [ParseUint_loop]; [intros [= <-]; lia|].
  destruct (digit_val c) as [v|] eqn:Hv; [|done].
  destruct (digit_val_bound _ _ Hv) as [Hlt ->]. intros Hd Hr.
  change (cutoff <=? 0)%N with false in Hd. cbn iota in Hd.
  change (0 * 10)%N with 0%N in Hd. rewrite N.add_0_l in Hd.
  rewrite (N.mod_small v) in Hd by (change (2 ^ 64)%N with 18446744073709551616%N; lia).
  destruct (_ || _); [done|].
  destruct (N.eq_dec v 0%N) as [->|Hnz].
  - destruct (IH Hd Hr) as [k ->]. by exists (S k).
  - destruct (ParseUint_loop_grows _ _ _ Hd) as [Hle Hten].
    destruct s as [|c' s].
    + injection Hd as <-. by exists 0%nat.
    + assert (10 * v <= d)%N by (by apply Hten). lia.
Qed.

Lemma dsp_accepted_dec vars : dsp_accepted vars \/ ~ dsp_accepted vars.
Proof.
  unfold dsp_accepted. destruct (ParseUint (Get vars "dsp")) as [e|d] eqn:E.
  - right. intros (d & Hd & _). done.
  - destruct (N.le_gt_cases 1 d), (N.le_gt_cases d (N.of_nat MaxDSP));
      [left; by exists d|right; intros (d' & [= <-] & Hr); lia..].
Qed.

Lemma Marshal_number p : F64.is_number p = true -> Marshal {| Price := p |} = inr {| Price := p |}.
Proof. by destruct p. Qed.

Lemma Marshal_inr r body : Marshal r = inr body -> body = r /\ F64.is_number (Price r) = true.
Proof. destruct r as [[| [] | |]]; cbn; intros [= <-]; done. Qed.

Lemma Marshal_inl r err : Marshal r = inl err -> F64.is_number (Price r) = false.
Proof. by destruct r as [[| [] | |]]. Qed.

(** The query the bid endpoint finds in a URL of [makeBidURL]. *)
Lemma Get_dsp_makeBidURL floor dspId :
  Get (ParseQuery (query_of (makeBidURL floor dspId))) "dsp" = Itoa dspId.
Proof. by destruct (Query_makeBidURL floor dspId) as (_ & _ & _ & ->). Qed.

Lemma Get_p_makeBidURL floor dspId :
  Get (ParseQuery (query_of (makeBidURL floor dspId))) "p" = FormatFloat_f floor 3.
Proof. by destruct (Query_makeBidURL floor dspId) as (_ & _ & -> & _). Qed.

(** The identity can be read off a bid URL. *)
Lemma makeBidURL_inj floor dspId dspId' :
  makeBidURL floor dspId = makeBidURL floor dspId' -> dspId = dspId'.
Proof.
  intros H. apply Itoa_inj. rewrite <- (Get_dsp_makeBidURL floor dspId), H.
  apply Get_dsp_makeBidURL.
Qed.

Lemma ParseUint_Itoa_round dspId :
  (1 <= dspId <= MaxDSP)%nat -> ParseUint (Itoa dspId) = inr (N.of_nat dspId).
Proof.
  unfold MaxDSP. intros Hr.
  assert (dspId = 1 \/ dspId = 2 \/ dspId = 3)%nat as [->|[->| ->]] by lia; by vm_compute.
Qed.

Lemma makeBidURL_accepted floor dspId :
  dsp_accepted (ParseQuery (query_of (makeBidURL floor dspId))) <-> (1 <= dspId <= MaxDSP)%nat.
Proof.
  unfold dsp_accepted. rewrite Get_dsp_makeBidURL. split.
  - intros (d & Hd%ParseUint_Itoa & Hr). lia.
  - unfold MaxDSP. intros Hr. exists (N.of_nat dspId).
    assert (dspId = 1 \/ dspId = 2 \/ dspId = 3)%nat as [->|[->| ->]] by lia; by vm_compute.
Qed.

Lemma HandlerBid_makeBidURL floor dspId rnd rndn :
  F64.is_number floor = true -> (1 <= dspId <= MaxDSP)%nat ->
  HandlerBid ParseFloat_plain (ParseQuery (query_of (makeBidURL floor dspId))) rnd rndn
  = match received floor with
    | Some fl =>
        match Marshal {| Price := round2 (F64.add fl (F64.mul rnd (F64.of_Z 100))) |} with
        | inl err => Error err StatusInternalServerError
        | inr body => JSON (10 * (rndn + 1)) body
        end
    | None => Error "bad p parameter" StatusBadRequest
    end.
Proof.
  intros Hx Hr. rewrite HandlerBid_accepted by by apply makeBidURL_accepted.
  by rewrite Get_p_makeBidURL, ParseFloat_plain_FormatFloat.
Qed.

End HandlerFacts.

(** ** Exchanges and the stability of the sort *)

Module SortFacts.
Import Bid Select F64Facts SelectFacts.

Lemma ltb_asym x y : F64.ltb x y = true -> F64.ltb y x = false.
Proof. by_cases x y. Qed.

Lemma ltb_irrefl x : F64.ltb x x = false.
Proof.
  unfold F64.ltb, SFltb. destruct x as [[]|[]| |[] m e]; simpl; try done;
    rewrite Z.compare_refl; change (Pos.compare_cont Eq m m) with (Pos.compare m m);
    by rewrite Pos.compare_refl.
Qed.

Lemma ltb_trans x y z : F64.ltb x y = true -> F64.ltb y z = true -> F64.ltb x z = true.
Proof.
  unfold F64.ltb, SFltb.
  destruct x as [[]|[]| |[] ? ?], y as [[]|[]| |[] ? ?], z as [[]|[]| |[] ? ?]; simpl;
    try (intros; congruence); cmp_cases; simpl; intros; try congruence; try lia.
Qed.

Lemma rev_reverse {A} (l : list A) : rev l = reverse l.
Proof. unfold reverse. by rewrite rev_alt. Qed.

(** Writing [x] over [l[j]] and keeping [l[j]] in front is a rearrangement. *)
Lemma insert_Permutation {A} (l : list A) j x y :
  l !! j = Some y -> y :: <[j := x]> l ≡ₚ x :: l.
Proof.
  revert j. induction l as [|a l IH]; intros [|j] H; simplify_eq/=.
  - apply Permutation_swap.
  - rewrite (Permutation_swap a y), (IH j) by done. apply Permutation_swap.
Qed.

(** Exchanging two entries is a rearrangement. *)
Lemma swap_Permutation {A} (l : list A) i j x y :
  l !! i = Some x -> l !! j = Some y -> <[j := x]> (<[i := y]> l) ≡ₚ l.
Proof.
  revert i j. induction l as [|a l IH]; intros [|i] [|j] Hi Hj; simplify_eq/=.
  - done.
  - by apply insert_Permutation.
  - by apply insert_Permutation.
  - f_equiv. by apply IH.
Qed.




End SortFacts.

(** ** Magnitudes: no overflow in the arithmetic of a round *)

Module MagnitudeFacts.
Import F64Facts.

Lemma below_finite T x : below T x -> F64.finite x = true.
Proof. destruct x; cbn; tauto. Qed.

Lemma below_mono T T' x : T <= T' -> below T x -> below T' x.
Proof. intros HT. destruct x; cbn; try tauto. intros [? ?]. split; [done|lia]. Qed.

Lemma Zdigits2_lower z : 0 < z -> 2 ^ (Zdigits2 z - 1) <= z.
Proof.
  intros Hz. destruct z as [|p|p]; [lia| |lia]. cbn [Zdigits2]. rewrite digits2_size.
  pose proof (Pos.size_le p) as Hs. apply Pos2Z.pos_le_pos in Hs.
  rewrite Pos2Z.inj_pow in Hs.
  replace (Zpos (Pos.size p)) with (Zpos (Pos.size p) - 1 + 1) in Hs by lia.
  rewrite Z.pow_add_r in Hs by lia. change (2 ^ 1) with 2 in Hs. lia.
Qed.

Lemma Zdigits2_ge z k : 0 <= k -> 2 ^ k <= z -> k + 1 <= Zdigits2 z.
Proof.
  intros Hk Hz. assert (0 < 2 ^ k) by (apply Z.pow_pos_nonneg; lia).
  pose proof (Zdigits2_lt z ltac:(lia)) as Hlt. pose proof (Zdigits2_nonneg z).
  destruct (Z.le_gt_cases (k + 1) (Zdigits2 z)) as [|Hsmall]; [done|].
  assert (2 ^ Zdigits2 z <= 2 ^ k) by (apply Z.pow_le_mono_r; lia). lia.
Qed.

Lemma Zdigits2_mono a b : 0 <= a <= b -> Zdigits2 a <= Zdigits2 b.
Proof.
  intros [Ha Hab]. pose proof (Zdigits2_lt b ltac:(lia)). pose proof (Zdigits2_nonneg b).
  apply Zdigits2_upper; lia.
Qed.

Lemma Zdigits2_div_exact z n :
  0 < z -> 0 <= n < Zdigits2 z -> Zdigits2 (z / 2 ^ n) = Zdigits2 z - n.
Proof.
  intros Hz Hn. pose proof (Zdigits2_div z n ltac:(lia) ltac:(lia)) as Hup.
  pose proof (Zdigits2_lower z Hz) as Hlow.
  assert (0 < 2 ^ n) by (apply Z.pow_pos_nonneg; lia).
  assert (2 ^ (Zdigits2 z - 1 - n) <= z / 2 ^ n) as Hq.
  { apply Z.div_le_lower_bound; [done|]. rewrite <- Z.pow_add_r by lia.
    by replace (n + (Zdigits2 z - 1 - n)) with (Zdigits2 z - 1) by lia. }
  apply Zdigits2_ge in Hq; lia.
Qed.

Lemma Zdigits2_pos_pos p : 1 <= Zdigits2 (Zpos p).
Proof. cbn [Zdigits2]. lia. Qed.

(** After the shift of [binary_round_aux], a mantissa that was long enough
    sits at the exponent of its magnitude. *)
Lemma shr_fexp_canonical m e l :
  0 <= m -> e <= fexp prec emax (Zdigits2 m + e) ->
  let mrs := fst (shr_fexp prec emax m e l) in
  let e' := snd (shr_fexp prec emax m e l) in
  e' = fexp prec emax (Zdigits2 m + e)
  /\ 0 <= shr_m mrs
  /\ ((0 < shr_m mrs /\ Zdigits2 (shr_m mrs) + e' = Zdigits2 m + e)
      \/ (shr_m mrs = 0 /\ Zdigits2 m + e <= e')).
Proof.
  intros Hm He. cbv zeta. unfold shr_fexp, shr.
  assert (shr_m (shr_record_of_loc m l) = m) as Hrec by (by destruct l as [|[]]).
  pose proof (Zdigits2_nonneg m) as Hd.
  destruct (fexp prec emax (Zdigits2 m + e) - e) as [|n|n] eqn:Hn; cbn [fst snd]; [| |lia].
  - rewrite Hrec. split_and!; [lia|done|].
    destruct (Z.eq_dec m 0) as [->|Hne]; [right; cbn; split; [done|lia]|left; split; lia].
  - rewrite iter_pos_shr_1, Hrec by (by rewrite Hrec).
    assert (0 < 2 ^ Zpos n) by (apply Z.pow_pos_nonneg; lia).
    split_and!; [lia|apply Z.div_pos; lia|].
    destruct (Z.lt_ge_cases (Zpos n) (Zdigits2 m)) as [Hlong|Hshort].
    + assert (0 < m) as Hpos by (destruct m; cbn in *; lia).
      pose proof (Zdigits2_div_exact m (Zpos n) Hpos ltac:(lia)) as Hex.
      left. split; [|lia].
      destruct (m / 2 ^ Zpos n) as [|q|q] eqn:Hq; cbn [Zdigits2] in Hex; try lia.
      pose proof (Z.div_pos m (2 ^ Zpos n) ltac:(lia) ltac:(lia)). lia.
    + right. split; [|lia]. apply Z.div_small. split; [done|].
      eapply Z.lt_le_trans; [apply Zdigits2_lt; lia|]. apply Z.pow_le_mono_r; lia.
Qed.

(** The rounding at the end of every operation gives a well-formed float64
    when its input is long enough and stays below [2^1023]. *)
Lemma binary_round_aux_below sx mx ex lx T :
  0 <= mx -> ex <= fexp prec emax (Zdigits2 mx + ex) ->
  Zdigits2 mx + ex + 1 <= T -> -1073 <= T -> T <= 1024 ->
  below T (binary_round_aux prec emax sx mx ex lx).
Proof.
  intros Hm He Htop HTlo HThi. unfold binary_round_aux.
  pose proof (shr_fexp_canonical mx ex lx Hm He) as H1. cbv zeta in H1.
  destruct (shr_fexp prec emax mx ex lx) as [mrs' e']. cbn [fst snd] in H1.
  destruct H1 as (He' & Hm' & Hcase).
  pose proof (round_nearest_even_bounds (shr_m mrs') (loc_of_shr_record mrs') Hm') as Hr.
  set (m1 := round_nearest_even (shr_m mrs') (loc_of_shr_record mrs')) in *.
  assert (Zdigits2 m1 <= Zdigits2 (shr_m mrs') + 1) as Hd1.
  { destruct (Z.eq_dec m1 (shr_m mrs')) as [->|Hne]; [lia|].
    replace m1 with (shr_m mrs' + 1) by lia. by apply Zdigits2_succ. }
  assert (Zdigits2 (shr_m mrs') <= Zdigits2 m1) as Hd1' by (apply Zdigits2_mono; lia).
  assert (Zdigits2 mx + ex <= Zdigits2 m1 + e' <= T) as Htop1.
  { destruct Hcase as [[_ Heq]|[Hz Hle]]; [lia|].
    rewrite Hz in Hd1. cbn in Hd1. pose proof (Zdigits2_nonneg m1).
    unfold fexp, emin, prec, emax in He'. lia. }
  assert (e' <= fexp prec emax (Zdigits2 m1 + e')) as He1.
  { clear Hcase. unfold fexp, emin, prec, emax in *. lia. }
  pose proof (shr_fexp_canonical m1 e' loc_Exact ltac:(lia) He1) as H2. cbv zeta in H2.
  destruct (shr_fexp prec emax m1 e' loc_Exact) as [mrs'' e'']. cbn [fst snd] in H2.
  destruct H2 as (He'' & Hm'' & Hcase').
  destruct (shr_m mrs'') as [|m|m] eqn:Em; [done| |lia].
  destruct Hcase' as [[_ Heq]|[? _]]; [|done].
  assert (e'' <= emax - prec) as Hemax.
  { rewrite He''. unfold fexp, emin, prec, emax. lia. }
  destruct (Z.leb_spec e'' (emax - prec)) as [_|]; [|lia].
  cbn [below Zdigits2] in *. split; [|lia].
  unfold bounded, canonical_mantissa. rewrite Heq, <- He'', Z.eqb_refl.
  by apply Z.leb_le in Hemax as ->.
Qed.

(** A product with a constant that fills its 53 bits. *)
Lemma mul_below Tx T x sc mc ec :
  below Tx x -> Zdigits2 (Zpos mc) = 53 ->
  Tx + (53 + ec) + 1 <= T -> -1073 <= T -> T <= 1024 ->
  below T (F64.mul x (S754_finite sc mc ec)).
Proof.
  intros Hx Hc HT HTlo HThi. destruct x as [s|s| |s m e]; cbn [below] in Hx; try done.
  destruct Hx as [_ Hx]. unfold F64.mul, SFmul.
  pose proof (Zdigits2_mul (Zpos m) (Zpos mc) ltac:(lia) ltac:(lia)) as Hup.
  pose proof (Zdigits2_lower (Zpos mc) ltac:(lia)) as Hlow. rewrite Hc in Hlow.
  assert (53 <= Zdigits2 (Zpos (m * mc))) as Hlong.
  { apply (Zdigits2_ge _ 52); [lia|]. rewrite Pos2Z.inj_mul. change (53 - 1) with 52 in Hlow.
    nia. }
  rewrite Pos2Z.inj_mul in *.
  apply binary_round_aux_below; [lia| |lia..]. unfold fexp, emin, prec, emax. lia.
Qed.

Lemma div_eucl_div a b : fst (Z.div_eucl a b) = a / b.
Proof. reflexivity. Qed.

(** A quotient of two mantissas. *)
Lemma div_below T sx mx ex sy my ey :
  Zdigits2 (Zpos mx) + ex - (Zdigits2 (Zpos my) + ey) + 2 <= T -> -1073 <= T -> T <= 1024 ->
  below T (F64.div (S754_finite sx mx ex) (S754_finite sy my ey)).
Proof.
  intros HT HTlo HThi. unfold F64.div, SFdiv, SFdiv_core_binary. cbv zeta.
  set (d1 := Zdigits2 (Zpos mx)) in *. set (d2 := Zdigits2 (Zpos my)) in *.
  set (e' := Z.min (fexp prec emax (d1 + ex - (d2 + ey))) (ex - ey)).
  set (s := ex - ey - e').
  assert (0 <= s) as Hs by (unfold s, e'; lia).
  set (m' := match s with 0 => Zpos mx | Zpos _ => Z.shiftl (Zpos mx) s | Zneg _ => 0 end).
  assert (m' = Zpos mx * 2 ^ s) as Hm'.
  { unfold m'. destruct s as [|p|p] eqn:Es; [lia| |lia]. by rewrite Z.shiftl_mul_pow2. }
  pose proof (div_eucl_div m' (Zpos my)) as Hq.
  destruct (Z.div_eucl m' (Zpos my)) as [q r]. cbn [fst] in Hq.
  assert (1 <= d1 /\ 1 <= d2) as [Hd1 Hd2] by (split; apply Zdigits2_pos_pos).
  pose proof (Zdigits2_lt (Zpos mx) ltac:(lia)) as Hx_up.
  pose proof (Zdigits2_lower (Zpos mx) ltac:(lia)) as Hx_lo.
  pose proof (Zdigits2_lt (Zpos my) ltac:(lia)) as Hy_up.
  pose proof (Zdigits2_lower (Zpos my) ltac:(lia)) as Hy_lo.
  fold d1 in Hx_up, Hx_lo. fold d2 in Hy_up, Hy_lo.
  assert (0 < 2 ^ s) as Hps by (apply Z.pow_pos_nonneg; lia).
  assert (2 ^ (d1 + s - 1) <= m' < 2 ^ (d1 + s)) as [Hm_lo Hm_up].
  { rewrite Hm'. replace (d1 + s - 1) with (d1 - 1 + s) by lia.
    rewrite !Z.pow_add_r by lia. nia. }
  assert (0 <= q) as Hq0 by (rewrite Hq; apply Z.div_pos; lia).
  assert (Zdigits2 q <= Z.max 0 (d1 + s - d2 + 1)) as Hup.
  { apply Zdigits2_upper; [|lia]. split; [done|]. rewrite Hq.
    apply Z.div_lt_upper_bound; [lia|].
    destruct (Z.le_gt_cases 0 (d1 + s - d2 + 1)) as [Hk|Hk].
    - rewrite Z.max_r by lia.
      assert (2 ^ (d1 + s) = 2 ^ (d2 - 1) * 2 ^ (d1 + s - d2 + 1)) as Hsplit.
      { rewrite <- Z.pow_add_r by lia. f_equal. lia. }
      assert (0 < 2 ^ (d1 + s - d2 + 1)) by (apply Z.pow_pos_nonneg; lia). nia.
    - rewrite Z.max_l by lia. change (2 ^ 0) with 1. eapply Z.lt_le_trans; [exact Hm_up|].
      etrans; [|rewrite Z.mul_1_r; exact Hy_lo]. apply Z.pow_le_mono_r; lia. }
  assert (d1 + s - d2 <= Zdigits2 q) as Hlow.
  { pose proof (Zdigits2_nonneg q).
    destruct (Z.le_gt_cases (d1 + s - d2) 0) as [|Hk]; [lia|].
    assert (2 ^ (d1 + s - 1 - d2) <= q) as Hq2.
    { rewrite Hq. apply Z.div_le_lower_bound; [lia|].
      assert (2 ^ (d1 + s - 1) = 2 ^ d2 * 2 ^ (d1 + s - 1 - d2)) as Hsplit.
      { rewrite <- Z.pow_add_r by lia. f_equal. lia. }
      assert (0 < 2 ^ (d1 + s - 1 - d2)) by (apply Z.pow_pos_nonneg; lia). nia. }
    apply Zdigits2_ge in Hq2; lia. }
  apply binary_round_aux_below; try lia.
  - clear Hup. unfold s, e', fexp, emin, prec, emax in *. lia.
  - unfold s, e', fexp, emin, prec, emax in *. lia.
Qed.

Lemma shl_align_value mx ex ez :
  ez <= ex -> Zpos (fst (shl_align mx ex ez)) = Zpos mx * 2 ^ (ex - ez).
Proof.
  intros He. unfold shl_align. destruct (ez - ex) as [|d|d] eqn:Ed; cbn [fst]; try lia.
  - replace (ex - ez) with 0 by lia. lia.
  - rewrite iter_xO_mul, Pos2Z.inj_mul, Pos2Z.inj_pow. by replace (ex - ez) with (Zpos d) by lia.
Qed.

(** The rounding of a mantissa of any length. *)
Lemma binary_round_below T s m e :
  Zdigits2 (Zpos m) + e + 1 <= T -> -1073 <= T -> T <= 1024 ->
  below T (binary_round prec emax s m e).
Proof.
  intros HT HTlo HThi. unfold binary_round, shl_align. cbn [Zdigits2] in HT.
  destruct (fexp prec emax (Zpos (digits2_pos m) + e) - e) as [|d|d] eqn:Ed.
  - apply binary_round_aux_below; cbn [Zdigits2]; lia.
  - apply binary_round_aux_below; cbn [Zdigits2]; lia.
  - apply binary_round_aux_below; cbn [Zdigits2]; rewrite ?digits2_iter_xO; try lia.
    replace (Zpos (digits2_pos m + d) + fexp prec emax (Zpos (digits2_pos m) + e))
      with (Zpos (digits2_pos m) + e) by lia. lia.
Qed.

Lemma binary_normalize_below T k z e :
  0 <= k -> Z.abs z < 2 ^ k -> k + e + 1 <= T -> -1073 <= T -> T <= 1024 ->
  below T (binary_normalize prec emax z e false).
Proof.
  intros Hk Hz HT HTlo HThi.
  destruct z as [|m|m]; cbn [binary_normalize]; [done| |];
    apply binary_round_below; try lia;
    pose proof (Zdigits2_upper (Zpos m) k ltac:(lia) Hk); lia.
Qed.

(** A sum. *)
Lemma add_below Tx Ty T x y :
  below Tx x -> below Ty y -> Z.max Tx Ty + 2 <= T -> -1073 <= T -> T <= 1024 ->
  below T (F64.add x y).
Proof.
  intros Hx Hy HT HTlo HThi.
  destruct x as [sx|sx| |sx mx ex], y as [sy|sy| |sy my ey]; cbn [below] in Hx, Hy; try done.
  - by destruct sx, sy.
  - unfold F64.add. cbn [SFadd below]. destruct Hy. split; [done|lia].
  - unfold F64.add. cbn [SFadd below]. destruct Hx. split; [done|lia].
  - destruct Hx as [_ Hx], Hy as [_ Hy]. unfold F64.add, SFadd. cbv zeta.
    set (ez := Z.min ex ey).
    rewrite !shl_align_value by (unfold ez; lia).
    pose proof (Zdigits2_lt (Zpos mx) ltac:(lia)) as Hx_up.
    pose proof (Zdigits2_lt (Zpos my) ltac:(lia)) as Hy_up.
    pose proof (Zdigits2_pos_pos mx). pose proof (Zdigits2_pos_pos my).
    set (k := Z.max Tx Ty - ez).
    assert (Zpos mx * 2 ^ (ex - ez) < 2 ^ k) as Hx'.
    { assert (0 < 2 ^ (ex - ez)) by (apply Z.pow_pos_nonneg; unfold ez; lia).
      assert (2 ^ Zdigits2 (Zpos mx) * 2 ^ (ex - ez) <= 2 ^ k).
      { rewrite <- Z.pow_add_r by (unfold ez; lia). apply Z.pow_le_mono_r; unfold k; lia. }
      nia. }
    assert (Zpos my * 2 ^ (ey - ez) < 2 ^ k) as Hy'.
    { assert (0 < 2 ^ (ey - ez)) by (apply Z.pow_pos_nonneg; unfold ez; lia).
      assert (2 ^ Zdigits2 (Zpos my) * 2 ^ (ey - ez) <= 2 ^ k).
      { rewrite <- Z.pow_add_r by (unfold ez; lia). apply Z.pow_le_mono_r; unfold k; lia. }
      nia. }
    apply (binary_normalize_below T (k + 1)); try (unfold k, ez; lia).
    rewrite Z.pow_add_r by (unfold k, ez; lia). change (2 ^ 1) with 2.
    assert (0 < Zpos mx * 2 ^ (ex - ez)) as Ha.
    { apply Z.mul_pos_pos; [lia|]. apply Z.pow_pos_nonneg; unfold ez; lia. }
    assert (0 < Zpos my * 2 ^ (ey - ez)) as Hb.
    { apply Z.mul_pos_pos; [lia|]. apply Z.pow_pos_nonneg; unfold ez; lia. }
    set (a := Zpos mx * 2 ^ (ex - ez)) in *. set (b := Zpos my * 2 ^ (ey - ez)) in *.
    clearbody a b. destruct sx, sy; cbn [cond_Zopp]; lia.
Qed.

(** [math.Round]. *)
Lemma Round_below Tx T x :
  below Tx x -> Z.max Tx 0 + 2 <= T -> T <= 1024 -> below T (F64.Round x).
Proof.
  intros Hx HT HThi. destruct x as [s|s| |s m e]; cbn [below] in Hx; try done.
  destruct Hx as [Hb Hx]. destruct e as [|p|p]; cbn [F64.Round].
  - cbn [below]. split; [done|lia].
  - cbn [below]. split; [done|lia].
  - cbv zeta. set (d := 2 ^ Zpos p). assert (0 < d) by (apply Z.pow_pos_nonneg; lia).
    pose proof (Zdigits2_div (Zpos m) (Zpos p) ltac:(lia) ltac:(lia)) as Hq. fold d in Hq.
    assert (0 <= Zpos m / d) as Hq0 by (apply Z.div_pos; lia).
    set (q := Zpos m / d) in *.
    set (k := if d <=? 2 * (Zpos m mod d) then q + 1 else q).
    assert (0 <= k <= q + 1) as Hk by (unfold k; destruct (_ <=? _); lia).
    assert (Zdigits2 k <= Z.max Tx 0 + 1) as Hdk.
    { etrans; [apply (Zdigits2_mono k (q + 1)); lia|].
      pose proof (Zdigits2_succ q Hq0). lia. }
    pose proof (Zdigits2_lt k ltac:(lia)) as Hlt. pose proof (Zdigits2_nonneg k).
    destruct k as [|kp|kp] eqn:Ek; [done| |lia].
    apply (binary_normalize_below T (Zdigits2 (Zpos kp))); try lia.
    destruct s; lia.
Qed.

(** A draw of [rand.Float64()] is below 1. *)
Lemma draw_below rnd :
  F64.finite rnd = true ->
  F64.leb (F64.of_Z 0) rnd = true ->
  F64.ltb rnd (F64.of_Z 1) = true ->
  below 0 rnd.
Proof.
  assert (F64.of_Z 1 = S754_finite false 4503599627370496 (-52)) as -> by reflexivity.
  assert (F64.of_Z 0 = S754_zero false) as -> by reflexivity.
  destruct rnd as [s|s| |s m e]; intros Hfin Hge Hlt; try done.
  destruct s; [discriminate Hge|]. cbn [F64.finite] in Hfin. cbn [below]. split; [done|].
  pose proof (bounded_mantissa _ _ Hfin) as Hm.
  assert (Zdigits2 (Zpos m) <= 53) as Hd by (apply Zdigits2_upper; lia).
  remember 4503599627370496%positive as c eqn:Hc.
  unfold F64.ltb, SFltb in Hlt. cbn [SFcompare] in Hlt.
  destruct (Z.compare_spec e (-52)) as [->|He|He]; [|lia|discriminate Hlt].
  destruct (Pos.compare_cont Eq m c) eqn:E; [discriminate Hlt| |discriminate Hlt].
  apply (proj1 (Pos.compare_lt_iff _ _)) in E. apply Pos2Z.pos_lt_pos in E.
  assert (Zdigits2 (Zpos m) <= 52).
  { apply Zdigits2_upper; [|lia]. subst c. change (2 ^ 52) with 4503599627370496. lia. }
  lia.
Qed.

End MagnitudeFacts.

(** ** Signs: the prices of a round are not negative *)

Module SignFacts.
Import Strconv Url Bid Query F64Facts StrconvFacts BidFacts MagnitudeFacts.

(** The rounding keeps the sign it is given. *)
Lemma binary_round_aux_sign m e l :
  F64.sign_of (binary_round_aux prec emax false m e l) = false.
Proof.
  unfold binary_round_aux. destruct (shr_fexp prec emax m e l) as [mrs' e'].
  destruct (shr_fexp _ _ _ e' _) as [mrs'' e'']. destruct (shr_m mrs''); [done| |done].
  by destruct (_ <=? _).
Qed.

Lemma binary_round_sign m e : F64.sign_of (binary_round prec emax false m e) = false.
Proof. unfold binary_round. destruct (shl_align _ _ _). apply binary_round_aux_sign. Qed.

Lemma sign_nonneg x : F64.sign_of x = false -> nonneg x.
Proof. by destruct x. Qed.

Lemma mul_nonneg x mc ec : nonneg x -> nonneg (F64.mul x (S754_finite false mc ec)).
Proof.
  destruct x as [[]|[]| |[] mx ex]; cbn; intros Hx; try done.
  apply sign_nonneg, binary_round_aux_sign.
Qed.

Lemma div_nonneg x mc ec : nonneg x -> nonneg (F64.div x (S754_finite false mc ec)).
Proof.
  destruct x as [[]|[]| |[] mx ex]; cbn -[SFdiv_core_binary]; intros Hx; try done.
  destruct (SFdiv_core_binary _ _ _ _ _ _) as [[mz ez] lz].
  apply sign_nonneg, binary_round_aux_sign.
Qed.

Lemma add_nonneg x y : nonneg x -> nonneg y -> nonneg (F64.add x y).
Proof.
  destruct x as [[]|[]| |[] mx ex], y as [[]|[]| |[] my ey]; cbn -[shl_align];
    intros Hx Hy; try done.
  apply sign_nonneg, binary_round_sign.
Qed.

Lemma Round_nonneg x : nonneg x -> nonneg (F64.Round x).
Proof.
  destruct x as [[]|[]| |[] m [|p|p]]; cbn [nonneg F64.sign_of F64.Round]; intros Hs; try done.
  cbv zeta. set (d := 2 ^ Zpos p). assert (0 < d) by (apply Z.pow_pos_nonneg; lia).
  assert (0 <= Zpos m / d) as Hq by (apply Z.div_pos; lia).
  destruct (if d <=? 2 * (Zpos m mod d) then Zpos m / d + 1 else Zpos m / d) as [|k|k] eqn:E;
    [done| |].
  - apply sign_nonneg, binary_round_sign.
  - destruct (_ <=? _); lia.
Qed.

Lemma leb_zero_nonneg x : F64.leb (F64.of_Z 0) x = true -> nonneg x.
Proof. by destruct x as [[]|[]| |[] m e]. Qed.

Lemma nonneg_leb_zero T x : below T x -> nonneg x -> F64.leb (F64.of_Z 0) x = true.
Proof. by destruct x as [[]|[]| |[] m e]. Qed.

Lemma received_nonneg x fl : nonneg x -> received x = Some fl -> nonneg fl.
Proof.
  intros Hx. unfold received.
  destruct x as [s|s| |s m e]; cbn [thousandths]; try (by intros [= <-]).
  cbn [nonneg F64.sign_of] in Hx. subst s. cbn [F64.sign_of].
  destruct (scaled_round m e 3) as [|k]; [by intros [= <-]|].
  pose proof (div_nonneg (S754_finite false k 0) 1000 0 eq_refl) as Hd.
  destruct (F64.div _ _); intros [= <-]; done.
Qed.

Lemma price_nonneg fl rnd :
  nonneg fl -> nonneg rnd -> nonneg (round2 (F64.add fl (F64.mul rnd (F64.of_Z 100)))).
Proof.
  intros Hfl Hrnd. unfold round2.
  assert (F64.of_Z 100 = S754_finite false 7036874417766400 (-46)) as -> by reflexivity.
  apply div_nonneg, Round_nonneg, mul_nonneg, add_nonneg; [done|]. by apply mul_nonneg.
Qed.

Lemma floor_nonneg rnd : nonneg rnd -> nonneg (F64.mul rnd (F64.of_Z 10)).
Proof.
  assert (F64.of_Z 10 = S754_finite false 5629499534213120 (-49)) as -> by reflexivity.
  apply mul_nonneg.
Qed.

End SignFacts.

(** ** The prices of a round served by the program itself *)

Module PricingFacts.
Import Strconv Url Bid Query F64Facts StrconvFacts BidFacts QueryFacts HandlerFacts MagnitudeFacts.

Lemma below_is_number T x : below T x -> F64.is_number x = true.
Proof. destruct x; cbn; tauto. Qed.

(** A floor below 32 is sent as less than 32768 thousandths. *)
Lemma thousandths_small x : below 5 x -> (thousandths x < 32768)%N.
Proof.
  destruct x as [s|s| |s m e]; cbn [below thousandths]; try done.
  intros [_ Htop]. pose proof (Zdigits2_lt (Zpos m) ltac:(lia)) as Hm.
  pose proof (Zdigits2_pos_pos m) as Hd.
  unfold scaled_round. change (10 ^ N.of_nat 3)%N with 1000%N.
  destruct e as [|p|p].
  - assert (2 ^ Zdigits2 (Zpos m) <= 2 ^ 5) by (apply Z.pow_le_mono_r; lia).
    change (2 ^ 5) with 32 in *. change (2 ^ Z.to_N 0)%N with 1%N. lia.
  - assert (2 ^ (Zdigits2 (Zpos m) + Zpos p) <= 2 ^ 5) as Hle by (apply Z.pow_le_mono_r; lia).
    rewrite Z.pow_add_r in Hle by lia. change (2 ^ 5) with 32 in *.
    assert (Z.of_N (2 ^ Z.to_N (Zpos p)) = 2 ^ Zpos p) as Hpow.
    { rewrite N2Z.inj_pow. by rewrite Z2N.id by lia. }
    assert (0 < 2 ^ Zpos p) by (apply Z.pow_pos_nonneg; lia).
    set (d := (2 ^ Z.to_N (Zpos p))%N) in *. nia.
  - assert (2 ^ Zdigits2 (Zpos m) <= 2 ^ (5 + Zpos p)) as Hle by (apply Z.pow_le_mono_r; lia).
    rewrite Z.pow_add_r in Hle by lia. change (2 ^ 5) with 32 in *.
    assert (Z.of_N (2 ^ Npos p) = 2 ^ Zpos p) as Hpow by (by rewrite N2Z.inj_pow).
    assert (0 < 2 ^ Zpos p) by (apply Z.pow_pos_nonneg; lia).
    set (d := (2 ^ Npos p)%N) in *.
    assert (N.pos m * 1000 < 32000 * d)%N as Hnum by lia.
    assert (N.pos m * 1000 / d < 32000)%N as Hq.
    { apply N.Div0.div_lt_upper_bound. lia. }
    set (q := (N.pos m * 1000 / d)%N) in *.
    destruct (_ ?= _)%N; [destruct (N.even q)|..]; lia.
Qed.

(** The floor of a round always reaches the bid side as a float64 below 128. *)
Lemma received_below x : below 5 x -> exists fl, received x = Some fl /\ below 7 fl.
Proof.
  intros Hx. pose proof (thousandths_small x Hx) as Hn. unfold received.
  destruct (thousandths x) as [|k]; [by eexists|].
  assert (Zdigits2 (Zpos k) <= 15) as Hd.
  { apply Zdigits2_upper; [|lia]. change (2 ^ 15) with 32768. lia. }
  pose proof (div_below 7 (F64.sign_of x) k 0 false 1000 0) as Hdiv.
  change (Zdigits2 (Zpos 1000)) with 10 in Hdiv. specialize (Hdiv ltac:(lia) ltac:(lia) ltac:(lia)).
  destruct (F64.div _ _) as [s|s| |s m e]; [by eexists|done|done|by eexists].
Qed.

(** With a floor below 128 and a draw below 1 the price is a float64 below
    [2^15]: no step of the computation overflows. *)
Lemma price_below fl rnd :
  below 7 fl -> below 0 rnd ->
  below 15 (round2 (F64.add fl (F64.mul rnd (F64.of_Z 100)))).
Proof.
  intros Hfl Hrnd. unfold round2.
  assert (F64.of_Z 100 = S754_finite false 7036874417766400 (-46)) as -> by reflexivity.
  assert (Zdigits2 (Zpos 7036874417766400) = 53) as Hc by reflexivity.
  pose proof (mul_below 0 8 rnd false _ (-46) Hrnd Hc ltac:(lia) ltac:(lia) ltac:(lia)) as Hu.
  pose proof (add_below 7 8 10 _ _ Hfl Hu ltac:(lia) ltac:(lia) ltac:(lia)) as Hsum.
  pose proof (mul_below 10 18 _ false _ (-46) Hsum Hc ltac:(lia) ltac:(lia) ltac:(lia)) as Hsc.
  pose proof (Round_below 18 20 _ Hsc ltac:(lia) ltac:(lia)) as HR.
  destruct (F64.Round _) as [s|s| |s m e]; cbn [below] in HR; try done.
  destruct HR as [_ HR]. apply div_below; [|lia..]. rewrite Hc. lia.
Qed.

(** The floor of a round is below 32. *)
Lemma floor_below rnd :
  F64.finite rnd = true -> F64.leb (F64.of_Z 0) rnd = true -> F64.ltb rnd (F64.of_Z 1) = true ->
  below 5 (F64.mul rnd (F64.of_Z 10)).
Proof.
  intros H1 H2 H3. pose proof (draw_below rnd H1 H2 H3) as Hrnd.
  assert (F64.of_Z 10 = S754_finite false 5629499534213120 (-49)) as -> by reflexivity.
  by apply (mul_below 0 5); [done|reflexivity|lia..].
Qed.

(** The bid endpoint answers a request of a round with a price. *)
Lemma HandlerBid_round rnd0 rnd rndn dspId :
  below 5 (F64.mul rnd0 (F64.of_Z 10)) -> below 0 rnd -> (1 <= dspId <= MaxDSP)%nat ->
  exists fl,
    received (F64.mul rnd0 (F64.of_Z 10)) = Some fl
    /\ HandlerBid ParseFloat_plain
         (ParseQuery (query_of (makeBidURL (F64.mul rnd0 (F64.of_Z 10)) dspId))) rnd rndn
       = JSON (10 * (rndn + 1)) {| Price := round2 (F64.add fl (F64.mul rnd (F64.of_Z 100))) |}
    /\ below 15 (round2 (F64.add fl (F64.mul rnd (F64.of_Z 100)))).
Proof.
  intros Hfloor Hrnd Hid. destruct (received_below _ Hfloor) as (fl & Hfl & Hb).
  pose proof (price_below fl rnd Hb Hrnd) as Hp.
  exists fl. split_and!; [done| |done].
  rewrite HandlerBid_makeBidURL, Hfl by eauto using below_is_number.
  by rewrite Marshal_number by eauto using below_is_number.
Qed.

End PricingFacts.

(** ** Schedules and the replies a round looks at *)

Module ScheduleFacts.
Import Strconv Url Bid Query Select Round Examples.
Import F64Facts StrconvFacts BidFacts SelectFacts RoundFacts.

Section Facts.
Variable reply : nat -> Reply.
Variable rnd : float64.

Lemma sum_live_le (ws : list Worker) : (sum_list_with live ws <= length ws)%nat.
Proof.
  induction ws as [|w ws IH]; cbn; [done|]. unfold live at 1. destruct (wpc w); lia.
Qed.

Lemma Inv_worker_id s k w :
  Inv reply rnd s -> workers s !! k = Some w ->
  innerDSPId w = S k /\ (1 <= innerDSPId w <= MaxDSP)%nat.
Proof.
  intros HI Hw. pose proof (Inv_length_workers _ _ _ HI) as Hlen.
  pose proof (lookup_lt_Some _ _ _ Hw) as Hk.
  assert (map innerDSPId (workers s) !! k = Some (innerDSPId w)) as Hid.
  { change (map innerDSPId (workers s)) with (innerDSPId <$> workers s).
    by rewrite list_lookup_fmap, Hw. }
  rewrite (inv_ids _ _ _ HI) in Hid. apply lookup_seq in Hid as [-> _]. lia.
Qed.

(** Once the queue is closed, or the counter is back at zero with all
    workers started, every worker has returned. *)
Lemma Inv_all_exited s :
  Inv reply rnd s -> wgDSP s = 0 -> Forall (fun w => wpc w = WExit) (workers s).
Proof. intros HI Hwg. apply all_exited. rewrite (inv_wg _ _ _ HI) in Hwg. lia. Qed.

Lemma step_worker_exited k s :
  Forall (fun w => wpc w = WExit) (workers s) -> step_worker reply k s = None.
Proof.
  intros Hall. unfold step_worker. destruct (workers s !! k) as [w|] eqn:Hw; [|done].
  cbn. rewrite Forall_forall in Hall. by rewrite (Hall w) by (by eapply list_elem_of_lookup_2).
Qed.

End Facts.

(** A round looks at the replies of the bidders [1..MaxDSP] only. *)
Lemma step_ext reply reply' rnd g s :
  Inv reply rnd s -> (forall k, (1 <= k <= MaxDSP)%nat -> reply k = reply' k) ->
  step reply g s = step reply' g s.
Proof.
  intros HI Hagree. destruct g as [| |k]; [done|done|]. cbn [step]. unfold step_worker.
  destruct (workers s !! k) as [w|] eqn:Hw; [|done]. cbn.
  destruct (Inv_worker_id _ _ _ _ _ HI Hw) as [_ Hid]. by rewrite (Hagree _ Hid).
Qed.

Lemma run_ext reply reply' rnd sched s :
  Inv reply rnd s -> (forall k, (1 <= k <= MaxDSP)%nat -> reply k = reply' k) ->
  run reply sched s = run reply' sched s.
Proof.
  intros HI Hagree. revert s HI. induction sched as [|g sched IH]; intros s HI; [done|].
  cbn [run]. rewrite <- (step_ext reply reply' rnd g s HI Hagree).
  destruct (step reply g s) as [s'|] eqn:Hstep; cbn; [|by apply IH].
  apply IH. by eapply Inv_step.
Qed.

Lemma respondents_ext reply reply' :
  (forall k, (1 <= k <= MaxDSP)%nat -> reply k = reply' k) ->
  forall l, Forall (fun k => (1 <= k <= MaxDSP)%nat) l ->
    flat_map (result_of reply) l = flat_map (result_of reply') l.
Proof.
  intros Hagree l Hl. induction Hl as [|k l Hk Hl IH]; [done|]. cbn.
  unfold result_of at 1 3. by rewrite (Hagree k Hk), IH.
Qed.

(** The replies of three bidders as a function. *)
Lemma three_replies reply :
  forall k, (1 <= k <= MaxDSP)%nat ->
    reply k = match k with
              | 1%nat => reply 1%nat
              | 2%nat => reply 2%nat
              | 3%nat => reply 3%nat
              | _ => GetFailed
              end.
Proof. unfold MaxDSP. intros k Hk. by destruct k as [|[|[|[|k]]]]; try lia. Qed.

Lemma orders_of_three (order : list nat) :
  order ≡ₚ seq 1 MaxDSP ->
  order = [1; 2; 3]%nat \/ order = [1; 3; 2]%nat \/ order = [2; 1; 3]%nat
  \/ order = [2; 3; 1]%nat \/ order = [3; 1; 2]%nat \/ order = [3; 2; 1]%nat.
Proof.
  intros Hp. pose proof (Permutation_length Hp) as Hlen.
  assert (NoDup order) as Hnd by (rewrite Hp; apply NoDup_seq).
  assert (forall k, k ∈ order -> k = 1 \/ k = 2 \/ k = 3)%nat as Hin.
  { intros k Hk. rewrite Hp in Hk. apply elem_of_seq in Hk. unfold MaxDSP in Hk. lia. }
  destruct order as [|a [|b [|c [|d order]]]]; try discriminate Hlen.
  apply NoDup_cons in Hnd as [Ha Hnd]. apply NoDup_cons in Hnd as [Hb Hnd].
  apply not_elem_of_cons in Ha as [Hab Ha]. apply not_elem_of_cons in Ha as [Hac _].
  apply not_elem_of_cons in Hb as [Hbc _].
  pose proof (Hin a ltac:(apply elem_of_cons; auto)) as Ha'.
  pose proof (Hin b ltac:(rewrite !elem_of_cons; auto)) as Hb'.
  pose proof (Hin c ltac:(rewrite !elem_of_cons; auto)) as Hc'.
  destruct Ha' as [->|[->| ->]], Hb' as [->|[->| ->]], Hc' as [->|[->| ->]];
    try done; auto 10.
Qed.

(** Serving the bidders one by one lets the answers arrive in that order. *)
Lemma one_by_one_arrivals reply rnd order :
  order ≡ₚ seq 1 MaxDSP ->
  let s := run reply (one_by_one order) (init rnd) in
  main s = MSelect
  /\ dspResults s = flat_map (result_of reply) order
  /\ main (run reply [GMain] s) = MDone (pick_winner (flat_map (result_of reply) order)).
Proof.
  intros Horder. cbv zeta.
  assert (Forall (fun k => (1 <= k <= MaxDSP)%nat) order) as Hids.
  { apply Forall_forall. intros k Hk. rewrite Horder in Hk. apply elem_of_seq in Hk. lia. }
  rewrite (respondents_ext _ _ (three_replies reply) order Hids).
  rewrite (run_ext _ _ rnd _ _ (Inv_init _ rnd) (three_replies reply)).
  destruct (reply 1%nat) as [| |r1], (reply 2%nat) as [| |r2], (reply 3%nat) as [| |r3];
    destruct (orders_of_three order Horder) as [->|[->|[->|[->|[->| ->]]]]];
    lazy; done.
Qed.

End ScheduleFacts.

(** ** Winner selection: claims C2, C3 and C4 *)

Module SelectClaims.
Import Bid Select Round F64Facts SelectFacts Examples.

(** C2.  For a non-empty [collectedResults] (at most [MaxDSP] entries, prices
    as [json.Unmarshal] yields them) the pick ends with a winner that is one
    of the entries, and no entry has a higher [BidPrice]. *)
Theorem winner_has_maximum_offer (collectedResults : DspResults) :
  collectedResults <> [] ->
  (length collectedResults <= MaxDSP)%nat ->
  Forall price_ok collectedResults ->
  exists winner,
    pick_winner collectedResults = Winner winner
    /\ winner ∈ collectedResults
    /\ forall r, r ∈ collectedResults -> F64.leb (BidPrice r) (BidPrice winner) = true.
Proof.
  intros Hne _ Hok. destruct (winner_of_Some _ Hne) as [w Hw].
  exists w. rewrite pick_winner_spec, Hw. split; [done|]. by apply winner_of_max.
Qed.

Lemma winner_has_maximum_offer_witness :
  exists winner,
    pick_winner [bid3_15; bid1_20] = Winner winner
    /\ winner ∈ [bid3_15; bid1_20]
    /\ forall r, r ∈ [bid3_15; bid1_20] -> F64.leb (BidPrice r) (BidPrice winner) = true.
Proof.
  apply (winner_has_maximum_offer [bid3_15; bid1_20]).
  - discriminate.
  - vm_compute. lia.
  - repeat constructor.
Defined.

(** C3, as stated, fails: bidders 1 and 2 both offer 20.00 and bidder 2, who
    arrived second, wins; with the arrivals swapped bidder 1 wins.  So it is
    in a whole round where bidders 1 and 2 answer 20.00 and bidder 3 answers
    15.00: served in turn, the workers deliver in the order 1, 2, 3 and
    bidder 2 wins. *)
Lemma tie_goes_to_the_later_arrival :
  pick_winner [bid1_20; bid2_20] = Winner bid2_20
  /\ F64.eqb (BidPrice bid1_20) (BidPrice bid2_20) = true
  /\ (DSPId bid1_20 < DSPId bid2_20)%nat
  /\ pick_winner [bid2_20; bid1_20] = Winner bid1_20
  /\ main (run reply_tie round_robin (init rnd_half)) = MDone (Winner bid2_20).
Proof. by vm_compute. Qed.

(** C3, amended.  The winner is the entry of [collectedResults] that arrived
    last among those with the highest [BidPrice]: every earlier entry is at
    most as high, every later entry strictly lower.  [Less] compares prices
    only; the identity plays no part. *)
Theorem winner_is_last_highest_arrival (collectedResults : DspResults) :
  collectedResults <> [] ->
  (length collectedResults <= MaxDSP)%nat ->
  Forall price_ok collectedResults ->
  exists winner earlier later,
    pick_winner collectedResults = Winner winner
    /\ collectedResults = earlier ++ winner :: later
    /\ Forall (fun r => F64.leb (BidPrice r) (BidPrice winner) = true) earlier
    /\ Forall (fun r => F64.ltb (BidPrice r) (BidPrice winner) = true) later.
Proof.
  intros Hne _ Hok. destruct (winner_of_Some _ Hne) as [w Hw].
  destruct (winner_of_split _ _ Hok Hw) as (l1 & l2 & ? & ? & ?).
  exists w, l1, l2. by rewrite pick_winner_spec, Hw.
Qed.

Lemma winner_is_last_highest_arrival_witness :
  exists winner earlier later,
    pick_winner [bid1_20; bid2_20; bid3_15] = Winner winner
    /\ [bid1_20; bid2_20; bid3_15] = earlier ++ winner :: later
    /\ Forall (fun r => F64.leb (BidPrice r) (BidPrice winner) = true) earlier
    /\ Forall (fun r => F64.ltb (BidPrice r) (BidPrice winner) = true) later.
Proof.
  apply (winner_is_last_highest_arrival [bid1_20; bid2_20; bid3_15]).
  - discriminate.
  - vm_compute. lia.
  - repeat constructor.
Defined.

(** C4, as stated, fails: the two arrival orders of a tie give two winners,
    and two interleavings of one round with the same replies (20.00, 20.00,
    15.00) end with two winners. *)
Lemma permuted_tie_changes_winner :
  [bid1_20; bid2_20] ≡ₚ [bid2_20; bid1_20]
  /\ pick_winner [bid1_20; bid2_20] = Winner bid2_20
  /\ pick_winner [bid2_20; bid1_20] = Winner bid1_20
  /\ DSPId bid2_20 <> DSPId bid1_20
  /\ main (run reply_tie round_robin (init rnd_half)) = MDone (Winner bid2_20)
  /\ main (run reply_tie second_bidder_first (init rnd_half)) = MDone (Winner bid1_20).
Proof. split; [apply Permutation_swap|]. by vm_compute. Qed.

(** C4, amended.  The pick on a permutation of [collectedResults] ends with a
    winner of the same [BidPrice]; it is the same entry when no other entry
    reaches the winner's price. *)
Theorem permutation_keeps_winning_offer (collectedResults permuted : DspResults) :
  collectedResults <> [] ->
  (length collectedResults <= MaxDSP)%nat ->
  Forall price_ok collectedResults ->
  collectedResults ≡ₚ permuted ->
  exists winner winner',
    pick_winner collectedResults = Winner winner
    /\ pick_winner permuted = Winner winner'
    /\ F64.eqb (BidPrice winner) (BidPrice winner') = true
    /\ ((forall r, r ∈ collectedResults ->
           F64.leb (BidPrice winner) (BidPrice r) = true -> r = winner) ->
        winner' = winner).
Proof.
  intros Hne _ Hok Hperm.
  assert (permuted <> []) as Hne'.
  { intros ->. by apply Permutation_nil_r in Hperm. }
  assert (Forall price_ok permuted) as Hok' by (by rewrite <- Hperm).
  destruct (winner_of_Some _ Hne) as [w Hw]. destruct (winner_of_Some _ Hne') as [w' Hw'].
  exists w, w'. rewrite !pick_winner_spec, Hw, Hw'.
  destruct (winner_of_max _ _ Hok Hw) as [Hin Hmax].
  destruct (winner_of_max _ _ Hok' Hw') as [Hin' Hmax'].
  split_and!; [done..| |].
  - apply leb_antisym; [apply Hmax'; by rewrite <- Hperm|apply Hmax; by rewrite Hperm].
  - intros Huniq. apply Huniq.
    + by rewrite Hperm.
    + apply Hmax'. by rewrite <- Hperm.
Qed.

Lemma permutation_keeps_winning_offer_witness :
  exists winner winner',
    pick_winner [bid3_15; bid1_20] = Winner winner
    /\ pick_winner [bid1_20; bid3_15] = Winner winner'
    /\ F64.eqb (BidPrice winner) (BidPrice winner') = true
    /\ ((forall r, r ∈ [bid3_15; bid1_20] ->
           F64.leb (BidPrice winner) (BidPrice r) = true -> r = winner) ->
        winner' = winner).
Proof.
  apply (permutation_keeps_winning_offer [bid3_15; bid1_20] [bid1_20; bid3_15]).
  - discriminate.
  - vm_compute. lia.
  - repeat constructor.
  - apply Permutation_swap.
Defined.


End SelectClaims.

(** ** The bid endpoint: claims C5 and C6 *)

Module BidClaims.
Import Strconv Url Bid F64Facts StrconvFacts BidFacts Examples.

(** C6, as stated, fails: [p=-1.5] does not parse as a non-negative real, and
    the endpoint answers 200 with the price -1.50. *)
Lemma negative_floor_is_priced :
  Get (req "3" "-1.5") "p" = "-1.5"%string
  /\ HandlerBid ParseFloat_plain (req "3" "-1.5") rnd_small 8
     = JSON 90 {| Price := cents (-150) |}.
Proof. by vm_compute. Qed.

(** C6, amended.  When the [dsp] of the query is not accepted (missing, not a
    string of decimal digits, or a value outside [1..MaxDSP]) or
    [strconv.ParseFloat] rejects its [p] (a missing [p] is read as the empty
    string), the endpoint answers 400 with one of its two plain-text
    reasons, and no price.  The sign of [p] is not looked at. *)
Theorem rejected_bid_request_gets_400 ParseFloat vars rnd rndn :
  ~ dsp_accepted vars
  \/ ParseFloat (Get vars "p") = None
  \/ (vars !! "p" = None /\ ParseFloat EmptyString = None) ->
  exists msg,
    HandlerBid ParseFloat vars rnd rndn = Error msg StatusBadRequest
    /\ (msg = "bad dsp parameter" \/ msg = "bad p parameter")%string.
Proof.
  intros H.
  assert (~ dsp_accepted vars \/ ParseFloat (Get vars "p") = None) as H'.
  { destruct H as [H|[H|[Hm H]]]; [by left|by right|right]. by rewrite Get_missing. }
  clear H. rename H' into H.
  destruct (ParseUint (Get vars "dsp")) as [e|dsp] eqn:Hd.
  { exists "bad dsp parameter"%string. split; [|by left].
    apply HandlerBid_bad_dsp. intros (d & Hd' & _). congruence. }
  destruct (decide (1 <= dsp <= N.of_nat MaxDSP)%N) as [Hr|Hr].
  - assert (dsp_accepted vars) as Hacc by (by exists dsp).
    destruct H as [H|H]; [done|]. exists "bad p parameter"%string. split; [|by right].
    by rewrite HandlerBid_accepted, H.
  - exists "bad dsp parameter"%string. split; [|by left].
    apply HandlerBid_bad_dsp. intros (d & Hd' & ?). congruence.
Qed.

Lemma rejected_bid_request_gets_400_witness :
  exists msg,
    HandlerBid ParseFloat_plain (req "4" "1.5") rnd_small 0 = Error msg StatusBadRequest
    /\ (msg = "bad dsp parameter" \/ msg = "bad p parameter")%string.
Proof.
  apply (rejected_bid_request_gets_400 ParseFloat_plain (req "4" "1.5") rnd_small 0).
  left. intros (dsp & Hd & Hr). vm_compute in Hd. injection Hd as <-. vm_compute in Hr.
  destruct Hr as [_ Hr]. by apply Hr.
Defined.


(** A floor of [10^307] overflows when it is scaled by 100: the price is
    [+Inf], which [json.Marshal] refuses, and the answer is 500. *)
Lemma huge_floor_gets_500 :
  HandlerBid ParseFloat_plain (req "2" ten_pow_307) rnd_small 0
  = Error "json: unsupported value: +Inf" StatusInternalServerError.
Proof. by vm_compute. Qed.



End BidClaims.

(** ** The auction round: claims C1, C7, C8, C9 and C10 *)

Module RoundClaims.
Import Strconv Url Bid Query Select Round.
Import F64Facts StrconvFacts BidFacts SelectFacts RoundFacts QueryFacts HandlerFacts Examples.

(** C1 (the code departs from it).  When every bidder fails, [dspResults] is
    empty when the round reaches the winner pick, and the pick reads index
    [len(dspResults)-1 = -1]: the handler panics, whatever the interleaving.
    The claim asks for a reported [NoRespondents] and no read. *)
Theorem no_respondent_round_panics reply rnd s o :
  (forall dspId, reply dspId = GetFailed \/ reply dspId = BadBody) ->
  reachable reply rnd s -> main s = MDone o ->
  dspResults s = [] /\ o = PanicIndex (-1) 0.
Proof.
  intros Hfail HI%reachable_Inv Hm.
  destruct (Inv_finished _ _ _ _ HI Hm) as (_ & Hres & arrived & Harr & ->).
  assert (respondents reply = []) as Hnone.
  { unfold respondents. induction (seq 1 MaxDSP) as [|i l IH]; cbn; [done|].
    rewrite IH, app_nil_r. unfold result_of. by destruct (Hfail i) as [-> | ->]. }
  rewrite Hnone in Hres, Harr. apply Permutation_nil_r in Hres, Harr. by subst.
Qed.

Lemma no_respondent_round_panics_witness :
  let s := run reply_none round_robin (init rnd_half) in
  main s = MDone (PanicIndex (-1) 0) /\ dspResults s = [].
Proof.
  split; [by vm_compute|].
  apply (no_respondent_round_panics reply_none rnd_half
           (run reply_none round_robin (init rnd_half)) (PanicIndex (-1) 0)).
  - intros dspId. by left.
  - apply run_reachable, reach_init.
  - by vm_compute.
Defined.

(** C7.  In every state of a round the floor is the one drawn at the start,
    the requests issued so far are requests [makeBidURL floor dspId] for
    distinct [dspId] in [1..MaxDSP], and once [wgDSP.Wait()] has returned
    they are exactly one request per identity, all built from that floor.
    Every round can be run to that point.  Each request carries what it was
    built from: no two requests are the same text; the query the bid endpoint
    finds in a request holds the keys [p] and [dsp] and no other, its [p] is
    the text [FormatFloat(floor, 'f', 3, 64)] of the one floor of the round,
    and its [dsp] is the text that [ParseUint] reads as the identity; after
    [wgDSP.Wait()] the identities so read are 1, ..., [MaxDSP], each once. *)
Theorem one_call_per_bidder_same_floor reply rnd s :
  reachable reply rnd s ->
  floor s = F64.mul rnd (F64.of_Z 10)
  /\ calls s ⊆+ map (makeBidURL (floor s)) (seq 1 MaxDSP)
  /\ (waited s -> calls s ≡ₚ map (makeBidURL (floor s)) (seq 1 MaxDSP))
  /\ (exists n s', steps reply n s s' /\ waited s'
        /\ calls s' ≡ₚ map (makeBidURL (floor s)) (seq 1 MaxDSP))
  /\ NoDup (calls s)
  /\ (forall url, url ∈ calls s ->
        exists dspId, (1 <= dspId <= MaxDSP)%nat
          /\ url = makeBidURL (floor s) dspId
          /\ dom (ParseQuery (query_of url)) = {[ "p"; "dsp" ]}
          /\ Get (ParseQuery (query_of url)) "p" = FormatFloat_f (floor s) 3
          /\ Get (ParseQuery (query_of url)) "dsp" = Itoa dspId
          /\ ParseUint (Get (ParseQuery (query_of url)) "dsp") = inr (N.of_nat dspId))
  /\ (waited s ->
        (fun url => ParseUint (Get (ParseQuery (query_of url)) "dsp")) <$> calls s
        ≡ₚ (fun dspId => inr (N.of_nat dspId)) <$> seq 1 MaxDSP).
Proof.
  intros Hs. pose proof (reachable_Inv _ _ _ Hs) as HI.
  assert (forall s1, Inv reply rnd s1 -> waited s1 ->
            calls s1 ≡ₚ map (makeBidURL (floor s1)) (seq 1 MaxDSP)) as Hwaited.
  { intros s1 HI1 Hw. pose proof (inv_sync _ _ _ HI1) as Hsync. unfold sync_ok, waited in *.
    eapply Inv_after_wait; [exact HI1|..]; destruct (main s1); destruct_and?; done. }
  pose proof (Inv_calls_submseteq _ _ _ HI) as Hsub.
  split_and!.
  - by destruct HI.
  - done.
  - by apply Hwaited.
  - destruct (Inv_terminates _ _ _ HI) as (n & s' & Hn & Hfin).
    pose proof (reachable_Inv _ _ _ (steps_reachable _ _ _ _ _ Hs Hn)) as HI'.
    assert (waited s') as Hw.
    { unfold finished, waited in *. by destruct (main s'). }
    exists n, s'. split_and!; [done..|].
    rewrite (Hwaited s' HI' Hw). by rewrite (inv_floor _ _ _ HI), (inv_floor _ _ _ HI').
  - eapply submseteq_NoDup; [exact Hsub|].
    assert (Inj (=) (=) (makeBidURL (floor s))) as Hinj.
    { intros i j. apply makeBidURL_inj. }
    apply (NoDup_fmap_2 (makeBidURL (floor s))), NoDup_seq.
  - intros url Hurl.
    assert (url ∈ map (makeBidURL (floor s)) (seq 1 MaxDSP)) as Hin.
    { eapply elem_of_submseteq; [exact Hurl|exact Hsub]. }
    apply list_elem_of_fmap in Hin as (dspId & -> & Hid%elem_of_seq).
    assert (1 <= dspId <= MaxDSP)%nat as Hr by lia.
    exists dspId. rewrite Get_dsp_makeBidURL, Get_p_makeBidURL.
    split; [exact Hr|]. split; [done|].
    split; [|split_and!; [done|done|by apply ParseUint_Itoa_round]].
    destruct (Query_makeBidURL (floor s) dspId) as (_ & -> & _).
    unfold Add. rewrite !dom_insert_L, dom_empty_L. set_solver.
  - intros Hw. rewrite (Hwaited s HI Hw).
    change (map (makeBidURL (floor s)) (seq 1 MaxDSP))
      with (makeBidURL (floor s) <$> seq 1 MaxDSP).
    rewrite <- list_fmap_compose. erewrite list_fmap_ext; [reflexivity|].
    intros i dspId Hid%list_elem_of_lookup_2%elem_of_seq. cbn.
    rewrite Get_dsp_makeBidURL. apply ParseUint_Itoa_round. lia.
Qed.

Lemma one_call_per_bidder_same_floor_witness :
  let s := run reply_one round_robin (init rnd_half) in
  calls s = ["http://0:8080/bid?dsp=1&p=5.000"; "http://0:8080/bid?dsp=2&p=5.000";
             "http://0:8080/bid?dsp=3&p=5.000"]%string
  /\ floor s = F64.mul rnd_half (F64.of_Z 10)
  /\ calls s ⊆+ map (makeBidURL (floor s)) (seq 1 MaxDSP)
  /\ (waited s -> calls s ≡ₚ map (makeBidURL (floor s)) (seq 1 MaxDSP))
  /\ (exists n s', steps reply_one n s s' /\ waited s'
        /\ calls s' ≡ₚ map (makeBidURL (floor s)) (seq 1 MaxDSP))
  /\ NoDup (calls s)
  /\ (forall url, url ∈ calls s ->
        exists dspId, (1 <= dspId <= MaxDSP)%nat
          /\ url = makeBidURL (floor s) dspId
          /\ dom (ParseQuery (query_of url)) = {[ "p"; "dsp" ]}
          /\ Get (ParseQuery (query_of url)) "p" = FormatFloat_f (floor s) 3
          /\ Get (ParseQuery (query_of url)) "dsp" = Itoa dspId
          /\ ParseUint (Get (ParseQuery (query_of url)) "dsp") = inr (N.of_nat dspId))
  /\ (waited s ->
        (fun url => ParseUint (Get (ParseQuery (query_of url)) "dsp")) <$> calls s
        ≡ₚ (fun dspId => inr (N.of_nat dspId)) <$> seq 1 MaxDSP).
Proof.
  cbv zeta. split; [by vm_compute|].
  apply (one_call_per_bidder_same_floor reply_one rnd_half).
  apply run_reachable, reach_init.
Defined.

(** C8 (the code departs from it for one pattern).  For every pattern of
    replies and every interleaving: only bidders whose body decoded have an
    entry in the queue or in [dspResults]; no goroutine panics before the
    pick; a round that has not ended can always move, no execution is longer
    than 22 steps and every state can be run to the end; at the end [dspResults] holds exactly the decoded replies and the
    pick is made among them.  With at least one respondent the round ends
    with a highest respondent as winner; with none it ends in the panic of
    C1. *)
Theorem bidder_failures_are_contained reply rnd s :
  reachable reply rnd s ->
  (forall r, r ∈ dspResults s ++ queue s ->
     reply (DSPId r) = Body {| Price := BidPrice r |})
  /\ Forall (fun w => wpc w <> WPanic) (workers s)
  /\ (finished s \/ exists g s', step reply g s = Some s')
  /\ (forall n, steps reply n (init rnd) s -> (n <= 22)%nat)
  /\ (exists n s', steps reply n s s' /\ finished s')
  /\ (forall o, main s = MDone o ->
        dspResults s ≡ₚ respondents reply
        /\ exists arrived,
             arrived ≡ₚ respondents reply /\ o = pick_winner arrived
             /\ (respondents reply = [] -> o = PanicIndex (-1) 0)
             /\ (respondents reply <> [] -> Forall price_ok (respondents reply) ->
                 exists winner, o = Winner winner /\ winner ∈ respondents reply
                   /\ forall r, r ∈ respondents reply ->
                        F64.leb (BidPrice r) (BidPrice winner) = true)).
Proof.
  intros Hs. pose proof (reachable_Inv _ _ _ Hs) as HI. split_and!.
  - intros r Hr. eapply elem_of_respondents, elem_of_submseteq; [exact Hr|].
    by eapply Inv_results_submseteq.
  - by eapply reachable_no_panic.
  - by eapply Inv_progress.
  - intros n Hn%steps_measure. rewrite measure_init in Hn. lia.
  - by eapply Inv_terminates.
  - intros o Hm. destruct (Inv_finished _ _ _ _ HI Hm) as (_ & Hres & arrived & Harr & ->).
    split; [done|]. exists arrived. split_and!; [done..| |].
    + intros Hnone. rewrite Hnone in Harr. by apply Permutation_nil_r in Harr as ->.
    + intros Hsome Hok.
      assert (arrived <> []) as Hne.
      { intros ->. by apply Permutation_nil_l in Harr. }
      assert (Forall price_ok arrived) as Hok' by (by rewrite Harr).
      destruct (winner_of_Some _ Hne) as [w Hw].
      destruct (winner_of_max _ _ Hok' Hw) as [Hin Hmax].
      exists w. rewrite pick_winner_spec, Hw. split_and!; [done|by rewrite <- Harr|].
      intros r Hr. apply Hmax. by rewrite Harr.
Qed.

Lemma bidder_failures_are_contained_witness :
  let s := run reply_one round_robin (init rnd_half) in
  main s = MDone (Winner {| DSPId := 1; BidPrice := cents 1020 |})
  /\ forall r, r ∈ dspResults s ++ queue s ->
       reply_one (DSPId r) = Body {| Price := BidPrice r |}.
Proof.
  split; [by vm_compute|].
  apply (bidder_failures_are_contained reply_one rnd_half).
  apply run_reachable, reach_init.
Defined.

(** C9.  In every state of a round every entry of [dspResults] carries an
    identity in [1..MaxDSP], no identity occurs twice, and there are at most
    [MaxDSP] entries. *)
Theorem collected_results_bounded reply rnd s :
  reachable reply rnd s ->
  Forall (fun r => (1 <= DSPId r <= MaxDSP)%nat) (dspResults s)
  /\ (length (dspResults s) <= MaxDSP)%nat
  /\ NoDup (map DSPId (dspResults s)).
Proof.
  intros Hs%reachable_ids. split_and!.
  - apply Forall_forall. intros r Hr.
    assert (DSPId r ∈ seq 1 MaxDSP) as Hin.
    { eapply elem_of_submseteq; [|exact Hs]. apply list_elem_of_fmap. eauto. }
    apply elem_of_seq in Hin. lia.
  - apply submseteq_length in Hs. by rewrite length_map, length_seq in Hs.
  - eapply submseteq_NoDup; [exact Hs|]. apply NoDup_seq.
Qed.

Lemma collected_results_bounded_witness :
  let s := run reply_all round_robin_rev (init rnd_half) in
  Forall (fun r => (1 <= DSPId r <= MaxDSP)%nat) (dspResults s)
  /\ (length (dspResults s) <= MaxDSP)%nat
  /\ NoDup (map DSPId (dspResults s)).
Proof.
  apply (collected_results_bounded reply_all rnd_half).
  apply run_reachable, reach_init.
Defined.



End RoundClaims.

(** * Further properties of the handlers *)

(** ** The bid endpoint and the bid URL *)

Module BidProps.
Import Strconv Url Bid Query F64Facts StrconvFacts BidFacts QueryFacts HandlerFacts.
Import MagnitudeFacts SignFacts PricingFacts Examples.

(** X1.  The [dsp] texts the endpoint accepts are one of the digits 1, 2, 3 after
    any number of zeros, and nothing else: no sign, no space, no point. *)
Theorem accepted_dsp_texts vars :
  dsp_accepted vars
  <-> exists k c, Get vars "dsp" = zeros k (String c EmptyString)
                  /\ (c = "1" \/ c = "2" \/ c = "3")%char.
Proof.
  split.
  - intros (d & Hd & Hr). unfold MaxDSP in Hr.
    assert (ParseUint_loop (Get vars "dsp") 0 = inr d) as Hl.
    { unfold ParseUint in Hd. by destruct (Get vars "dsp"). }
    destruct (ParseUint_loop_small _ _ Hl ltac:(lia)) as [k Hk].
    exists k, (digit_char d). split; [done|].
    assert (d = 1 \/ d = 2 \/ d = 3)%N as [->|[->| ->]] by lia; auto.
  - intros (k & c & Hs & Hc). unfold dsp_accepted. rewrite Hs, ParseUint_zeros.
    destruct Hc as [->|[->| ->]]; [exists 1%N|exists 2%N|exists 3%N]; by vm_compute.
Qed.

(** X2.  The answers of the endpoint, each with the requests that get it: 400
    for the [dsp], 400 for the [p] (looked at only after the [dsp]), 500 when
    the price is not a number, 200 with the price otherwise.  There is no
    other answer. *)
Theorem bid_answer_kinds ParseFloat vars rnd rndn :
  let answer := HandlerBid ParseFloat vars rnd rndn in
  let price floor := round2 (F64.add floor (F64.mul rnd (F64.of_Z 100))) in
  (answer = Error "bad dsp parameter" StatusBadRequest <-> ~ dsp_accepted vars)
  /\ (answer = Error "bad p parameter" StatusBadRequest
      <-> dsp_accepted vars /\ ParseFloat (Get vars "p") = None)
  /\ (forall err,
        answer = Error err StatusInternalServerError
        <-> dsp_accepted vars
            /\ exists floor, ParseFloat (Get vars "p") = Some floor
                  /\ Marshal {| Price := price floor |} = inl err)
  /\ (forall d body,
        answer = JSON d body
        <-> dsp_accepted vars /\ d = 10 * (rndn + 1)
            /\ exists floor, ParseFloat (Get vars "p") = Some floor
                  /\ body = {| Price := price floor |}
                  /\ F64.is_number (price floor) = true).
Proof.
  cbv zeta. destruct (dsp_accepted_dec vars) as [Hacc|Hno].
  - rewrite HandlerBid_accepted by done.
    destruct (ParseFloat (Get vars "p")) as [floor|] eqn:Hp.
    + destruct (Marshal _) as [err|body] eqn:Hm.
      * split_and!; [split; [done|tauto]|split; [done|by intros [_ ?]]| |].
        -- intros err'. split.
           ++ intros [= <-]. split; [done|]. by exists floor.
           ++ intros (_ & fl & [= <-] & Hm'). congruence.
        -- intros d body. split; [done|].
           intros (_ & _ & fl & [= <-] & _ & Hn). apply Marshal_number in Hn. congruence.
      * apply Marshal_inr in Hm as [-> Hn]. cbn [Price] in Hn.
        split_and!; [split; [done|tauto]|split; [done|by intros [_ ?]]| |].
        -- intros err'. split; [done|].
           intros (_ & fl & [= <-] & Hm'). apply Marshal_inl in Hm'. cbn [Price] in Hm'. congruence.
        -- intros d body. split.
           ++ intros [= <- <-]. split_and!; [done..|]. by exists floor.
           ++ intros (_ & -> & fl & [= <-] & -> & _). done.
    + split_and!; [split; [done|tauto]|split; [done|done]| |].
      * intros err. split; [done|]. by intros (_ & fl & ? & _).
      * intros d body. split; [done|]. by intros (_ & _ & fl & ? & _).
  - rewrite HandlerBid_bad_dsp by done.
    split_and!; [done|split; [done|tauto]| |].
    + intros err. split; [done|tauto].
    + intros d body. split; [done|tauto].
Qed.

(** X3.  The sleep before an answer is 10, 20, ... or 90 ms, [rand.Intn(9)]
    being one of 0..8: below the timeout of the client that [HandlerAuction]
    asks with and below the write timeout of the server. *)
Theorem bid_delay_below_timeouts ParseFloat vars rnd rndn d body :
  0 <= rndn < 9 ->
  HandlerBid ParseFloat vars rnd rndn = JSON d body ->
  10 <= d <= 90 /\ d mod 10 = 0 /\ d < clientTimeoutMs /\ d < serverTimeoutMs.
Proof.
  intros Hn H. unfold HandlerBid in H.
  destruct (ParseUint _); [done|]. destruct (_ || _); [done|].
  destruct (ParseFloat _); [|done]. destruct (Marshal _); [done|].
  injection H as <- _. unfold clientTimeoutMs, serverTimeoutMs.
  split_and!; try lia. rewrite Z.mul_comm. apply Z.mod_mul. lia.
Qed.

Lemma bid_delay_below_timeouts_witness :
  10 <= 50 <= 90 /\ 50 mod 10 = 0 /\ 50 < clientTimeoutMs /\ 50 < serverTimeoutMs.
Proof.
  apply (bid_delay_below_timeouts ParseFloat_plain (req "2" "5.000") rnd_half 4 50
           {| Price := round2 (F64.add (F64.of_Z 5) (F64.mul rnd_half (F64.of_Z 100))) |}).
  - lia.
  - by vm_compute.
Defined.

(** X4.  A [p] that [ParseFloat] reads as NaN or an infinity (Go reads the words
    [NaN], [Inf], [+Inf], [-Inf], [Infinity]) is not refused with 400: the
    price computed from it is no number and the answer is 500, whatever the
    draw. *)
Theorem non_number_floor_gets_500 ParseFloat vars rnd rndn floor :
  dsp_accepted vars ->
  ParseFloat (Get vars "p") = Some floor ->
  F64.is_number floor = false ->
  exists err,
    HandlerBid ParseFloat vars rnd rndn = Error err StatusInternalServerError
    /\ (err = "json: unsupported value: NaN" \/ err = "json: unsupported value: +Inf"
        \/ err = "json: unsupported value: -Inf")%string.
Proof.
  intros Hacc Hp Hx. rewrite HandlerBid_accepted, Hp by done. unfold round2.
  generalize (F64.mul rnd (F64.of_Z 100)). intros u.
  destruct floor as [s|s| |s m e]; try discriminate Hx;
    destruct u as [s'|s'| |s' m' e']; try destruct s; try destruct s'; cbn; eauto.
Qed.

Lemma non_number_floor_gets_500_witness :
  exists err,
    HandlerBid (fun _ => Some S754_nan) (req "1" "NaN") rnd_half 0
    = Error err StatusInternalServerError
    /\ (err = "json: unsupported value: NaN" \/ err = "json: unsupported value: +Inf"
        \/ err = "json: unsupported value: -Inf")%string.
Proof.
  apply (non_number_floor_gets_500 (fun _ => Some S754_nan) (req "1" "NaN") rnd_half 0 S754_nan).
  - exists 1%N. by vm_compute.
  - reflexivity.
  - reflexivity.
Defined.

(** X5.  Which of the accepted bidders asks makes no difference to the answer:
    the [dsp] is checked and not used. *)
Theorem bidder_identity_is_not_used ParseFloat vars vars' rnd rndn :
  dsp_accepted vars -> dsp_accepted vars' ->
  Get vars "p" = Get vars' "p" ->
  HandlerBid ParseFloat vars rnd rndn = HandlerBid ParseFloat vars' rnd rndn.
Proof. intros H1 H2 Hp. rewrite !HandlerBid_accepted by done. by rewrite Hp. Qed.

Lemma bidder_identity_is_not_used_witness :
  HandlerBid ParseFloat_plain (req "1" "5.000") rnd_half 4
  = HandlerBid ParseFloat_plain (req "3" "5.000") rnd_half 4.
Proof.
  apply (bidder_identity_is_not_used ParseFloat_plain (req "1" "5.000") (req "3" "5.000")).
  - exists 1%N. by vm_compute.
  - exists 3%N. by vm_compute.
  - reflexivity.
Defined.

(** X6.  The query of a bid URL, cut out of its text and parsed as the bid
    endpoint does, holds the two parameters [makeBidURL] was given and no
    other key, for every float64 and every identity. *)
Theorem bid_url_query_round_trip floor dspId :
  let vars := ParseQuery (query_of (makeBidURL floor dspId)) in
  makeBidURL floor dspId = URL_String (bid_addr floor dspId)
  /\ vars = URL_Query (bid_addr floor dspId)
  /\ vars = Add (Add ∅ "p" (FormatFloat_f floor 3)) "dsp" (Itoa dspId)
  /\ dom vars = {[ "p"; "dsp" ]}
  /\ Get vars "p" = FormatFloat_f floor 3
  /\ Get vars "dsp" = Itoa dspId.
Proof.
  cbv zeta. destruct (Query_makeBidURL floor dspId) as (H1 & H2 & H3 & H4).
  split_and!; [done..| |done|done].
  rewrite H2. unfold Add. rewrite !dom_insert_L, dom_empty_L. set_solver.
Qed.

(** X7.  Two bid URLs are the same text exactly when they name the same bidder
    and carry the same text of the floor. *)
Theorem bid_urls_differ_by_bidder floor floor' dspId dspId' :
  makeBidURL floor dspId = makeBidURL floor' dspId'
  <-> dspId = dspId' /\ FormatFloat_f floor 3 = FormatFloat_f floor' 3.
Proof.
  split.
  - intros H. split.
    + apply Itoa_inj. rewrite <- (Get_dsp_makeBidURL floor dspId), H.
      apply Get_dsp_makeBidURL.
    + rewrite <- (Get_p_makeBidURL floor dspId), H. apply Get_p_makeBidURL.
  - intros [-> H]. unfold makeBidURL. by rewrite H.
Qed.

(** X8.  The bid endpoint accepts the [dsp] of a URL of [makeBidURL] exactly for
    the identities the loop of [HandlerAuction] runs through. *)
Theorem bid_endpoint_accepts_round_ids floor dspId :
  dsp_accepted (ParseQuery (query_of (makeBidURL floor dspId))) <-> (1 <= dspId <= MaxDSP)%nat.
Proof. apply makeBidURL_accepted. Qed.

(** X9.  For a floor that is a number and an identity of the round, the bid
    endpoint prices the request of [makeBidURL] from the thousandths it was
    sent, not from the floor itself. *)
Theorem round_request_is_priced_from_thousandths floor dspId rnd rndn :
  F64.is_number floor = true -> (1 <= dspId <= MaxDSP)%nat ->
  HandlerBid ParseFloat_plain (ParseQuery (query_of (makeBidURL floor dspId))) rnd rndn
  = match received floor with
    | Some fl =>
        match Marshal {| Price := round2 (F64.add fl (F64.mul rnd (F64.of_Z 100))) |} with
        | inl err => Error err StatusInternalServerError
        | inr body => JSON (10 * (rndn + 1)) body
        end
    | None => Error "bad p parameter" StatusBadRequest
    end.
Proof. apply HandlerBid_makeBidURL. Qed.

Lemma round_request_is_priced_from_thousandths_witness :
  HandlerBid ParseFloat_plain (ParseQuery (query_of (makeBidURL sixteenth 2))) rnd_half 0
  = JSON 10 {| Price := cents 5006 |}.
Proof.
  rewrite (round_request_is_priced_from_thousandths sixteenth 2 rnd_half 0).
  - by vm_compute.
  - reflexivity.
  - unfold MaxDSP. lia.
Defined.

(** X10.  With draws of [rand.Float64()] in [0,1) on both sides, the bid endpoint
    never refuses a request of a round and never fails on it: the answer is
    200 with a finite price that is not negative, computed from the floor
    read back from the thousandths sent. *)
Theorem round_request_gets_a_price rnd0 rnd rndn dspId :
  F64.finite rnd0 = true -> F64.leb (F64.of_Z 0) rnd0 = true ->
  F64.ltb rnd0 (F64.of_Z 1) = true ->
  F64.finite rnd = true -> F64.leb (F64.of_Z 0) rnd = true ->
  F64.ltb rnd (F64.of_Z 1) = true ->
  (1 <= dspId <= MaxDSP)%nat ->
  let floor := F64.mul rnd0 (F64.of_Z 10) in
  exists fl price,
    received floor = Some fl
    /\ price = round2 (F64.add fl (F64.mul rnd (F64.of_Z 100)))
    /\ HandlerBid ParseFloat_plain (ParseQuery (query_of (makeBidURL floor dspId))) rnd rndn
       = JSON (10 * (rndn + 1)) {| Price := price |}
    /\ F64.finite price = true
    /\ F64.leb (F64.of_Z 0) price = true.
Proof.
  intros H1 H2 H3 H4 H5 H6 Hid. cbv zeta.
  destruct (HandlerBid_round rnd0 rnd rndn dspId) as (fl & Hfl & Hanswer & Hb);
    [by apply floor_below|by apply draw_below|done|].
  exists fl, (round2 (F64.add fl (F64.mul rnd (F64.of_Z 100)))).
  split_and!; [done..|by eapply below_finite|].
  apply (nonneg_leb_zero 15); [done|]. apply price_nonneg; [|by apply leb_zero_nonneg].
  eapply received_nonneg; [|exact Hfl]. by apply floor_nonneg, leb_zero_nonneg.
Qed.

Lemma round_request_gets_a_price_witness :
  exists fl price,
    received (F64.mul rnd_half (F64.of_Z 10)) = Some fl
    /\ price = round2 (F64.add fl (F64.mul rnd_top (F64.of_Z 100)))
    /\ HandlerBid ParseFloat_plain
         (ParseQuery (query_of (makeBidURL (F64.mul rnd_half (F64.of_Z 10)) 3))) rnd_top 8
       = JSON (10 * (8 + 1)) {| Price := price |}
    /\ F64.finite price = true
    /\ F64.leb (F64.of_Z 0) price = true.
Proof.
  apply (round_request_gets_a_price rnd_half rnd_top 8 3); try reflexivity.
  unfold MaxDSP. lia.
Defined.

End BidProps.

(** ** The sort and its three methods *)

Module SelectProps.
Import Bid Select F64Facts SelectFacts SortFacts Examples.

(** X11.  On a slice short enough for [sort.Sort] to be one [insertionSort], the
    sort ends without indexing outside the slice, and its result is a
    rearrangement of the slice in which prices never go down from left to
    right. *)
Theorem sort_Sort_orders_by_price data :
  (length data <= 12)%nat ->
  Forall price_ok data ->
  exists sorted,
    sort_Sort data = Some sorted
    /\ sorted ≡ₚ data
    /\ length sorted = length data
    /\ StronglySorted (fun a b => F64.leb (BidPrice a) (BidPrice b) = true) sorted.
Proof.
  intros _ Hok. exists (rev (isort data)). rewrite sort_Sort_spec. split_and!; [done|..].
  - by rewrite <- Permutation_rev, isort_Permutation.
  - by rewrite length_rev, isort_Permutation.
  - apply Sorted_StronglySorted.
    { intros a b c. apply leb_trans. }
    rewrite rev_reverse. apply (Sorted_reverse not_above). by apply isort_Sorted.
Qed.

Lemma sort_Sort_orders_by_price_witness :
  exists sorted,
    sort_Sort [bid1_20; bid3_15; bid2_20] = Some sorted
    /\ sorted ≡ₚ [bid1_20; bid3_15; bid2_20]
    /\ length sorted = 3%nat
    /\ StronglySorted (fun a b => F64.leb (BidPrice a) (BidPrice b) = true) sorted.
Proof.
  apply (sort_Sort_orders_by_price [bid1_20; bid3_15; bid2_20]).
  - simpl. lia.
  - repeat constructor.
Defined.



(** The bound is needed: on seven entries the gap-6 pass of the older sort
    moves the first entry behind the second although both are at 20.00. *)
Lemma gap6_pass_reorders_equal_prices :
  sort_Sort seven_entries
  = Some [bid3_15; bid1_20; bid2_20; bid_30 4; bid_30 5; bid_30 6; bid_30 7]
  /\ sort_Sort_go118 seven_entries
     = Some [bid3_15; bid2_20; bid1_20; bid_30 4; bid_30 5; bid_30 6; bid_30 7].
Proof. split; vm_compute; reflexivity. Qed.

(** X13.  [Swap] exchanges two entries of the slice and touches nothing else; it
    has no result exactly when an index is outside the slice (Go panics);
    doing it twice gives the slice back. *)
Theorem Swap_exchanges data i j :
  (Swap data i j = None <-> ~ (i < Len data /\ j < Len data)%nat)
  /\ forall data', Swap data i j = Some data' ->
       Len data' = Len data
       /\ data' ≡ₚ data
       /\ data' !! i = data !! j
       /\ data' !! j = data !! i
       /\ (forall k, k <> i -> k <> j -> data' !! k = data !! k)
       /\ Swap data' i j = Some data.
Proof.
  unfold Swap, Len. split.
  - destruct (data !! i) as [x|] eqn:Hi; cbn.
    + destruct (data !! j) as [y|] eqn:Hj; cbn.
      * apply lookup_lt_Some in Hi, Hj. split; [done|]. intros []. done.
      * apply lookup_ge_None in Hj. split; [lia|done].
    + apply lookup_ge_None in Hi. split; [lia|done].
  - intros data'. destruct (data !! i) as [x|] eqn:Hi; [|done]. cbn.
    destruct (data !! j) as [y|] eqn:Hj; [|done]. cbn. intros [= <-].
    pose proof (lookup_lt_Some _ _ _ Hi) as Hli. pose proof (lookup_lt_Some _ _ _ Hj) as Hlj.
    assert (<[j:=x]> (<[i:=y]> data) !! j = Some x) as Hj'.
    { apply list_lookup_insert_eq. by rewrite length_insert. }
    assert (<[j:=x]> (<[i:=y]> data) !! i = Some y) as Hi'.
    { destruct (decide (i = j)) as [->|Hne].
      - rewrite Hj'. congruence.
      - rewrite list_lookup_insert_ne by done. by apply list_lookup_insert_eq. }
    split_and!.
    + by rewrite !length_insert.
    + by apply swap_Permutation.
    + congruence.
    + congruence.
    + intros k Hki Hkj. by rewrite !list_lookup_insert_ne.
    + rewrite Hi', Hj'. cbn. f_equal.
      apply list_eq. intros k.
      destruct (decide (k = j)) as [->|Hkj].
      { rewrite list_lookup_insert_eq by (by rewrite !length_insert). done. }
      rewrite list_lookup_insert_ne by done.
      destruct (decide (k = i)) as [->|Hki].
      { rewrite list_lookup_insert_eq by (by rewrite !length_insert). done. }
      by rewrite !list_lookup_insert_ne.
Qed.

(** X14.  [Less] looks at the prices only and is a strict order on them: no entry
    is below itself, two entries are never below each other, and below is
    transitive.  Entries of one price are not told apart, whatever their
    identities.  It has no result exactly when an index is outside the
    slice. *)
Theorem Less_is_a_strict_order_on_prices data i j k :
  (Less data i j = None <-> ~ (i < Len data /\ j < Len data)%nat)
  /\ Less data i i <> Some true
  /\ (Less data i j = Some true -> Less data j i = Some false)
  /\ (Less data i j = Some true -> Less data j k = Some true -> Less data i k = Some true)
  /\ (forall x y, data !! i = Some x -> data !! j = Some y -> BidPrice x = BidPrice y ->
        Less data i j = Some false /\ Less data j i = Some false).
Proof.
  unfold Less, Len. split_and!.
  - destruct (data !! i) as [x|] eqn:Hi; cbn.
    + destruct (data !! j) as [y|] eqn:Hj; cbn.
      * apply lookup_lt_Some in Hi, Hj. split; [done|]. intros []. done.
      * apply lookup_ge_None in Hj. split; [lia|done].
    + apply lookup_ge_None in Hi. split; [lia|done].
  - destruct (data !! i) as [x|]; cbn; [|done]. by rewrite ltb_irrefl.
  - destruct (data !! i) as [x|]; cbn; [|done]. destruct (data !! j) as [y|]; cbn; [|done].
    intros [= H]. by rewrite (ltb_asym _ _ H).
  - destruct (data !! i) as [x|]; cbn; [|done]. destruct (data !! j) as [y|]; cbn; [|done].
    destruct (data !! k) as [z|]; cbn; [|done].
    intros [= H1] [= H2]. by rewrite (ltb_trans _ _ _ H1 H2).
  - intros x y -> -> Heq. cbn. by rewrite Heq, ltb_irrefl.
Qed.

End SelectProps.

(** ** The round *)

Module RoundProps.
Import Strconv Url Bid Query Select Round Loopback.
Import F64Facts StrconvFacts BidFacts SelectFacts RoundFacts QueryFacts HandlerFacts.
Import MagnitudeFacts SignFacts PricingFacts ScheduleFacts Examples.

(** X15.  The two channels are used as Go requires, in every state of a round:
    neither buffer holds more than its capacity; the queue is closed only
    after every worker has returned, so no worker sends on a closed channel;
    the collector leaves its [range] loop only when the queue is closed and
    drained; the token in [allDone] is the collector's last act, and the
    main goroutine is then waiting for it. *)
Theorem channels_are_used_in_order reply rnd s :
  reachable reply rnd s ->
  (length (queue s) <= queue_cap)%nat
  /\ (allDone s <= allDone_cap)%nat
  /\ (queue_closed s = true ->
        length (workers s) = MaxDSP /\ Forall (fun w => wpc w = WExit) (workers s))
  /\ (collector s <> CRange -> queue_closed s = true /\ queue s = [])
  /\ (allDone s = 1%nat -> collector s = CExit /\ main s = MAllDone).
Proof.
  intros HI%reachable_Inv. pose proof (inv_sync _ _ _ HI) as Hsync.
  pose proof (inv_queue _ _ _ HI) as Hq. pose proof (Inv_all_exited _ _ _ HI) as Hexit.
  unfold sync_ok, allDone_cap in *.
  destruct (main s) eqn:Hmain; destruct_and?;
    try (destruct (collector s) eqn:Hcol; destruct_and?);
    try match goal with H : exists _, _ |- _ => clear H end;
    split_and!; intros; try done; try congruence; try lia; auto.
Qed.

Lemma channels_are_used_in_order_witness :
  let s := run reply_all [GMain; GMain; GMain; GMain; GWorker 1; GWorker 1] (init rnd_half) in
  length (queue s) = 1%nat
  /\ ((length (queue s) <= queue_cap)%nat
      /\ (allDone s <= allDone_cap)%nat
      /\ (queue_closed s = true ->
            length (workers s) = MaxDSP /\ Forall (fun w => wpc w = WExit) (workers s))
      /\ (collector s <> CRange -> queue_closed s = true /\ queue s = [])
      /\ (allDone s = 1%nat -> collector s = CExit /\ main s = MAllDone)).
Proof.
  cbv zeta. split; [by vm_compute|].
  apply (channels_are_used_in_order reply_all rnd_half).
  apply run_reachable, reach_init.
Defined.

(** X16.  The WaitGroup counter is the number of workers that have not returned
    yet: it is never negative and never above [MaxDSP], and [wgDSP.Wait()]
    lets the main goroutine through only when all [MaxDSP] workers have been
    started and have returned. *)
Theorem wait_group_counts_running_workers reply rnd s :
  reachable reply rnd s ->
  wgDSP s = Z.of_nat (sum_list_with live (workers s))
  /\ 0 <= wgDSP s <= Z.of_nat MaxDSP
  /\ (length (workers s) <= MaxDSP)%nat
  /\ (waited s ->
        wgDSP s = 0 /\ length (workers s) = MaxDSP
        /\ Forall (fun w => wpc w = WExit) (workers s)).
Proof.
  intros HI%reachable_Inv. pose proof (inv_wg _ _ _ HI) as Hwg.
  pose proof (Inv_length_workers _ _ _ HI) as Hlen.
  pose proof (sum_live_le (workers s)) as Hlive.
  split_and!; [done|lia|lia|done|].
  intros Hw. pose proof (inv_sync _ _ _ HI) as Hsync. unfold sync_ok, waited in *.
  assert (wgDSP s = 0 /\ length (workers s) = MaxDSP) as [H0 Hl].
  { destruct (main s); destruct_and?; done. }
  split_and!; [done..|]. by eapply Inv_all_exited.
Qed.

Lemma wait_group_counts_running_workers_witness :
  let s := run reply_all [GMain; GMain; GMain; GMain; GWorker 1; GWorker 1; GWorker 1]
             (init rnd_half) in
  wgDSP s = 2
  /\ (wgDSP s = Z.of_nat (sum_list_with live (workers s))
      /\ 0 <= wgDSP s <= Z.of_nat MaxDSP
      /\ (length (workers s) <= MaxDSP)%nat
      /\ (waited s ->
            wgDSP s = 0 /\ length (workers s) = MaxDSP
            /\ Forall (fun w => wpc w = WExit) (workers s))).
Proof.
  cbv zeta. split; [by vm_compute|].
  apply (wait_group_counts_running_workers reply_all rnd_half).
  apply run_reachable, reach_init.
Defined.

(** X17.  Results are collected in the order they were sent: a step never drops or
    reorders what is in [dspResults] and in the queue behind it, until the
    main goroutine sorts [dspResults] in place. *)
Theorem results_are_collected_in_arrival_order reply g s s' :
  step reply g s = Some s' ->
  (g = GMain /\ main s = MSelect /\ sort_Sort (dspResults s) = Some (dspResults s')
   /\ queue s' = queue s)
  \/ (dspResults s `prefix_of` dspResults s'
      /\ (dspResults s ++ queue s) `prefix_of` (dspResults s' ++ queue s')).
Proof.
  destruct g as [| |k]; cbn [step].
  - unfold step_main. destruct (main s) eqn:Hm.
    + destruct (decide _); intros [= <-]; right; done.
    + destruct (_ =? _); intros [= <-]; right; done.
    + intros [= <-]; right; done.
    + destruct (allDone s); intros [= <-]; right; done.
    + intros [= <-]. left. cbn. split_and!; [done..| |done].
      rewrite sort_Sort_spec. done.
    + done.
  - unfold step_collector. destruct (collector s).
    + destruct (queue s) as [|r rest].
      * destruct (queue_closed s); intros [= <-]; right; done.
      * intros [= <-]. right. cbn. split; [by apply prefix_app_r|].
        by rewrite <- app_assoc.
    + destruct (decide _); intros [= <-]; right; done.
    + done.
  - unfold step_worker. destruct (workers s !! k) as [w|]; [|done]. cbn.
    destruct (wpc w).
    + intros [= <-]; right; done.
    + destruct (queue_closed s); [intros [= <-]; right; done|].
      destruct (decide _); intros [= <-]; right; cbn; [|done..].
      split; [done|]. rewrite app_assoc. by apply prefix_app_r.
    + destruct (_ <=? _); intros [= <-]; right; done.
    + done.
    + done.
Qed.

Lemma results_are_collected_in_arrival_order_witness :
  let s := run reply_all [GMain; GMain; GMain; GMain; GWorker 1; GWorker 1] (init rnd_half) in
  let s' := run reply_all [GCollector] s in
  dspResults s = [] /\ queue s = [{| DSPId := 2; BidPrice := cents 1570 |}]
  /\ dspResults s' = [{| DSPId := 2; BidPrice := cents 1570 |}] /\ queue s' = []
  /\ ((GCollector = GMain /\ main s = MSelect /\ sort_Sort (dspResults s) = Some (dspResults s')
       /\ queue s' = queue s)
      \/ (dspResults s `prefix_of` dspResults s'
          /\ (dspResults s ++ queue s) `prefix_of` (dspResults s' ++ queue s'))).
Proof.
  cbv zeta. split_and!; [by vm_compute..|].
  apply (results_are_collected_in_arrival_order reply_all GCollector). by vm_compute.
Defined.

(** X18.  The answers can arrive in any order: for every order of the bidders
    there is an interleaving in which [dspResults] holds the decoded answers
    in exactly that order when the winner is picked. *)
Theorem any_arrival_order_can_happen reply rnd order :
  order ≡ₚ seq 1 MaxDSP ->
  exists s,
    reachable reply rnd s
    /\ main s = MSelect
    /\ dspResults s = flat_map (result_of reply) order
    /\ exists s', step reply GMain s = Some s'
         /\ main s' = MDone (pick_winner (flat_map (result_of reply) order)).
Proof.
  intros Horder. destruct (one_by_one_arrivals reply rnd order Horder) as (Hm & Hres & Hend).
  exists (run reply (one_by_one order) (init rnd)). split_and!; [|done..|].
  - apply run_reachable, reach_init.
  - cbn [step]. unfold step_main. rewrite Hm. eexists. split; [done|].
    cbn [main]. by rewrite Hres.
Qed.

Lemma any_arrival_order_can_happen_witness :
  exists s,
    reachable reply_tie rnd_half s
    /\ main s = MSelect
    /\ dspResults s = flat_map (result_of reply_tie) [3; 2; 1]%nat
    /\ exists s', step reply_tie GMain s = Some s'
         /\ main s' = MDone (pick_winner (flat_map (result_of reply_tie) [3; 2; 1]%nat)).
Proof.
  apply (any_arrival_order_can_happen reply_tie rnd_half [3; 2; 1]%nat).
  change [3; 2; 1]%nat with (rev (seq 1 MaxDSP)). symmetry. apply Permutation_rev.
Defined.

(** X19.  A round looks at the replies of the bidders [1..MaxDSP] and at no
    other. *)
Theorem round_depends_on_its_bidders_only reply reply' rnd sched :
  (forall dspId, (1 <= dspId <= MaxDSP)%nat -> reply dspId = reply' dspId) ->
  run reply sched (init rnd) = run reply' sched (init rnd).
Proof. intros Hagree. eapply run_ext; [apply Inv_init|done]. Qed.

Lemma round_depends_on_its_bidders_only_witness :
  run reply_all round_robin (init rnd_half)
  = run (fun dspId => if decide (dspId = 7%nat) then BadBody else reply_all dspId)
      round_robin (init rnd_half).
Proof.
  apply (round_depends_on_its_bidders_only reply_all).
  intros dspId Hid. unfold MaxDSP in Hid. destruct (decide _); [lia|done].
Defined.

(** X20.  When a round has ended nothing is left behind: every worker and the
    collector have returned, both channels are empty, the queue is closed,
    the counter is zero, and no goroutine can move. *)
Theorem finished_round_leaves_nothing_behind reply rnd s :
  reachable reply rnd s -> finished s ->
  length (workers s) = MaxDSP
  /\ Forall (fun w => wpc w = WExit) (workers s)
  /\ collector s = CExit
  /\ queue s = [] /\ queue_closed s = true /\ allDone s = 0%nat /\ wgDSP s = 0
  /\ forall g, step reply g s = None.
Proof.
  intros HI%reachable_Inv Hfin. pose proof (inv_sync _ _ _ HI) as Hsync.
  unfold sync_ok, finished in *. destruct (main s) eqn:Hm; try done.
  destruct Hsync as (Hlen & Hwg & Hcl & Hcol & Hq & Had & _).
  pose proof (Inv_all_exited _ _ _ HI Hwg) as Hexit.
  split_and!; [done..|]. intros [| |k]; cbn [step].
  - unfold step_main. by rewrite Hm.
  - unfold step_collector. by rewrite Hcol.
  - by apply step_worker_exited.
Qed.

Lemma finished_round_leaves_nothing_behind_witness :
  let s := run reply_one round_robin (init rnd_half) in
  length (workers s) = MaxDSP
  /\ Forall (fun w => wpc w = WExit) (workers s)
  /\ collector s = CExit
  /\ queue s = [] /\ queue_closed s = true /\ allDone s = 0%nat /\ wgDSP s = 0
  /\ forall g, step reply_one g s = None.
Proof.
  apply (finished_round_leaves_nothing_behind reply_one rnd_half).
  - apply run_reachable, reach_init.
  - by vm_compute.
Defined.

(** X21.  A round served by the program's own bid endpoint, with draws of
    [rand.Float64()] in [0,1): every answer that arrives in time is a price,
    the floor read back from the thousandths sent plus the bidder's draw,
    rounded to cents, a finite float64 that is not negative; [dspResults] ends with exactly
    these answers; the winner is one of them with a highest price; and the
    round panics on the empty slice exactly when no answer arrived in time. *)
Theorem self_served_round_picks_a_highest_price rnd0 in_time rnd rndn s o :
  F64.finite rnd0 = true -> F64.leb (F64.of_Z 0) rnd0 = true ->
  F64.ltb rnd0 (F64.of_Z 1) = true ->
  (forall dspId, F64.finite (rnd dspId) = true /\ F64.leb (F64.of_Z 0) (rnd dspId) = true
                 /\ F64.ltb (rnd dspId) (F64.of_Z 1) = true) ->
  reachable (bid_reply (F64.mul rnd0 (F64.of_Z 10)) in_time rnd rndn) rnd0 s ->
  main s = MDone o ->
  exists fl,
    received (F64.mul rnd0 (F64.of_Z 10)) = Some fl
    /\ (forall r, r ∈ dspResults s
          <-> (1 <= DSPId r <= MaxDSP)%nat /\ in_time (DSPId r) = true
              /\ BidPrice r = round2 (F64.add fl (F64.mul (rnd (DSPId r)) (F64.of_Z 100))))
    /\ Forall price_ok (dspResults s)
    /\ Forall (fun r => F64.leb (F64.of_Z 0) (BidPrice r) = true) (dspResults s)
    /\ match o with
       | Winner w =>
           w ∈ dspResults s
           /\ forall r, r ∈ dspResults s -> F64.leb (BidPrice r) (BidPrice w) = true
       | PanicIndex i len =>
           i = -1 /\ len = 0%nat
           /\ forall dspId, (1 <= dspId <= MaxDSP)%nat -> in_time dspId = false
       | PanicInSort => False
       end.
Proof.
  intros H1 H2 H3 Hrnd HI%reachable_Inv Hm.
  set (floor := F64.mul rnd0 (F64.of_Z 10)) in *.
  set (reply := bid_reply floor in_time rnd rndn) in *.
  pose proof (floor_below rnd0 H1 H2 H3) as Hfloor. fold floor in Hfloor.
  destruct (received_below _ Hfloor) as (fl & Hfl & Hb).
  set (price dspId := round2 (F64.add fl (F64.mul (rnd dspId) (F64.of_Z 100)))).
  assert (forall dspId, below 15 (price dspId)) as Hprice.
  { intros dspId. destruct (Hrnd dspId) as (? & ? & ?). apply price_below; [done|].
    by apply draw_below. }
  assert (forall dspId, nonneg (price dspId)) as Hnn.
  { intros dspId. destruct (Hrnd dspId) as (_ & ? & _).
    apply price_nonneg; [|by apply leb_zero_nonneg].
    eapply received_nonneg; [|exact Hfl]. by apply floor_nonneg, leb_zero_nonneg. }
  assert (forall dspId, (1 <= dspId <= MaxDSP)%nat ->
            reply dspId = if in_time dspId then Body {| Price := price dspId |} else GetFailed)
    as Hreply.
  { intros dspId Hid. unfold reply, bid_reply, floor in *. destruct (in_time dspId); [|done].
    destruct (Hrnd dspId) as (? & ? & ?).
    destruct (HandlerBid_round rnd0 (rnd dspId) (rndn dspId) dspId) as (fl' & Hfl' & -> & _);
      [done|by apply draw_below|done|].
    rewrite Hfl in Hfl'. by injection Hfl' as <-. }
  assert (forall r, r ∈ respondents reply
            <-> (1 <= DSPId r <= MaxDSP)%nat /\ in_time (DSPId r) = true
                /\ BidPrice r = price (DSPId r)) as Hresp.
  { intros r. split.
    - intros [Hid Hr]%elem_of_respondents. rewrite (Hreply _ Hid) in Hr.
      destruct (in_time (DSPId r)); [|done]. by injection Hr as <-.
    - intros (Hid & Hin & Hp). unfold respondents.
      rewrite list_elem_of_In, in_flat_map. exists (DSPId r). split.
      + apply in_seq. lia.
      + unfold result_of. rewrite (Hreply _ Hid), Hin. cbn. left. destruct r. cbn in *. by f_equal. }
  destruct (Inv_finished _ _ _ _ HI Hm) as (_ & Hres & arrived & Harr & ->).
  assert (Forall price_ok (respondents reply)) as Hok.
  { apply Forall_forall. intros r (_ & _ & Hp)%Hresp. unfold price_ok. rewrite Hp.
    eapply below_finite, Hprice. }
  exists fl. split_and!; [done| | | |].
  - intros r. by rewrite Hres.
  - by rewrite Hres.
  - rewrite Hres. apply Forall_forall. intros r (_ & _ & Hp)%Hresp. rewrite Hp.
    by eapply nonneg_leb_zero.
  - rewrite pick_winner_spec. destruct (winner_of arrived) as [w|] eqn:Hw.
    + destruct (winner_of_max arrived w) as [Hin Hmax]; [by rewrite Harr|done|].
      split; [by rewrite Hres, <- Harr|]. intros r Hr. apply Hmax. by rewrite Harr, <- Hres.
    + split_and!; [done..|]. intros dspId Hid.
      destruct arrived as [|? ?]; [|done]. apply Permutation_nil_l in Harr.
      destruct (in_time dspId) eqn:Hin; [|done].
      assert ({| DSPId := dspId; BidPrice := price dspId |} ∈ respondents reply) as Hel.
      { apply Hresp. by cbn. }
      rewrite <- Harr in Hel. by apply elem_of_nil in Hel.
Qed.

Lemma self_served_round_picks_a_highest_price_witness :
  let in_time dspId := negb (dspId =? 2)%nat in
  let rnd dspId := if (dspId =? 1)%nat then rnd_small else rnd_half in
  let reply := bid_reply (F64.mul rnd_half (F64.of_Z 10)) in_time rnd (fun _ => 0) in
  main (run reply round_robin (init rnd_half))
  = MDone (Winner {| DSPId := 3; BidPrice := cents 5500 |})
  /\ exists fl,
       received (F64.mul rnd_half (F64.of_Z 10)) = Some fl
       /\ Forall price_ok (dspResults (run reply round_robin (init rnd_half))).
Proof.
  cbv zeta. split; [by vm_compute|].
  destruct (self_served_round_picks_a_highest_price rnd_half
              (fun dspId => negb (dspId =? 2)%nat)
              (fun dspId => if (dspId =? 1)%nat then rnd_small else rnd_half)
              (fun _ => 0)
              (run (bid_reply (F64.mul rnd_half (F64.of_Z 10))
                      (fun dspId => negb (dspId =? 2)%nat)
                      (fun dspId => if (dspId =? 1)%nat then rnd_small else rnd_half)
                      (fun _ => 0)) round_robin (init rnd_half))
              (Winner {| DSPId := 3; BidPrice := cents 5500 |}))
    as (fl & Hfl & _ & Hok & _ & _).
  - reflexivity.
  - reflexivity.
  - reflexivity.
  - intros dspId. destruct (dspId =? 1)%nat; by vm_compute.
  - apply run_reachable, reach_init.
  - by vm_compute.
  - exists fl. by split.
Defined.

End RoundProps.

